(** * Monte Carlo Tree Search engine of agentq (core/mcts/core/mcts.py)

    A shallow embedding of [MCTSNode], [MCTSAggregation] and [MCTS].

    Conventions of the embedding.
    - Python objects of class [MCTSNode] live in a heap (a list of node
      records); a reference to a node is its index, which is also the value
      of its [id] attribute, because ids are handed out by a counter that
      [__call__] resets.  A path is a list of references, so the nodes of a
      path alias the nodes of the tree.
    - Python floats are idealised as real numbers; the one infinite value the
      engine itself produces, [-math.inf], is a separate constructor.
    - The collaborators (world model, search configuration, numpy's random
      generator) are functions over an abstract [World]; [None] stands for an
      exception raised by the collaborator.
    - Exceptions are values of [exn]; the [while True] loops and the
      recursive tree walks take a fuel argument. *)

From Stdlib Require Import Reals Lra Lia ZArith.
From stdpp Require Import base list option strings.

(** ** Exceptions and outcomes *)

Inductive exn :=
| AssertionError
| ValueError
| ZeroDivisionError
| TypeError
| IndexError
| AttributeError
| CollaboratorError   (* raised inside the world model or search config *)
| DanglingRef.        (* a reference outside the heap; no Python counterpart *)

Inductive outcome (A : Type) :=
| Ok (a : A)
| Raise (e : exn)
| OutOfFuel.

Arguments Ok {A} a.
Arguments Raise {A} e.
Arguments OutOfFuel {A}.

#[global] Instance outcome_ret : MRet outcome := fun A a => Ok a.
#[global] Instance outcome_bind : MBind outcome := fun A B f m =>
  match m with
  | Ok a => f a
  | Raise e => Raise e
  | OutOfFuel => OutOfFuel
  end.

#[global] Instance outcome_fmap : FMap outcome := fun A B f m =>
  match m with
  | Ok a => Ok (f a)
  | Raise e => Raise e
  | OutOfFuel => OutOfFuel
  end.

(** ** Floats *)

Inductive float :=
| NegInf
| Fin (x : R).

Definition float_gt (a b : float) : bool :=
  match a, b with
  | NegInf, _ => false
  | Fin _, NegInf => true
  | Fin x, Fin y => if Rgt_dec x y then true else false
  end.

Definition float_le (a b : float) : Prop :=
  match a, b with
  | NegInf, _ => True
  | Fin _, NegInf => False
  | Fin x, Fin y => (x <= y)%R
  end.

Definition is_neg_inf (a : float) : bool :=
  match a with NegInf => true | Fin _ => false end.

(** Python's builtin [sum]: a left fold starting from 0. *)
Definition py_sum (l : list R) : float := Fin (fold_left Rplus l 0%R).

(** ** Python list primitives *)

(** [l[-1]] *)
Definition py_last {A} (l : list A) : outcome A :=
  match last l with
  | Some x => Ok x
  | None => Raise IndexError
  end.

(** [l[0]] *)
Definition py_first {A} (l : list A) : outcome A :=
  match l with
  | x :: _ => Ok x
  | [] => Raise IndexError
  end.

(** [l[i]] for a Python int [i]; negative indices count from the end. *)
Definition py_index {A} (l : list A) (i : Z) : outcome A :=
  let n := Z.of_nat (length l) in
  let j := if (i <? 0)%Z then (i + n)%Z else i in
  if (j <? 0)%Z then Raise IndexError
  else match l !! Z.to_nat j with
       | Some x => Ok x
       | None => Raise IndexError
       end.

(** [l[1:]] *)
Definition py_tail {A} (l : list A) : list A := drop 1 l.

(** [l[1::-1]]: start at index 1 (or at the last index when the list is
    shorter) and walk down to index 0. *)
Definition py_slice_1_rev {A} (l : list A) : list A := reverse (take 2 l).

(** [max(l, key=key)]: the first element whose key is not exceeded by a later
    one; every key is evaluated, in order. *)
Fixpoint py_max_from {A} (key : A → outcome float) (best : A) (kbest : float)
    (l : list A) : outcome A :=
  match l with
  | [] => Ok best
  | x :: l =>
      k ← key x;
      if float_gt k kbest then py_max_from key x k l
      else py_max_from key best kbest l
  end.

Definition py_max_key {A} (key : A → outcome float) (l : list A) : outcome A :=
  match l with
  | [] => Raise ValueError
  | x :: l => k ← key x; py_max_from key x k l
  end.

(** [math.log] and [math.sqrt] with their domain errors. *)
Definition math_log (n : nat) : outcome R :=
  if decide (n = 0) then Raise ValueError else Ok (ln (INR n)).

Definition math_sqrt (x : R) : outcome R :=
  if Rlt_dec x 0 then Raise ValueError else Ok (sqrt x).

(** [np.mean] of a list of ints.  Dividing by its result is a numpy division,
    which does not raise. *)
Definition np_mean (l : list nat) : R :=
  (fold_left Rplus (INR <$> l) 0 / INR (length l))%R.

(** [np.argmax]: index of the first maximum. *)
Fixpoint np_argmax_from (i besti : nat) (best : R) (l : list R) : nat :=
  match l with
  | [] => besti
  | x :: l =>
      if Rgt_dec x best then np_argmax_from (S i) i x l
      else np_argmax_from (S i) besti best l
  end.

Definition np_argmax (l : list R) : outcome Z :=
  match l with
  | [] => Raise ValueError
  | x :: l => Ok (Z.of_nat (np_argmax_from 1 0 x l))
  end.

Section Engine.

Context {State Action Details Aux Answer World : Type}.
Context `{!EqDecision Answer}.

(** ** class MCTSNode *)

(** The attributes that no method reads ([id], which is the node's place in
    the heap, [cum_rewards], [calc_q] and [reward_details]) are left out. *)
Record MCTSNode := mkNode {
  state : option State;            (* None: not resolved yet *)
  action : option Action;
  parent : option nat;
  fast_reward : R;
  reward : R;
  fast_reward_details : Details;
  is_terminal : bool;
  children : option (list nat);
  N : nat;
  _Q : R;
  depth : nat
}.

Definition set_state (v : option State) (n : MCTSNode) : MCTSNode :=
  mkNode v (action n) (parent n) (fast_reward n) (reward n)
    (fast_reward_details n) (is_terminal n) (children n) (N n) (_Q n) (depth n).

Definition set_reward (v : R) (n : MCTSNode) : MCTSNode :=
  mkNode (state n) (action n) (parent n) (fast_reward n) v
    (fast_reward_details n) (is_terminal n) (children n) (N n) (_Q n) (depth n).

Definition set_is_terminal (v : bool) (n : MCTSNode) : MCTSNode :=
  mkNode (state n) (action n) (parent n) (fast_reward n) (reward n)
    (fast_reward_details n) v (children n) (N n) (_Q n) (depth n).

Definition set_children (v : option (list nat)) (n : MCTSNode) : MCTSNode :=
  mkNode (state n) (action n) (parent n) (fast_reward n) (reward n)
    (fast_reward_details n) (is_terminal n) v (N n) (_Q n) (depth n).

Definition set_N (v : nat) (n : MCTSNode) : MCTSNode :=
  mkNode (state n) (action n) (parent n) (fast_reward n) (reward n)
    (fast_reward_details n) (is_terminal n) (children n) v (_Q n) (depth n).

(** The [Q] setter. *)
Definition set_Q (v : R) (n : MCTSNode) : MCTSNode :=
  mkNode (state n) (action n) (parent n) (fast_reward n) (reward n)
    (fast_reward_details n) (is_terminal n) (children n) (N n) v (depth n).

(** The [Q] getter. *)
Definition Q (n : MCTSNode) : R :=
  if decide (N n = 0) then 0%R else _Q n.

(** ** The machine: heap of nodes and state of the collaborators *)

Record machine := mkMachine {
  heap : list MCTSNode;
  world : World
}.

Definition M (A : Type) : Type := machine → outcome (A * machine).

#[global] Instance M_ret : MRet M := fun A a m => Ok (a, m).
#[global] Instance M_bind : MBind M := fun A B f c m =>
  match c m with
  | Ok (a, m') => f a m'
  | Raise e => Raise e
  | OutOfFuel => OutOfFuel
  end.

Definition lift {A} (o : outcome A) : M A := fun m =>
  match o with
  | Ok a => Ok (a, m)
  | Raise e => Raise e
  | OutOfFuel => OutOfFuel
  end.

Definition raise {A} (e : exn) : M A := fun _ => Raise e.

Definition out_of_fuel {A} : M A := fun _ => OutOfFuel.

Definition get_heap : M (list MCTSNode) := fun m => Ok (heap m, m).

Definition deref_in (σ : list MCTSNode) (i : nat) : outcome MCTSNode :=
  match σ !! i with
  | Some nd => Ok nd
  | None => Raise DanglingRef
  end.

Definition deref (i : nat) : M MCTSNode := fun m =>
  match heap m !! i with
  | Some nd => Ok (nd, m)
  | None => Raise DanglingRef
  end.

Definition modify (i : nat) (f : MCTSNode → MCTSNode) : M unit := fun m =>
  match heap m !! i with
  | Some nd => Ok (tt, mkMachine (<[i := f nd]> (heap m)) (world m))
  | None => Raise DanglingRef
  end.

Definition alloc (nd : MCTSNode) : M nat := fun m =>
  Ok (length (heap m), mkMachine (heap m ++ [nd]) (world m)).

(** A call into a collaborator. *)
Definition await {A} (f : World → option (A * World)) : M A := fun m =>
  match f (world m) with
  | Some (a, w) => Ok (a, mkMachine (heap m) w)
  | None => Raise CollaboratorError
  end.

(** [x.attr] where [x] may be [None]. *)
Definition py_attr {A} (x : option A) : M A :=
  match x with
  | Some a => mret a
  | None => raise AttributeError
  end.

Fixpoint for_each {A} (l : list A) (body : A → M unit) : M unit :=
  match l with
  | [] => mret tt
  | x :: l => _ ← body x; for_each l body
  end.

Fixpoint map_m {A B} (f : A → M B) (l : list A) : M (list B) :=
  match l with
  | [] => mret []
  | x :: l => y ← f x; ys ← map_m f l; mret (y :: ys)
  end.

Fixpoint map_o {A B} (f : A → outcome B) (l : list A) : outcome (list B) :=
  match l with
  | [] => Ok []
  | x :: l => y ← f x; ys ← map_o f l; Ok (y :: ys)
  end.

(** [MCTSNode.__init__]: allocates the node and returns its reference. *)
Definition MCTSNode__init__ (st : option State) (act : option Action)
    (par : option nat) (fr : R) (frd : Details) (term : bool) : M nat :=
  d ← match par with
      | None => mret 0
      | Some p => pn ← deref p; mret (depth pn + 1)
      end;
  alloc (mkNode st act par fr fr frd term None 0 0%R d).

(** ** Collaborator interfaces

    [WorldModel.is_terminal], [SearchConfig.fast_reward] and
    [SearchConfig.reward] carry a prefix, the plain names being attributes of
    [MCTSNode].  [step] and [reward] receive [node.parent.state] and
    [node.action] as the engine passes them, without a check for [None]. *)

Record WorldModel := mkWorldModel {
  init_state : World → option (State * World);
  step : option State → option Action → World → option ((State * Aux) * World);
  wm_is_terminal : State → World → option (bool * World)
}.

Record SearchConfig := mkSearchConfig {
  get_actions : State → World → option (list Action * World);
  sc_fast_reward : State → Action → World → option ((R * Details) * World);
  sc_reward : option State → option Action → Details → Aux → World →
              option ((R * Details) * World)
}.

(** ** class MCTSAggregation *)

Record MCTSAggregation := mkAggregation {
  retrieve_answer : State → option Answer;
  weight_policy : string
}.


(** [defaultdict] as an insertion-ordered association list. *)
Fixpoint dict_update {V} (dflt : V) (f : V → V) (k : Answer)
    (d : list (Answer * V)) : list (Answer * V) :=
  match d with
  | [] => [(k, f dflt)]
  | (k', v) :: d =>
      if decide (k = k') then (k', f v) :: d
      else (k', v) :: dict_update dflt f k d
  end.

Fixpoint dict_get {V} (k : Answer) (d : list (Answer * V)) : option V :=
  match d with
  | [] => None
  | (k', v) :: d => if decide (k = k') then Some v else dict_get k d
  end.

(** [float / int] in Python. *)
Definition py_div_int (x : R) (d : nat) : outcome R :=
  if decide (d = 0) then Raise ZeroDivisionError else Ok (x / INR d)%R.

Definition add_to (x : R) (v : R) : R := (v + x)%R.

(** The inner function [visit]; [answer_dict] is threaded explicitly. *)
Fixpoint visit (fuel : nat) (self : MCTSAggregation) (σ : list MCTSNode)
    (cur : nat) (answer_dict : list (Answer * R))
    : outcome (list (Answer * nat) * list (Answer * R)) :=
  match fuel with
  | 0 => OutOfFuel
  | S fuel =>
      nd ← deref_in σ cur;
      match state nd with
      | None => Ok ([], answer_dict)
      | Some s =>
          if is_terminal nd then
            match retrieve_answer self s with
            | None => Ok ([], answer_dict)
            | Some answer =>
                d ← (if decide (weight_policy self = "edge") then
                       Ok (dict_update 0%R (add_to (reward nd)) answer answer_dict)
                     else if decide (weight_policy self = "edge_inverse_depth") then
                       w ← py_div_int (reward nd) (depth nd);
                       Ok (dict_update 0%R (add_to w) answer answer_dict)
                     else if decide (weight_policy self = "uniform") then
                       Ok (dict_update 0%R (add_to 1%R) answer answer_dict)
                     else Ok answer_dict);
                Ok ([(answer, depth nd)], d)
            end
          else
            match children nd with
            | None => Raise TypeError
            | Some cs =>
                '(cur_list, depth_list, d) ←
                  foldl (fun acc child =>
                           '(cur_list, depth_list, d) ← acc;
                           '(child_info, d) ← visit fuel self σ child d;
                           Ok (cur_list ++ child_info,
                               foldl (fun dl '(answer, dep) =>
                                        dict_update [] (fun ds => ds ++ [dep]) answer dl)
                                     depth_list child_info,
                               d))
                        (Ok ([], [], answer_dict)) cs;
                let d :=
                  foldl (fun d '(answer, depths) =>
                           if decide (weight_policy self = "edge") then
                             dict_update 0%R (add_to (reward nd)) answer d
                           else if decide (weight_policy self = "edge_inverse_depth") then
                             dict_update 0%R (add_to (reward nd / np_mean depths)) answer d
                           else d)
                        d depth_list in
                Ok (cur_list, d)
            end
      end
  end.

Definition MCTSAggregation__call__ (fuel : nat) (self : MCTSAggregation)
    (σ : list MCTSNode) (tree_state : nat) : outcome (option Answer) :=
  '(_, answer_dict) ← visit fuel self σ tree_state [];
  if decide (length answer_dict = 0) then Ok None
  else
    a ← py_max_key (fun answer =>
                      match dict_get answer answer_dict with
                      | Some v => Ok (Fin v)
                      | None => Raise DanglingRef
                      end) (answer_dict.*1);
    Ok (Some a).

(** ** class MCTS *)

(** A Python value that is either a function from a list of floats to an
    index, or a string (which cannot be called). *)
Inductive py_choice :=
| PyFn (f : list R → World → outcome (Z * World))
| PyStr (s : string).

(** [np.random.choice(n)] and [np.random.choice(n, p=p)]. *)
Variable np_random_choice : nat → option (list R) → World → outcome (Z * World).

Record MCTS := mkMCTS {
  world_model : option WorldModel;
  search_config : option SearchConfig;
  output_trace_in_each_iter : bool;
  w_exp : R;
  depth_limit : Z;
  n_iters : Z;
  cum_reward : list R → float;
  simulate_choice : py_choice;
  output_strategy : string;
  uct_with_fast_reward : bool;
  _output_iter : option (list nat);
  _output_cum_reward : float;
  trace_in_each_iter : option (list (list MCTSNode));
  root : option nat;
  aggregator : option MCTSAggregation
}.

Definition set_collaborators (wm : WorldModel) (sc : SearchConfig)
    (self : MCTS) : MCTS :=
  mkMCTS (Some wm) (Some sc) (output_trace_in_each_iter self)
    (w_exp self) (depth_limit self) (n_iters self) (cum_reward self)
    (simulate_choice self) (output_strategy self) (uct_with_fast_reward self)
    (_output_iter self) (_output_cum_reward self) (trace_in_each_iter self)
    (root self) (aggregator self).

Definition set_output (cum : float) (it : option (list nat)) (self : MCTS) : MCTS :=
  mkMCTS (world_model self) (search_config self) (output_trace_in_each_iter self)
    (w_exp self) (depth_limit self) (n_iters self) (cum_reward self)
    (simulate_choice self) (output_strategy self) (uct_with_fast_reward self)
    it cum (trace_in_each_iter self) (root self) (aggregator self).

Definition set_root (r : option nat) (self : MCTS) : MCTS :=
  mkMCTS (world_model self) (search_config self) (output_trace_in_each_iter self)
    (w_exp self) (depth_limit self) (n_iters self) (cum_reward self)
    (simulate_choice self) (output_strategy self) (uct_with_fast_reward self)
    (_output_iter self) (_output_cum_reward self) (trace_in_each_iter self)
    r (aggregator self).

Definition set_trace_in_each_iter (t : option (list (list MCTSNode)))
    (self : MCTS) : MCTS :=
  mkMCTS (world_model self) (search_config self) (output_trace_in_each_iter self)
    (w_exp self) (depth_limit self) (n_iters self) (cum_reward self)
    (simulate_choice self) (output_strategy self) (uct_with_fast_reward self)
    (_output_iter self) (_output_cum_reward self) t (root self) (aggregator self).

(** The dictionary [default_simulate_strategies]. *)
Definition default_simulate_strategies (name : string) : option py_choice :=
  if decide (name = "max") then
    Some (PyFn (fun x w => i ← np_argmax x; Ok (i, w)))
  else if decide (name = "sample") then
    Some (PyFn (fun x => np_random_choice (length x) (Some x)))
  else if decide (name = "random") then
    Some (PyFn (fun x => np_random_choice (length x) None))
  else None.

(** [default_simulate_strategies.get(simulate_strategy, simulate_strategy)]:
    a callable is never a key of the dictionary. *)
Definition get_simulate_choice (simulate_strategy : py_choice) : py_choice :=
  match simulate_strategy with
  | PyStr name => default (PyStr name) (default_simulate_strategies name)
  | PyFn f => PyFn f
  end.

Definition output_strategies : list string :=
  ["max_reward"; "follow_max"; "max_visit"; "max_iter"; "last_iter";
   "last_terminal_iter"].

Definition MCTS__init__ (output_trace_in_each_iter : bool) (w_exp : R)
    (depth_limit n_iters : Z) (cum_reward : list R → float)
    (simulate_strategy : py_choice) (output_strategy : string)
    (uct_with_fast_reward : bool) (aggregator : option MCTSAggregation)
    : outcome MCTS :=
  let simulate_choice := get_simulate_choice simulate_strategy in
  if bool_decide (output_strategy ∈ output_strategies) then
    Ok (mkMCTS None None output_trace_in_each_iter w_exp depth_limit n_iters
          cum_reward simulate_choice output_strategy uct_with_fast_reward
          None NegInf None None aggregator)
  else Raise AssertionError.

Definition call_choice (c : py_choice) (x : list R) : M Z :=
  match c with
  | PyStr _ => raise TypeError
  | PyFn f => fun m =>
      match f x (world m) with
      | Ok (i, w) => Ok (i, mkMachine (heap m) w)
      | Raise e => Raise e
      | OutOfFuel => OutOfFuel
      end
  end.

Definition _is_terminal_with_depth_limit (self : MCTS) (node : MCTSNode) : bool :=
  is_terminal node || bool_decide (Z.of_nat (depth node) >= depth_limit self)%Z.

Definition _uct (self : MCTS) (σ : list MCTSNode) (node : nat) : outcome R :=
  nd ← deref_in σ node;
  match parent nd with
  | None => Raise AttributeError
  | Some p =>
      pn ← deref_in σ p;
      l ← math_log (N pn);
      s ← math_sqrt (l / INR (1 + N nd));
      Ok (Q nd + w_exp self * s)%R
  end.

(** The [for] loop of [_uct_select]: the first child with [N == 0]. *)
Fixpoint first_unvisited (σ : list MCTSNode) (cs : list nat)
    : outcome (option nat) :=
  match cs with
  | [] => Ok None
  | child :: cs =>
      cn ← deref_in σ child;
      if decide (N cn = 0) then Ok (Some child) else first_unvisited σ cs
  end.

Definition _uct_select (self : MCTS) (σ : list MCTSNode) (node : nat)
    : outcome nat :=
  nd ← deref_in σ node;
  match children nd with
  | None => Raise TypeError
  | Some cs =>
      u ← first_unvisited σ cs;
      match u with
      | Some child => Ok child
      | None => py_max_key (fun c => Fin <$> _uct self σ c) cs
      end
  end.

Fixpoint _select_loop (fuel : nat) (self : MCTS) (path : list nat) (node : nat)
    : M (list nat) :=
  match fuel with
  | 0 => out_of_fuel
  | S fuel =>
      let path := path ++ [node] in
      nd ← deref node;
      if bool_decide (children nd = None)
         || bool_decide (length (default [] (children nd)) = 0)
         || _is_terminal_with_depth_limit self nd
      then mret path
      else
        σ ← get_heap;
        node ← lift (_uct_select self σ node);
        wm ← py_attr (world_model self);
        nd ← deref node;
        p ← py_attr (parent nd);
        pn ← deref p;
        _ ← await (step wm (state pn) (action nd));
        _select_loop fuel self path node
  end.

Definition _select (fuel : nat) (self : MCTS) (node : nat) : M (list nat) :=
  _select_loop fuel self [] node.

(** The [for action in actions] loop of [_expand]. *)
Fixpoint new_children (sc : SearchConfig) (node : nat) (s : State)
    (actions : list Action) : M (list nat) :=
  match actions with
  | [] => mret []
  | a :: actions =>
      '(fr, frd) ← await (sc_fast_reward sc s a);
      child ← MCTSNode__init__ None (Some a) (Some node) fr frd false;
      rest ← new_children sc node s actions;
      mret (child :: rest)
  end.

Definition _expand (self : MCTS) (node : nat) : M unit :=
  nd ← deref node;
  s ← match state nd with
      | Some s => mret s
      | None =>
          wm ← py_attr (world_model self);
          p ← py_attr (parent nd);
          pn ← deref p;
          '(s, aux) ← await (step wm (state pn) (action nd));
          _ ← modify node (set_state (Some s));
          sc ← py_attr (search_config self);
          '(r, _) ← await (sc_reward sc (state pn) (action nd)
                             (fast_reward_details nd) aux);
          _ ← modify node (set_reward r);
          t ← await (wm_is_terminal wm s);
          _ ← modify node (set_is_terminal t);
          mret s
      end;
  nd ← deref node;
  if is_terminal nd then mret tt
  else
    sc ← py_attr (search_config self);
    actions ← await (get_actions sc s);
    cs ← new_children sc node s actions;
    modify node (set_children (Some cs)).

Fixpoint _simulate_loop (fuel : nat) (self : MCTS) (path : list nat) (node : nat)
    : M (list nat) :=
  match fuel with
  | 0 => out_of_fuel
  | S fuel =>
      nd ← deref node;
      _ ← (if bool_decide (state nd = None) then _expand self node else mret tt);
      nd ← deref node;
      if _is_terminal_with_depth_limit self nd then mret path
      else
        match children nd with
        | None => raise TypeError
        | Some cs =>
            if bool_decide (length cs = 0) then mret path
            else
              fast_rewards ← map_m (fun c => cn ← deref c; mret (fast_reward cn)) cs;
              i ← call_choice (simulate_choice self) fast_rewards;
              node ← lift (py_index cs i);
              _simulate_loop fuel self (path ++ [node]) node
        end
  end.

Definition _simulate (fuel : nat) (self : MCTS) (path : list nat) : M (list nat) :=
  node ← lift (py_last path);
  _simulate_loop fuel self path node.

Definition _back_propagate (path : list nat) : M R :=
  leaf ← lift (py_last path);
  ln ← deref leaf;
  let reward := reward ln in
  _ ← for_each (reverse path) (fun node =>
         nd ← deref node;
         _ ← modify node (set_Q ((Q nd * INR (N nd) + reward) / INR (N nd + 1))%R);
         modify node (fun nd => set_N (N nd + 1) nd));
  first ← lift (py_first path);
  fn ← deref first;
  mret (Q fn).

(** [iterate] returns the path; the local [cum_reward] is returned as well
    so that statements can refer to it. *)
Definition iterate (fuel : nat) (self : MCTS) (node : nat)
    : M (list nat * R * MCTS) :=
  path ← _select fuel self node;
  tail ← lift (py_last path);
  tn ← deref tail;
  path ← (if negb (_is_terminal_with_depth_limit self tn) then
            _ ← _expand self tail;
            _simulate fuel self path
          else mret path);
  cum ← _back_propagate path;
  tail ← lift (py_last path);
  tn ← deref tail;
  let self :=
    if bool_decide (output_strategy self = "max_iter")
       && is_terminal tn
       && float_gt (Fin cum) (_output_cum_reward self)
    then set_output (Fin cum) (Some path) self else self in
  let self :=
    if bool_decide (output_strategy self = "last_iter")
    then set_output (Fin cum) (Some path) self else self in
  let self :=
    if bool_decide (output_strategy self = "last_terminal_iter") && is_terminal tn
    then set_output (Fin cum) (Some path) self else self in
  mret (path, cum, self).

Fixpoint _dfs_max_reward (fuel : nat) (self : MCTS) (σ : list MCTSNode)
    (path : list nat) : outcome (float * list nat) :=
  match fuel with
  | 0 => OutOfFuel
  | S fuel =>
      cur ← py_last path;
      cn ← deref_in σ cur;
      if is_terminal cn then
        rewards ← map_o (fun i => reward <$> deref_in σ i) (py_tail path);
        Ok (cum_reward self rewards, path)
      else
        match children cn with
        | None => Ok (NegInf, path)
        | Some cs =>
            nodes ← map_o (fun x => xn ← deref_in σ x; Ok (x, xn)) cs;
            let visited_children :=
              (filter (fun x => state x.2 ≠ None) nodes).*1 in
            if bool_decide (length visited_children = 0) then Ok (NegInf, path)
            else
              results ← map_o (fun child => _dfs_max_reward fuel self σ (path ++ [child]))
                              visited_children;
              py_max_key (fun x => Ok x.1) results
        end
  end.

(** The [while True] loop of the [follow_max] strategy. *)
Fixpoint follow_max_loop (fuel : nat) (σ : list MCTSNode) (out : list nat)
    (cur : nat) : outcome (list nat) :=
  match fuel with
  | 0 => OutOfFuel
  | S fuel =>
      let out := out ++ [cur] in
      cn ← deref_in σ cur;
      if is_terminal cn then Ok out
      else
        match children cn with
        | None => Raise TypeError
        | Some cs =>
            nodes ← map_o (fun x => xn ← deref_in σ x; Ok (x, xn)) cs;
            let visited_children :=
              (filter (fun x => state x.2 ≠ None) nodes).*1 in
            if bool_decide (length visited_children = 0) then Ok out
            else
              cur ← py_max_key (fun x => (fun xn => Fin (reward xn)) <$> deref_in σ x)
                               visited_children;
              follow_max_loop fuel σ out cur
        end
  end.

(** The [for iter in trange(self.n_iters)] loop of [search]. *)
Fixpoint iterations (fuel : nat) (n : nat) (self : MCTS) (root : nat) : M MCTS :=
  match n with
  | 0 => mret self
  | S n =>
      '(_, _, self) ← iterate fuel self root;
      iterations fuel n self root
  end.

Variable empty_details : Details.

Definition search (fuel : nat) (self : MCTS) : M MCTS :=
  let self := set_output NegInf None self in
  wm ← py_attr (world_model self);
  s0 ← await (init_state wm);
  r ← MCTSNode__init__ (Some s0) None None 0%R empty_details false;
  let self := set_root (Some r) self in
  let self := if output_trace_in_each_iter self
              then set_trace_in_each_iter (Some []) self else self in
  self ← iterations fuel (Z.to_nat (n_iters self)) self r;
  self ← (if bool_decide (output_strategy self = "follow_max") then
            σ ← get_heap;
            out ← lift (follow_max_loop fuel σ [] r);
            rewards ← lift (map_o (fun i => reward <$> deref_in σ i)
                                  (py_slice_1_rev out));
            mret (set_output (cum_reward self rewards) (Some out) self)
          else mret self);
  if bool_decide (output_strategy self = "max_reward") then
    σ ← get_heap;
    '(c, p) ← lift (_dfs_max_reward fuel self σ [r]);
    mret (set_output c (if is_neg_inf c then None else Some p) self)
  else mret self.

(** ** MCTSResult *)

Record MCTSResult := mkResult {
  terminal_state : option State;
  res_cum_reward : float;
  trace : option (list (option State) * list (option Action));
  trace_of_nodes : option (list nat);
  tree_state : option nat;
  res_trace_in_each_iter : option (list (list MCTSNode));
  tree_state_after_each_iter : option (list MCTSNode);
  aggregated_result : option Answer
}.

(** [MCTSNode.reset_id()]: numbering restarts at 0.  The nodes of an earlier
    search cannot be reached from the root that [search] creates next, so the
    heap restarts empty. *)
Definition reset_id : M unit := fun m => Ok (tt, mkMachine [] (world m)).

Definition MCTS__call__ (fuel : nat) (self : MCTS) (wm : WorldModel)
    (sc : SearchConfig) : M (MCTSResult * MCTS) :=
  _ ← reset_id;
  let self := set_collaborators wm sc self in
  self ← search fuel self;
  σ ← get_heap;
  '(terminal_state, trace) ←
    match _output_iter self with
    | None => mret (None, None)
    | Some it =>
        tail ← lift (py_last it);
        tn ← deref tail;
        states ← lift (map_o (fun i => state <$> deref_in σ i) it);
        actions ← lift (map_o (fun i => action <$> deref_in σ i) (py_tail it));
        mret (state tn, Some (states, actions))
    end;
  '(tiei, tsaei) ←
    (if output_trace_in_each_iter self then
       match trace_in_each_iter self with
       | None => raise TypeError
       | Some traces =>
           firsts ← lift (map_o py_first traces);
           mret (Some traces, Some firsts)
       end
     else mret (None, None));
  agg ← match aggregator self with
        | None => mret None
        | Some a =>
            r ← py_attr (root self);
            lift (MCTSAggregation__call__ fuel a σ r)
        end;
  mret (mkResult terminal_state (_output_cum_reward self) trace
          (_output_iter self) (root self) tiei tsaei agg, self).

(** ** Vocabulary of the specification *)

(** What one back-propagation does to a node, in the words of the
    specification: [Q ← (Q·N + r) / (N + 1)] followed by [N ← N + 1]. *)
Definition back_propagated (r : R) (nd : MCTSNode) : MCTSNode :=
  set_N (N nd + 1) (set_Q ((Q nd * INR (N nd) + r) / (INR (N nd) + 1))%R nd).

Definition mean (rs : list R) : R :=
  if decide (length rs = 0) then 0%R
  else (fold_right Rplus 0 rs / INR (length rs))%R.

(** [rs] are the leaf rewards of the back-propagations that went through
    the node so far. *)
Definition tracks_mean (rs : list R) (nd : MCTSNode) : Prop :=
  N nd = length rs ∧ Q nd = mean rs.

(** The UCB1 score of child [c] under parent [p]. *)
Definition uct_value (self : MCTS) (p c : MCTSNode) : R :=
  (Q c + w_exp self * sqrt (ln (INR (N p)) / (1 + INR (N c))))%R.

(** What [MCTSNode.__init__] establishes for the [depth] attribute. *)
Definition depth_consistent (σ : list MCTSNode) (nd : MCTSNode) : Prop :=
  match parent nd with
  | None => depth nd = 0
  | Some p => ∃ pn, σ !! p = Some pn ∧ depth nd = depth pn + 1
  end.

(** [c] is listed among the children of [p]. *)
Definition is_child (σ : list MCTSNode) (p c : nat) : Prop :=
  ∃ pn cs, σ !! p = Some pn ∧ children pn = Some cs ∧ c ∈ cs.

(** [a :: ext] walks down the tree, one child at a time. *)
Fixpoint descends (σ : list MCTSNode) (a : nat) (ext : list nat) : Prop :=
  match ext with
  | [] => True
  | b :: ext => is_child σ a b ∧ a < b ∧ descends σ b ext
  end.

(** Shape of the heap between two iterations ([pending = []]) and inside an
    iteration, where the nodes of the current path ([pending]) may have been
    expanded but not yet back-propagated. *)
Record heap_inv_upto (pending : list nat) (σ : list MCTSNode) : Prop := {
  inv_root :
    ∃ r, σ !! 0 = Some r ∧ parent r = None ∧ depth r = 0
         ∧ is_Some (state r) ∧ is_terminal r = false;
  inv_links :
    ∀ p c, is_child σ p c →
      ∃ pn cn, σ !! p = Some pn ∧ σ !! c = Some cn
               ∧ parent cn = Some p ∧ depth cn = depth pn + 1 ∧ p < c;
  inv_counts :
    ∀ p c pn cn, is_child σ p c → σ !! p = Some pn → σ !! c = Some cn →
      N cn ≤ N pn;
  inv_expanded :
    ∀ p pn, σ !! p = Some pn → children pn ≠ None →
      (0 < N pn ∨ p ∈ pending) ∧ is_Some (state pn) ∧ is_terminal pn = false
}.

Definition heap_inv (σ : list MCTSNode) : Prop := heap_inv_upto [] σ.

(** The root as [search] creates it. *)
Definition fresh_root (s0 : State) : MCTSNode :=
  mkNode (Some s0) None None 0%R 0%R empty_details false None 0 0%R 0.

(** The machines that iterating from a fresh root can produce. *)
Inductive reachable (fuel : nat) : MCTS → machine → Prop :=
| reachable_fresh self s0 w :
    reachable fuel self (mkMachine [fresh_root s0] w)
| reachable_iterate self m path cum self' m' :
    reachable fuel self m →
    iterate fuel self 0 m = Ok (path, cum, self', m') →
    reachable fuel self' m'.

(** The loop of [search] with a record of what each iteration produced: its
    path, the value its back-propagation returned, and whether the path ends
    in a terminal node. *)
Fixpoint iterations_log (fuel : nat) (n : nat) (self : MCTS) (root : nat)
    : M (list (list nat * R * bool) * MCTS) :=
  match n with
  | 0 => mret ([], self)
  | S n =>
      '(path, cum, self) ← iterate fuel self root;
      tail ← lift (py_last path);
      tn ← deref tail;
      '(log, self) ← iterations_log fuel n self root;
      mret ((path, cum, is_terminal tn) :: log, self)
  end.

(** The state in which [search] enters its loop. *)
Definition search_entry (self : MCTS) : MCTS :=
  let self := set_root (Some 0) (set_output NegInf None self) in
  if output_trace_in_each_iter self
  then set_trace_in_each_iter (Some []) self else self.

(** A path from [a] to a terminal node through resolved nodes. *)
Fixpoint terminal_path (σ : list MCTSNode) (a : nat) (ext : list nat) : Prop :=
  match ext with
  | [] => ∃ an, σ !! a = Some an ∧ is_terminal an = true
  | b :: ext =>
      is_child σ a b
      ∧ (∃ bn, σ !! b = Some bn ∧ state bn ≠ None)
      ∧ terminal_path σ b ext
  end.

(** The rewards of the nodes of a list of references. *)
Definition rewards_of (σ : list MCTSNode) (l : list nat) : list R :=
  omap (fun i => reward <$> σ !! i) l.

(** A child as [_expand] creates it under [p], whose depth is [d]. *)
Definition placeholder_of (p d : nat) (cn : MCTSNode) : Prop :=
  parent cn = Some p ∧ depth cn = d + 1 ∧ N cn = 0
  ∧ children cn = None ∧ state cn = None ∧ is_terminal cn = false.

(** What [_expand] does to the heap: the node is resolved, and unless it is
    terminal it receives freshly allocated children. *)
Definition expand_post (i : nat) (σ σ' : list MCTSNode) : Prop :=
  ∃ nd nd' news,
    σ !! i = Some nd
    ∧ σ' = <[i := nd']> σ ++ news
    ∧ parent nd' = parent nd ∧ depth nd' = depth nd ∧ N nd' = N nd
    ∧ is_Some (state nd')
    ∧ (is_Some (state nd) → is_terminal nd' = is_terminal nd)
    ∧ (if is_terminal nd' then children nd' = children nd ∧ news = []
       else children nd' = Some (seq (length σ) (length news))
            ∧ Forall (placeholder_of i (depth nd)) news).

(** The streaming update of the output candidate at the end of [iterate],
    as a function of what the iteration produced. *)
Definition recorded (self : MCTS) (path : list nat) (cum : R) (terminal : bool)
    : MCTS :=
  let self :=
    if bool_decide (output_strategy self = "max_iter")
       && terminal
       && float_gt (Fin cum) (_output_cum_reward self)
    then set_output (Fin cum) (Some path) self else self in
  let self :=
    if bool_decide (output_strategy self = "last_iter")
    then set_output (Fin cum) (Some path) self else self in
  if bool_decide (output_strategy self = "last_terminal_iter") && terminal
  then set_output (Fin cum) (Some path) self else self.

(** The engine differs from [self0] only in its output candidate. *)
Definition same_config (self0 self : MCTS) : Prop :=
  ∃ c it, self = set_output c it self0.

(** No node lies deeper than one level below the depth limit [L]. *)
Definition depth_bounded (L : nat) (σ : list MCTSNode) : Prop :=
  ∀ i nd, σ !! i = Some nd → depth nd ≤ L + 1.

(** The strategy, when it is a function, returns or raises. *)
Definition choice_halts (c : py_choice) : Prop :=
  match c with
  | PyFn f => ∀ x w, f x w ≠ OutOfFuel
  | PyStr _ => True
  end.

End Engine.

(** * Further vocabulary: how the tree changes *)

Section Growth.

Context {State Action Details : Type}.

(** The attributes of a node that the engine never changes once they are
    set: its place in the tree, what its constructor received, what
    [_expand] resolved, and a non-empty list of children. *)
Definition keeps (nd nd' : @MCTSNode State Action Details) : Prop :=
  parent nd' = parent nd ∧ action nd' = action nd ∧ depth nd' = depth nd
  ∧ fast_reward nd' = fast_reward nd
  ∧ (is_Some (state nd) →
       state nd' = state nd ∧ reward nd' = reward nd
       ∧ is_terminal nd' = is_terminal nd)
  ∧ (∀ cs, children nd = Some cs → cs ≠ [] → children nd' = Some cs)
  ∧ (children nd ≠ None → children nd' ≠ None).

(** Selection, expansion and simulation: nodes are added and resolved, the
    statistics of the nodes already there stay as they are and the new nodes
    have none. *)
Definition explores (σ σ' : list (@MCTSNode State Action Details)) : Prop :=
  (∀ i nd, σ !! i = Some nd →
     ∃ nd', σ' !! i = Some nd' ∧ keeps nd nd'
            ∧ N nd' = N nd ∧ _Q nd' = _Q nd)
  ∧ (∀ i nd', σ' !! i = Some nd' → length σ ≤ i → N nd' = 0).

(** A whole iteration: as above, and a node is visited at most once more. *)
Definition grows (σ σ' : list (@MCTSNode State Action Details)) : Prop :=
  (∀ i nd, σ !! i = Some nd →
     ∃ nd', σ' !! i = Some nd' ∧ keeps nd nd' ∧ N nd ≤ N nd' ≤ N nd + 1)
  ∧ (∀ i nd', σ' !! i = Some nd' → length σ ≤ i → N nd' ≤ 1).

(** No node lies deeper than one level below the depth limit [L], and the
    nodes of that last level are placeholders: never resolved, never
    visited, never expanded. *)
Definition deep_placeholders (L : nat)
    (σ : list (@MCTSNode State Action Details)) : Prop :=
  ∀ i nd, σ !! i = Some nd →
    depth nd ≤ L + 1
    ∧ (L < depth nd → state nd = None ∧ N nd = 0 ∧ children nd = None).

(** Every node of the list lies within depth [L]. *)
Definition within (L : nat) (σ : list (@MCTSNode State Action Details))
    (l : list nat) : Prop :=
  ∀ i nd, i ∈ l → σ !! i = Some nd → depth nd ≤ L.

(** Only a resolved node is terminal, and a resolved node is terminal or has
    received its list of children; for the latter the root, which is
    resolved by [search] and not by [_expand], is left out. *)
Definition resolved_expanded
    (σ : list (@MCTSNode State Action Details)) : Prop :=
  ∀ i nd, σ !! i = Some nd →
    (is_terminal nd = true → is_Some (state nd))
    ∧ (i ≠ 0 → is_Some (state nd) →
       is_terminal nd = true ∨ children nd ≠ None).

(** The root of a tree that has been visited [k] times and never expanded. *)
Definition visited_root (ed : Details) (s0 : State) (k : nat)
    : @MCTSNode State Action Details :=
  mkNode (Some s0) None None 0%R 0%R ed false None k 0%R 0.

End Growth.

Section Stops.

Context {State Action Details Aux Answer World : Type}.

(** The condition under which the loop of [_select] returns. *)
Definition stops (self : @MCTS State Action Details Aux Answer World)
    (nd : @MCTSNode State Action Details) : Prop :=
  children nd = None ∨ children nd = Some []
  ∨ _is_terminal_with_depth_limit self nd = true.

(** What the descent of [_select] does to the world: for every node it
    moves to, the action of the node is stepped again from the state of its
    parent, and the outcome of the step is dropped. *)
Fixpoint replay (wm : @WorldModel State Action Aux World)
    (σ : list (@MCTSNode State Action Details)) (ext : list nat) (w : World)
    : option World :=
  match ext with
  | [] => Some w
  | c :: ext =>
      cn ← σ !! c;
      p ← parent cn;
      pn ← σ !! p;
      '(_, w') ← step wm (state pn) (action cn) w;
      replay wm σ ext w'
  end.

(** Collaborators that return for every argument. *)
Definition never_fails (wm : @WorldModel State Action Aux World)
    (sc : @SearchConfig State Action Details Aux World) : Prop :=
  (∀ w, is_Some (init_state wm w))
  ∧ (∀ s a w, is_Some (step wm s a w))
  ∧ (∀ s w, is_Some (wm_is_terminal wm s w))
  ∧ (∀ s w, is_Some (get_actions sc s w))
  ∧ (∀ s a w, is_Some (sc_fast_reward sc s a w))
  ∧ (∀ s a d aux w, is_Some (sc_reward sc s a d aux w)).

(** A simulation strategy that is a function and returns, for every list
    that is not empty, an index into the list (as Python reads an index:
    from the end when it is negative). *)
Definition choice_in_range (c : @py_choice World) : Prop :=
  match c with
  | PyFn f =>
      ∀ x w, x ≠ [] →
        ∃ i w', f x w = Ok (i, w')
                ∧ (- Z.of_nat (length x) <= i < Z.of_nat (length x))%Z
  | PyStr _ => False
  end.

End Stops.

Section Answers.

Context {State Action Details Answer : Type}.

(** An answer is found below a node: the node is a resolved terminal node
    whose state yields the answer, or it is resolved, not terminal, and the
    answer is found below one of its children. *)
Inductive reaches_answer (retrieve : State → option Answer)
    (σ : list (@MCTSNode State Action Details)) : nat → Answer → Prop :=
| reaches_here (cur : nat) nd s a :
    σ !! cur = Some nd → state nd = Some s → is_terminal nd = true →
    retrieve s = Some a →
    reaches_answer retrieve σ cur a
| reaches_below (cur : nat) nd s cs (c : nat) a :
    σ !! cur = Some nd → state nd = Some s → is_terminal nd = false →
    children nd = Some cs → c ∈ cs →
    reaches_answer retrieve σ c a →
    reaches_answer retrieve σ cur a.

End Answers.

Section Outputs.

Context {State Action Details : Type}.

(** An output candidate, when there is one, is a path that walks down the
    tree from the root to a resolved terminal node. *)
Definition ends_in_terminal (σ : list (@MCTSNode State Action Details))
    (candidate : option (list nat)) : Prop :=
  match candidate with
  | Some p =>
      ∃ ext (t : nat) tn,
        p = 0 :: ext ∧ descends σ 0 ext ∧ last p = Some t
        ∧ σ !! t = Some tn ∧ is_terminal tn = true ∧ is_Some (state tn)
  | None => True
  end.

(** The greedy descent of the [follow_max] strategy: from a node that is
    not terminal it moves to a resolved child whose reward no other
    resolved child exceeds, and it ends at a terminal node or at a node
    without resolved children. *)
Fixpoint follows_max (σ : list (@MCTSNode State Action Details)) (a : nat)
    (ext : list nat) : Prop :=
  match ext with
  | [] =>
      ∃ an, σ !! a = Some an
            ∧ (is_terminal an = true
               ∨ ∀ c cn, is_child σ a c → σ !! c = Some cn → state cn = None)
  | b :: ext =>
      ∃ an bn,
        σ !! a = Some an ∧ is_terminal an = false
        ∧ is_child σ a b ∧ σ !! b = Some bn ∧ state bn ≠ None
        ∧ (∀ c cn, is_child σ a c → σ !! c = Some cn → state cn ≠ None →
                   (reward cn <= reward bn)%R)
        ∧ follows_max σ b ext
  end.

End Outputs.

(** * Further vocabulary: the iterations of a run *)

Section Runs.

Context {State Action Details Aux Answer World : Type}.

(** Two engines with the same settings for the phases of an iteration. *)
Definition same_settings (a b : @MCTS State Action Details Aux Answer World)
    : Prop :=
  world_model a = world_model b ∧ search_config a = search_config b
  ∧ w_exp a = w_exp b ∧ depth_limit a = depth_limit b
  ∧ simulate_choice a = simulate_choice b.

(** One iteration from the root, phase by phase as [iterate] chains them:
    selection; expansion and simulation, unless the selected node is
    terminal or at the depth limit; back-propagation.  [p] is the path that
    is back-propagated, [c] the value that [_back_propagate] returns for it,
    and [t] tells whether the last node of [p] is terminal. *)
Definition iteration (fuel : nat)
    (self : @MCTS State Action Details Aux Answer World)
    (m : @machine State Action Details World) (p : list nat) (c : R)
    (t : bool) (m' : @machine State Action Details World) : Prop :=
  ∃ path m1 (tail : nat) tn m2 (leaf : nat) ln,
    _select fuel self 0 m = Ok (path, m1)
    ∧ last path = Some tail ∧ heap m1 !! tail = Some tn
    ∧ (if _is_terminal_with_depth_limit self tn then p = path ∧ m2 = m1
       else ∃ m1', _expand self tail m1 = Ok (tt, m1')
                   ∧ _simulate fuel self path m1' = Ok (p, m2))
    ∧ _back_propagate p m2 = Ok (c, m')
    ∧ last p = Some leaf ∧ heap m' !! leaf = Some ln
    ∧ t = is_terminal ln.

(** A sequence of iterations from machine to machine, with the log of what
    each one produced: its path, the value its back-propagation returned,
    and whether the path ends in a terminal node. *)
Inductive iterations_trace (fuel : nat)
    (self : @MCTS State Action Details Aux Answer World)
    : @machine State Action Details World → list (list nat * R * bool) →
      @machine State Action Details World → Prop :=
| trace_done m : iterations_trace fuel self m [] m
| trace_step m p c t m1 log m' :
    iteration fuel self m p c t m1 →
    iterations_trace fuel self m1 log m' →
    iterations_trace fuel self m ((p, c, t) :: log) m'.

End Runs.

(** * A small world for concrete runs

    States are natural numbers; the only action leads from state [s] to
    state [s + 1], costs nothing to estimate ([fast_reward] 1) and is rewarded
    with the number of the state it reaches; state [term_at] is terminal. *)

Module Demo.

Definition wm (term_at : nat)
    : WorldModel (State:=nat) (Action:=nat) (Aux:=unit) (World:=unit) :=
  mkWorldModel
    (fun w => Some (0, w))
    (fun s a w => Some ((default 0 s + 1, tt), w))
    (fun s w => Some (bool_decide (s = term_at), w)).

Definition sc
    : SearchConfig (State:=nat) (Action:=nat) (Details:=unit) (Aux:=unit)
        (World:=unit) :=
  mkSearchConfig
    (fun s w => Some ([0], w))
    (fun s a w => Some ((1%R, tt), w))
    (fun s a d aux w => Some ((INR (default 0 s + 1), tt), w)).

(** [simulate_strategy = lambda x: 0] *)
Definition first_choice : py_choice (World:=unit) :=
  PyFn (fun _ w => Ok (0%Z, w)).

(** A deterministic stand-in for [np.random.choice]. *)
Definition np (n : nat) (p : option (list R)) (w : unit) : outcome (Z * unit) :=
  if decide (n = 0) then Raise ValueError else Ok (0%Z, w).

Definition engine (os : string) (trace : bool) (n : Z)
    : MCTS (State:=nat) (Action:=nat) (Details:=unit) (Aux:=unit)
        (Answer:=nat) (World:=unit) :=
  mkMCTS None None trace 1 5 n py_sum first_choice os true None NegInf None
    None None.

(** The engine once [__call__] has bound the collaborators. *)
Definition bound (os : string) (n : Z) (term_at : nat) :=
  set_collaborators (wm term_at) sc (engine os false n).

Definition run (os : string) (trace : bool) (n : Z) (term_at : nat) :=
  MCTS__call__ tt 10 (engine os trace n) (wm term_at) sc (mkMachine [] tt).

(** A root that is terminal, as a caller of the aggregator may build it. *)
Definition terminal_root : MCTSNode (State:=nat) (Action:=nat) (Details:=unit) :=
  mkNode (Some 0) None None 0 1 tt true None 0 0 0.

Definition by_inverse_depth : MCTSAggregation (State:=nat) (Answer:=nat) :=
  mkAggregation (fun s => Some s) "edge_inverse_depth".

(** A parent visited three times with two visited children. *)
Definition visited_parent
    : MCTSNode (State:=nat) (Action:=nat) (Details:=unit) :=
  mkNode (Some 0) None None 0 0 tt false (Some [1; 2]) 3 1 0.

Definition first_child : MCTSNode (State:=nat) (Action:=nat) (Details:=unit) :=
  mkNode (Some 1) (Some 0) (Some 0) 1 1 tt true None 2 1 1.

Definition family : list (MCTSNode (State:=nat) (Action:=nat) (Details:=unit)) :=
  [visited_parent; first_child;
   mkNode (Some 1) (Some 1) (Some 0) 1 0 tt true None 1 0 1].

(** The same with the second child not visited yet. *)
Definition young_family
    : list (MCTSNode (State:=nat) (Action:=nat) (Details:=unit)) :=
  [mkNode (Some 0) None None 0 0 tt false (Some [1; 2]) 1 1 0;
   mkNode (Some 1) (Some 0) (Some 0) 1 1 tt true None 1 1 1;
   mkNode None (Some 1) (Some 0) 1 1 tt false None 0 0 1].

End Demo.

(** * More concrete data

    An engine whose depth limit is zero, a search configuration that offers
    two actions in every state, an aggregator that counts, and a world that
    forks at the root. *)

Module Sample.

Definition flat (os : string) (n : Z)
    : MCTS (State:=nat) (Action:=nat) (Details:=unit) (Aux:=unit)
        (Answer:=nat) (World:=unit) :=
  mkMCTS None None false 1 0 n py_sum Demo.first_choice os true None NegInf
    None None None.

Definition sc2
    : SearchConfig (State:=nat) (Action:=nat) (Details:=unit) (Aux:=unit)
        (World:=unit) :=
  mkSearchConfig
    (fun s w => Some ([0; 1], w))
    (fun s a w => Some ((1%R, tt), w))
    (fun s a d aux w => Some ((INR (default 0 s + 1), tt), w)).

(** The engine of [Demo] bound to the two-action configuration. *)
Definition wide (os : string) (n : Z) (term_at : nat) :=
  set_collaborators (Demo.wm term_at) sc2 (Demo.engine os false n).

Definition by_count : MCTSAggregation (State:=nat) (Answer:=nat) :=
  mkAggregation (fun s => Some s) "uniform".

(** A world that forks at the root: action [a] leads from state [s] to
    state [s + 1 + a], and state 1 is the only terminal one.  With two
    actions per state the first action of the root ends the episode and the
    second leads into states from which no terminal state is reached. *)
Definition fork
    : WorldModel (State:=nat) (Action:=nat) (Aux:=unit) (World:=unit) :=
  mkWorldModel
    (fun w => Some (0, w))
    (fun s a w => Some ((default 0 s + 1 + default 0 a, tt), w))
    (fun s w => Some (bool_decide (s = 1), w)).

End Sample.

(** * Properties *)

Section Facts.

Context {State Action Details Aux Answer World : Type}.
Context `{!EqDecision Answer}.

Local Abbreviation node := (@MCTSNode State Action Details).
Local Abbreviation mach := (@machine State Action Details World).
Local Abbreviation engine := (@MCTS State Action Details Aux Answer World).
Local Abbreviation aggregation := (@MCTSAggregation State Answer).
Local Abbreviation config := (@SearchConfig State Action Details Aux World).
Local Abbreviation model := (@WorldModel State Action Aux World).

Implicit Types (σ : list node) (m : mach) (self : engine) (nd : node).

Local Arguments INR : simpl never.

(** ** Construction-time validation *)



(** ** Aggregation *)

(** C9.  With [weight_policy = "edge_inverse_depth"], aggregating a tree whose
    root is terminal, has a resolved state and yields an answer raises a
    division-by-zero error: the root has depth 0 and [reward / depth] is
    computed without a guard. *)
Theorem aggregation_terminal_root_divides_by_zero
    (fuel : nat) (self : aggregation) σ (tree_state : nat) nd s a :
  σ !! tree_state = Some nd →
  parent nd = None →
  depth_consistent σ nd →
  state nd = Some s →
  is_terminal nd = true →
  retrieve_answer self s = Some a →
  weight_policy self = "edge_inverse_depth" →
  MCTSAggregation__call__ (S fuel) self σ tree_state = Raise ZeroDivisionError.
Proof.
  intros Hnd Hpar Hdepth Hs Hterm Ha Hpol.
  unfold depth_consistent in Hdepth. rewrite Hpar in Hdepth.
  unfold MCTSAggregation__call__. simpl.
  unfold deref_in. rewrite Hnd. simpl.
  rewrite Hs, Hterm, Ha, Hpol. simpl.
  unfold py_div_int. rewrite Hdepth. simpl. reflexivity.
Qed.

(** ** Python's [max] with a key *)

Lemma float_le_refl a : float_le a a.
Proof. destruct a; simpl; [done|lra]. Qed.

Lemma float_le_trans a b c : float_le a b → float_le b c → float_le a c.
Proof. destruct a, b, c; simpl; try done; lra. Qed.

Lemma float_gt_true a b : float_gt a b = true → float_le b a.
Proof.
  destruct a, b; simpl; try done.
  destruct (Rgt_dec x x0); [lra|done].
Qed.

Lemma float_gt_false a b : float_gt a b = false → float_le a b.
Proof.
  destruct a, b; simpl; try done.
  destruct (Rgt_dec x x0); [done|lra].
Qed.

Lemma py_max_from_spec {A} (key : A → outcome float) (kf : A → float) l :
  ∀ best,
    (∀ x, x ∈ l → key x = Ok (kf x)) →
    ∃ c, py_max_from key best (kf best) l = Ok c
         ∧ (c = best ∨ c ∈ l)
         ∧ float_le (kf best) (kf c)
         ∧ ∀ x, x ∈ l → float_le (kf x) (kf c).
Proof.
  induction l as [|y l IH]; intros best Hkey; simpl.
  - exists best. split_and!; [done|by left|apply float_le_refl|].
    intros x Hx. by apply elem_of_nil in Hx.
  - rewrite (Hkey y) by apply list_elem_of_here. simpl.
    destruct (float_gt (kf y) (kf best)) eqn:Hgt.
    + destruct (IH y) as (c & Hc & Hin & Hle & Hall).
      { intros x Hx. apply Hkey. by apply list_elem_of_further. }
      exists c. split_and!; [done| |..].
      * right. destruct Hin as [->|Hin];
          [apply list_elem_of_here|by apply list_elem_of_further].
      * eapply float_le_trans; [by apply float_gt_true|done].
      * intros x [->|Hx]%elem_of_cons; auto.
    + destruct (IH best) as (c & Hc & Hin & Hle & Hall).
      { intros x Hx. apply Hkey. by apply list_elem_of_further. }
      exists c. split_and!; [done| |done|].
      * destruct Hin as [->|Hin]; [by left|right; by apply list_elem_of_further].
      * intros x [->|Hx]%elem_of_cons; auto.
        eapply float_le_trans; [by apply float_gt_false|done].
Qed.

Lemma py_max_key_spec {A} (key : A → outcome float) (kf : A → float) l :
  l ≠ [] →
  (∀ x, x ∈ l → key x = Ok (kf x)) →
  ∃ c, py_max_key key l = Ok c ∧ c ∈ l ∧ ∀ x, x ∈ l → float_le (kf x) (kf c).
Proof.
  destruct l as [|y l]; [done|]. intros _ Hkey. simpl.
  rewrite (Hkey y) by apply list_elem_of_here. simpl.
  destruct (py_max_from_spec key kf l y) as (c & Hc & Hin & Hle & Hall).
  { intros x Hx. apply Hkey. by apply list_elem_of_further. }
  exists c. split_and!; [done| |].
  - destruct Hin as [->|Hin];
      [apply list_elem_of_here|by apply list_elem_of_further].
  - intros x [->|Hx]%elem_of_cons; auto.
Qed.

Lemma py_max_from_ext {A} (key key' : A → outcome float) l :
  (∀ x, x ∈ l → key x = key' x) →
  ∀ best kbest, py_max_from key best kbest l = py_max_from key' best kbest l.
Proof.
  induction l as [|y l IH]; intros Hkey best kbest; simpl; [done|].
  rewrite (Hkey y) by apply list_elem_of_here.
  destruct (key' y) as [k| |]; simpl; try done.
  destruct (float_gt k kbest); apply IH;
    intros x Hx; apply Hkey; by apply list_elem_of_further.
Qed.

Lemma py_max_key_ext {A} (key key' : A → outcome float) l :
  (∀ x, x ∈ l → key x = key' x) → py_max_key key l = py_max_key key' l.
Proof.
  destruct l as [|y l]; [done|]. intros Hkey. simpl.
  rewrite (Hkey y) by apply list_elem_of_here.
  destruct (key' y) as [k| |]; simpl; try done.
  apply py_max_from_ext. intros x Hx. apply Hkey. by apply list_elem_of_further.
Qed.

(** ** Selection *)

Lemma first_unvisited_found σ (cs : list nat) :
  ∀ i c cn,
    cs !! i = Some c → σ !! c = Some cn → N cn = 0 →
    (∀ j c', j < i → cs !! j = Some c' → ∃ cn', σ !! c' = Some cn' ∧ N cn' ≠ 0) →
    first_unvisited σ cs = Ok (Some c).
Proof.
  induction cs as [|c0 cs IH]; intros i c cn Hi Hc HN Hbefore; [done|].
  destruct i as [|i]; simpl in *.
  - simplify_eq. unfold deref_in. rewrite Hc. simpl. by rewrite decide_True.
  - destruct (Hbefore 0 c0) as (cn0 & Hc0 & HN0); [lia|done|].
    unfold deref_in. rewrite Hc0. simpl. rewrite decide_False by done.
    eapply IH; eauto. intros j c' Hj Hc'. apply (Hbefore (S j)); [lia|done].
Qed.

Lemma first_unvisited_none σ (cs : list nat) :
  (∀ c, c ∈ cs → ∃ cn, σ !! c = Some cn ∧ N cn ≠ 0) →
  first_unvisited σ cs = Ok None.
Proof.
  induction cs as [|c0 cs IH]; intros Hall; [done|]. simpl.
  destruct (Hall c0) as (cn0 & Hc0 & HN0); [apply list_elem_of_here|].
  unfold deref_in. rewrite Hc0. simpl. rewrite decide_False by done.
  apply IH. intros c Hc. apply Hall. by apply list_elem_of_further.
Qed.

Lemma ln_INR_nonneg (n : nat) : 0 < n → (0 <= ln (INR n))%R.
Proof.
  intros Hn. assert (1 <= INR n)%R as H1.
  { replace 1%R with (INR 1) by done. apply le_INR. lia. }
  destruct (Req_dec (INR n) 1) as [->|Hne]; [rewrite ln_1; lra|].
  left. rewrite <- ln_1. apply ln_increasing; lra.
Qed.

Lemma _uct_defined self σ (c p : nat) cn pn :
  σ !! c = Some cn → parent cn = Some p → σ !! p = Some pn → 0 < N pn →
  _uct self σ c = Ok (uct_value self pn cn).
Proof.
  intros Hc Hpar Hp HN. unfold _uct, deref_in. rewrite Hc. simpl.
  rewrite Hpar, Hp. simpl. unfold math_log.
  rewrite decide_False by lia. simpl. unfold math_sqrt.
  assert (INR (S (N cn)) = 1 + INR (N cn))%R as -> by (rewrite S_INR; lra).
  assert (0 <= INR (N cn))%R as Hpos by apply pos_INR.
  destruct (Rlt_dec _ _) as [Hneg|_]; [|done].
  exfalso. pose proof (ln_INR_nonneg (N pn) HN) as Hln.
  apply (Rlt_not_le _ _ Hneg).
  apply Rmult_le_pos; [done|]. left. apply Rinv_0_lt_compat. lra.
Qed.

Lemma first_unvisited_None σ (cs : list nat) :
  first_unvisited σ cs = Ok None →
  ∀ c cn, c ∈ cs → σ !! c = Some cn → N cn ≠ 0.
Proof.
  induction cs as [|c0 cs IH]; simpl.
  - intros _ c cn Hc. by apply elem_of_nil in Hc.
  - unfold deref_in. destruct (σ !! c0) as [cn0|] eqn:Hc0; [|done]. simpl.
    case_decide as HN; [done|].
    intros H c cn [->|Hc]%elem_of_cons Hcn; [congruence|by eapply IH].
Qed.

(** The UCB1 branch of [_uct_select]. *)
Lemma _uct_select_ucb1 self σ (p : nat) pn (cs : list nat) :
  σ !! p = Some pn →
  children pn = Some cs →
  cs ≠ [] →
  (∀ c, c ∈ cs → ∃ cn, σ !! c = Some cn ∧ parent cn = Some p) →
  (∀ c cn, c ∈ cs → σ !! c = Some cn → N cn ≠ 0) →
  0 < N pn →
  ∃ c cn,
    _uct_select self σ p = Ok c ∧ c ∈ cs ∧ σ !! c = Some cn
    ∧ ∀ c' cn', c' ∈ cs → σ !! c' = Some cn' →
                (uct_value self pn cn' <= uct_value self pn cn)%R.
Proof.
  intros Hp Hcs Hne Hwf Hvisited HN.
  unfold _uct_select, deref_in. rewrite Hp. simpl. rewrite Hcs.
  rewrite first_unvisited_none; cycle 1.
  { intros c Hc. destruct (Hwf c Hc) as (cn & Hcn & _). eauto. }
  simpl.
  set (kf := fun c => match σ !! c with
                      | Some cn => Fin (uct_value self pn cn)
                      | None => NegInf
                      end).
  destruct (py_max_key_spec (fun c => Fin <$> _uct self σ c) kf cs Hne)
    as (c & Hsel & Hin & Hmax).
  { intros c Hc. destruct (Hwf c Hc) as (cn & Hcn & Hpar).
    erewrite _uct_defined by eauto. unfold kf. by rewrite Hcn. }
  destruct (Hwf c Hin) as (cn & Hcn & _).
  exists c, cn. split_and!; [done..|].
  intros c' cn' Hin' Hcn'. specialize (Hmax c' Hin').
  unfold kf in Hmax. by rewrite Hcn, Hcn' in Hmax.
Qed.

(** C2.  For a node with a non-empty children list, [_uct_select] returns the
    first child in insertion order whose [N] is 0 when there is one;
    otherwise (the parent then having been visited, so that the logarithm is
    defined) it returns a child that maximises
    [Q + w_exp * sqrt (ln parent.N / (1 + N))].  The result depends on the
    engine only through [w_exp], hence not on [uct_with_fast_reward]. *)
Theorem uct_select_spec self σ (p : nat) pn (cs : list nat) :
  σ !! p = Some pn →
  children pn = Some cs →
  cs ≠ [] →
  (∀ c, c ∈ cs → ∃ cn, σ !! c = Some cn ∧ parent cn = Some p) →
  (∀ i c cn,
     cs !! i = Some c → σ !! c = Some cn → N cn = 0 →
     (∀ j c' cn', j < i → cs !! j = Some c' → σ !! c' = Some cn' → N cn' ≠ 0) →
     _uct_select self σ p = Ok c)
  ∧ ((∀ c cn, c ∈ cs → σ !! c = Some cn → N cn ≠ 0) →
     0 < N pn →
     ∃ c cn,
       _uct_select self σ p = Ok c ∧ c ∈ cs ∧ σ !! c = Some cn
       ∧ ∀ c' cn', c' ∈ cs → σ !! c' = Some cn' →
                   (uct_value self pn cn' <= uct_value self pn cn)%R)
  ∧ (∀ self' : engine,
       w_exp self' = w_exp self →
       _uct_select self' σ p = _uct_select self σ p).
Proof.
  intros Hp Hcs Hne Hwf. split_and!.
  - intros i c cn Hi Hc HN Hbefore.
    unfold _uct_select, deref_in. rewrite Hp. simpl. rewrite Hcs.
    erewrite first_unvisited_found; eauto.
    intros j c' Hj Hc'.
    destruct (Hwf c') as (cn' & Hcn' & _); [by eapply list_elem_of_lookup_2|].
    exists cn'. split; [done|]. eapply Hbefore; eauto.
  - intros Hvisited HN. by eapply _uct_select_ucb1.
  - intros self' Hw. unfold _uct_select.
    destruct (deref_in σ p) as [nd| |]; simpl; try done.
    destruct (children nd) as [cs'|]; [|done].
    destruct (first_unvisited σ cs') as [[c|]| |]; simpl; try done.
    apply py_max_key_ext. intros c _. unfold _uct. by rewrite Hw.
Qed.

(** ** Running programs of the machine monad *)

Lemma bind_Ok {A B} (c : M A) (f : A → M B) m (b : B) m' :
  (c ≫= f) m = Ok (b, m') ↔ ∃ a m1, c m = Ok (a, m1) ∧ f a m1 = Ok (b, m').
Proof.
  unfold mbind, M_bind. split.
  - destruct (c m) as [[a m1]| |]; [|done..]. eauto.
  - intros (a & m1 & -> & ?). done.
Qed.

Lemma bind_run {A B} (c : M A) (f : A → M B) m a m1 :
  c m = Ok (a, m1) → (c ≫= f) m = f a m1.
Proof. unfold mbind, M_bind. by intros ->. Qed.

Lemma deref_run (i : nat) m nd :
  heap m !! i = Some nd → deref i m = Ok (nd, m).
Proof. unfold deref. by intros ->. Qed.

Lemma deref_Ok (i : nat) m nd m' :
  deref i m = Ok (nd, m') ↔ heap m !! i = Some nd ∧ m' = m.
Proof.
  unfold deref. destruct (heap m !! i); split; intros H;
    destruct_and?; simplify_eq; done.
Qed.

Lemma modify_run (i : nat) (f : node → node) m nd :
  heap m !! i = Some nd →
  modify i f m = Ok (tt, mkMachine (<[i := f nd]> (heap m)) (world m)).
Proof. unfold modify. by intros ->. Qed.

Lemma modify_Ok (i : nat) (f : node → node) m (u : unit) m' :
  modify i f m = Ok (u, m') ↔
  ∃ nd, heap m !! i = Some nd
        ∧ m' = mkMachine (<[i := f nd]> (heap m)) (world m).
Proof.
  unfold modify. destruct (heap m !! i) as [nd|]; split.
  - intros [= <-]. eauto.
  - intros (? & [= <-] & ->). by destruct u.
  - done.
  - by intros (? & ? & _).
Qed.

(** ** Back-propagation *)

Lemma back_propagated_eq (r : R) nd :
  set_N (N nd + 1) (set_Q ((Q nd * INR (N nd) + r) / INR (N nd + 1))%R nd)
  = back_propagated r nd.
Proof. unfold back_propagated. rewrite plus_INR. done. Qed.

Lemma back_propagate_step (r : R) (i : nat) nd m :
  heap m !! i = Some nd →
  (nd ← deref i;
   _ ← modify i (set_Q ((Q nd * INR (N nd) + r) / INR (N nd + 1))%R);
   modify i (fun nd => set_N (N nd + 1) nd)) m
  = Ok (tt, mkMachine (<[i := back_propagated r nd]> (heap m)) (world m)).
Proof.
  intros Hi. assert (i < length (heap m)) by by eapply lookup_lt_Some.
  erewrite bind_run by by apply deref_run.
  erewrite bind_run by by apply modify_run.
  erewrite modify_run; cycle 1.
  { simpl. by apply list_lookup_insert_eq. }
  simpl. rewrite list_insert_insert_eq.
  by rewrite <- back_propagated_eq.
Qed.

Lemma back_propagate_loop (r : R) (l : list nat) :
  ∀ m,
    NoDup l →
    (∀ i, i ∈ l → is_Some (heap m !! i)) →
    ∃ σ',
      for_each l (fun i =>
        nd ← deref i;
        _ ← modify i (set_Q ((Q nd * INR (N nd) + r) / INR (N nd + 1))%R);
        modify i (fun nd => set_N (N nd + 1) nd)) m
      = Ok (tt, mkMachine σ' (world m))
      ∧ (∀ i nd, i ∈ l → heap m !! i = Some nd →
                 σ' !! i = Some (back_propagated r nd))
      ∧ (∀ i, i ∉ l → σ' !! i = heap m !! i).
Proof.
  induction l as [|i l IH]; intros m Hnd Hvalid; simpl.
  - exists (heap m). destruct m. split_and!; [done| |done].
    intros i nd Hi. by apply elem_of_nil in Hi.
  - apply NoDup_cons in Hnd as [Hi Hnd].
    destruct (Hvalid i) as [nd Hnd_i]; [apply list_elem_of_here|].
    assert (i < length (heap m)) by by eapply lookup_lt_Some.
    erewrite bind_run by by apply back_propagate_step.
    destruct (IH (mkMachine (<[i:=back_propagated r nd]> (heap m)) (world m)))
      as (σ' & Hrun & Hin & Hout); [done| |].
    { intros j Hj. simpl.
      destruct (decide (i = j)) as [->|Hne]; [done|].
      rewrite list_lookup_insert_ne by done.
      apply Hvalid. by apply list_elem_of_further. }
    exists σ'. split_and!; [done| |].
    + intros j ndj [->|Hj]%elem_of_cons Hndj.
      * rewrite Hout by done. simpl. simplify_eq.
        by apply list_lookup_insert_eq.
      * apply Hin; [done|]. simpl.
        rewrite list_lookup_insert_ne; [done|]. by intros ->.
    + intros j [Hne Hj]%not_elem_of_cons.
      rewrite Hout by done. simpl. by rewrite list_lookup_insert_ne.
Qed.

Lemma mean_snoc (rs : list R) (r : R) :
  mean (rs ++ [r]) = ((mean rs * INR (length rs) + r) / (INR (length rs) + 1))%R.
Proof.
  unfold mean. rewrite length_app. simpl.
  rewrite decide_False by lia.
  rewrite plus_INR, fold_right_app. simpl.
  assert (∀ (l : list R) (a : R),
            fold_right Rplus a l = (fold_right Rplus 0 l + a)%R) as Hshift.
  { induction l as [|x l IHl]; intros a; simpl; [lra|]. rewrite IHl. lra. }
  rewrite Hshift. case_decide as Hlen.
  - apply nil_length_inv in Hlen as ->. simpl. unfold INR at 2 3. lra.
  - assert (0 < INR (length rs))%R by (apply lt_0_INR; lia).
    replace (INR 1) with 1%R by done. field. lra.
Qed.

Lemma tracks_mean_back_propagated (rs : list R) (r : R) nd :
  tracks_mean rs nd → tracks_mean (rs ++ [r]) (back_propagated r nd).
Proof.
  intros [HN HQ]. split.
  - simpl. rewrite length_app. simpl. lia.
  - unfold Q at 1. simpl. rewrite decide_False by lia.
    by rewrite mean_snoc, HQ, HN.
Qed.

Lemma tracks_mean_unvisited nd : N nd = 0 → tracks_mean [] nd.
Proof. intros HN. split; [done|]. unfold Q. by rewrite decide_True. Qed.

(** The effect of [_back_propagate] on the heap. *)
Lemma back_propagate_run (path : list nat) m (leaf : nat) lnd :
  NoDup path →
  (∀ i, i ∈ path → is_Some (heap m !! i)) →
  last path = Some leaf →
  heap m !! leaf = Some lnd →
  ∃ m' (first : nat) fnd,
    _back_propagate path m = Ok (Q fnd, m')
    ∧ world m' = world m
    ∧ head path = Some first
    ∧ heap m' !! first = Some fnd
    ∧ (∀ i nd, i ∈ path → heap m !! i = Some nd →
         heap m' !! i = Some (back_propagated (reward lnd) nd))
    ∧ (∀ i, i ∉ path → heap m' !! i = heap m !! i).
Proof.
  intros Hnd Hvalid Hlast Hleaf.
  destruct (back_propagate_loop (reward lnd) (reverse path) m)
    as (σ' & Hrun & Hin & Hout).
  { by rewrite reverse_Permutation. }
  { intros i Hi. apply Hvalid. by apply elem_of_reverse. }
  destruct path as [|first path']; [done|].
  destruct (Hvalid first) as [fnd0 Hfirst]; [apply list_elem_of_here|].
  exists (mkMachine σ' (world m)), first, (back_propagated (reward lnd) fnd0).
  assert (σ' !! first = Some (back_propagated (reward lnd) fnd0)) as Hfirst'.
  { apply Hin; [|done]. apply elem_of_reverse, list_elem_of_here. }
  split_and!; try done.
  - unfold _back_propagate, py_last. rewrite Hlast.
    erewrite bind_run by reflexivity.
    erewrite bind_run by by apply deref_run.
    erewrite bind_run by exact Hrun.
    erewrite bind_run by reflexivity.
    erewrite bind_run by by apply deref_run.
    done.
  - intros i nd Hi Hndi. apply Hin; [|done]. by apply elem_of_reverse.
  - intros i Hi. apply Hout. by rewrite elem_of_reverse.
Qed.

(** C1.  Back-propagation along a non-empty path of distinct nodes, with [r]
    the reward of the last node: every node of the path is replaced by its
    update [Q ← (Q·N + r) / (N + 1); N ← N + 1], so its [N] grows by exactly
    one and its [Q] stays the mean of the leaf rewards back-propagated
    through it ([Q] reading 0, the mean of no reward, while [N = 0]); nodes
    off the path are untouched; the value returned is the updated [Q] of the
    first node of the path, the root. *)
Theorem back_propagate_spec (path : list nat) m (leaf : nat) lnd :
  NoDup path →
  (∀ i, i ∈ path → is_Some (heap m !! i)) →
  last path = Some leaf →
  heap m !! leaf = Some lnd →
  ∃ m' (first : nat) fnd,
    _back_propagate path m = Ok (Q fnd, m')
    ∧ world m' = world m
    ∧ head path = Some first
    ∧ heap m' !! first = Some fnd
    ∧ (∀ i nd, i ∈ path → heap m !! i = Some nd →
         heap m' !! i = Some (back_propagated (reward lnd) nd)
         ∧ N (back_propagated (reward lnd) nd) = N nd + 1
         ∧ (N nd = 0 → Q nd = 0%R)
         ∧ ∀ rs, tracks_mean rs nd →
                 tracks_mean (rs ++ [reward lnd]) (back_propagated (reward lnd) nd))
    ∧ (∀ i, i ∉ path → heap m' !! i = heap m !! i).
Proof.
  intros Hnd Hvalid Hlast Hleaf.
  destruct (back_propagate_run path m leaf lnd Hnd Hvalid Hlast Hleaf)
    as (m' & first & fnd & Hrun & Hw & Hhead & Hfirst & Hin & Hout).
  exists m', first, fnd. split_and!; try done.
  intros i nd Hi Hndi. split_and!.
  - by apply Hin.
  - done.
  - intros HN. by destruct (tracks_mean_unvisited nd HN).
  - intros rs. apply tracks_mean_back_propagated.
Qed.

(** ** More on running programs *)

Lemma mret_Ok {A} (a b : A) m m' :
  (mret a : M A) m = Ok (b, m') ↔ a = b ∧ m = m'.
Proof. unfold mret, M_ret. split; [by intros [= -> ->]|by intros [-> ->]]. Qed.

Lemma lift_Ok {A} (o : outcome A) m (a : A) m' :
  lift o m = Ok (a, m') ↔ o = Ok a ∧ m' = m.
Proof.
  unfold lift. destruct o; split; intros H; destruct_and?; simplify_eq; done.
Qed.

Lemma get_heap_Ok m σ m' :
  get_heap m = Ok (σ, m') ↔ σ = heap m ∧ m' = m.
Proof. unfold get_heap. split; [by intros [= <- <-]|by intros [-> ->]]. Qed.

Lemma py_attr_Ok {A} (x : option A) m (a : A) m' :
  py_attr x m = Ok (a, m') ↔ x = Some a ∧ m' = m.
Proof.
  unfold py_attr, raise, mret, M_ret. destruct x; simpl; split; intros H;
    destruct_and?; simplify_eq; try done.
Qed.

Lemma await_Ok {A} (f : World → option (A * World)) m (a : A) m' :
  await f m = Ok (a, m') →
  heap m' = heap m ∧ f (world m) = Some (a, world m').
Proof.
  unfold await. destruct (f (world m)) as [[a' w]|]; [|done].
  by intros [= -> <-].
Qed.

Lemma outcome_bind_Ok {A B} (o : outcome A) (f : A → outcome B) (b : B) :
  o ≫= f = Ok b ↔ ∃ a, o = Ok a ∧ f a = Ok b.
Proof.
  unfold mbind, outcome_bind. destruct o; split; intros H;
    try destruct H as (? & ? & ?); simplify_eq; eauto.
Qed.

Lemma outcome_fmap_Ok {A B} (o : outcome A) (f : A → B) (b : B) :
  f <$> o = Ok b ↔ ∃ a, o = Ok a ∧ b = f a.
Proof.
  unfold fmap, outcome_fmap. destruct o; split; intros H;
    try destruct H as (? & ? & ?); simplify_eq; eauto.
Qed.

Lemma deref_in_Ok σ (i : nat) nd :
  deref_in σ i = Ok nd ↔ σ !! i = Some nd.
Proof. unfold deref_in. destruct (σ !! i); split; intros; simplify_eq; done. Qed.

Lemma py_last_Ok {A} (l : list A) (x : A) :
  py_last l = Ok x ↔ last l = Some x.
Proof. unfold py_last. destruct (last l); split; intros; simplify_eq; done. Qed.

(** ** Selection walks down the tree *)

Lemma first_unvisited_Some σ (cs : list nat) (c : nat) :
  first_unvisited σ cs = Ok (Some c) → c ∈ cs.
Proof.
  induction cs as [|c0 cs IH]; simpl; [done|].
  intros (cn & _ & H)%outcome_bind_Ok.
  case_decide; simplify_eq; [apply list_elem_of_here|].
  apply list_elem_of_further. auto.
Qed.

Lemma py_max_from_elem {A} (key : A → outcome float) l :
  ∀ best kbest c,
    py_max_from key best kbest l = Ok c → c = best ∨ c ∈ l.
Proof.
  induction l as [|y l IH]; simpl; intros best kbest c.
  - intros [= ->]. by left.
  - intros (k & _ & H)%outcome_bind_Ok.
    destruct (float_gt k kbest); apply IH in H as [->|H];
      rewrite elem_of_cons; auto.
Qed.

Lemma py_max_key_elem {A} (key : A → outcome float) l c :
  py_max_key key l = Ok c → c ∈ l.
Proof.
  destruct l as [|y l]; simpl; [done|].
  intros (k & _ & H)%outcome_bind_Ok.
  apply py_max_from_elem in H as [->|H]; rewrite elem_of_cons; auto.
Qed.

Lemma _uct_select_child self σ (p c : nat) :
  _uct_select self σ p = Ok c → is_child σ p c.
Proof.
  unfold _uct_select.
  intros (pn & Hp%deref_in_Ok & H)%outcome_bind_Ok.
  destruct (children pn) as [cs|] eqn:Hcs; [|done].
  apply outcome_bind_Ok in H as (u & Hu & H).
  exists pn, cs. split_and!; [done..|].
  destruct u as [c'|].
  - simplify_eq. by eapply first_unvisited_Some.
  - by eapply py_max_key_elem.
Qed.

Lemma _select_loop_spec (fuel : nat) self pending :
  ∀ (path0 : list nat) (a : nat) m (path : list nat) m',
    heap_inv_upto pending (heap m) →
    _select_loop fuel self path0 a m = Ok (path, m') →
    heap m' = heap m
    ∧ ∃ ext, path = path0 ++ a :: ext ∧ descends (heap m) a ext.
Proof.
  induction fuel as [|fuel IH]; intros path0 a m path m' Hinv; simpl; [done|].
  intros (nd & m1 & [Hnd ->]%deref_Ok & H)%bind_Ok.
  destruct (_ || _).
  { apply mret_Ok in H as [<- <-]. split; [done|]. by exists []. }
  apply bind_Ok in H as (σ & m1 & [-> ->]%get_heap_Ok & H).
  apply bind_Ok in H as (c & m1 & [Hc ->]%lift_Ok & H).
  apply bind_Ok in H as (wm & m1 & [Hwm ->]%py_attr_Ok & H).
  apply bind_Ok in H as (cn & m1 & [Hcn ->]%deref_Ok & H).
  apply bind_Ok in H as (p & m1 & [Hp ->]%py_attr_Ok & H).
  apply bind_Ok in H as (pn & m1 & [Hpn ->]%deref_Ok & H).
  apply bind_Ok in H as (? & m1 & [Hheap _]%await_Ok & H).
  apply IH in H as [Hheap' (ext & -> & Hext)]; [|by rewrite Hheap].
  rewrite Hheap in *. split; [done|].
  exists (c :: ext). rewrite <- app_assoc. split; [done|].
  apply _uct_select_child in Hc. simpl. split_and!; [done| |done].
  by destruct (inv_links _ _ Hinv _ _ Hc) as (? & ? & _ & _ & _ & _ & ?).
Qed.

(** ** Expansion *)

Lemma new_children_spec (sc : config) (i : nat) (s : State) nd :
  ∀ (actions : list Action) m (cs : list nat) m',
    heap m !! i = Some nd →
    new_children sc i s actions m = Ok (cs, m') →
    ∃ news,
      heap m' = heap m ++ news
      ∧ cs = seq (length (heap m)) (length news)
      ∧ Forall (placeholder_of i (depth nd)) news.
Proof.
  induction actions as [|a actions IH]; intros m cs m' Hi; simpl.
  - intros [<- <-]%mret_Ok. exists []. by rewrite app_nil_r.
  - intros ([fr frd] & m1 & [Hheap _]%await_Ok & H)%bind_Ok.
    unfold MCTSNode__init__ in H.
    apply bind_Ok in H as (c & m2 & Hc & H).
    apply bind_Ok in Hc as (d & m3 & Hd & Hc).
    apply bind_Ok in Hd as (pn & m4 & [Hpn ->]%deref_Ok & [<- ->]%mret_Ok).
    rewrite Hheap, Hi in Hpn. simplify_eq.
    unfold alloc in Hc. simplify_eq. rewrite Hheap in *.
    apply bind_Ok in H as (rest & m2 & Hrest & [<- <-]%mret_Ok).
    apply IH in Hrest as (news & Hheap' & -> & Hnews).
    2:{ simpl. by apply lookup_app_l_Some. }
    simpl in *. eexists (_ :: news). split_and!.
    + rewrite Hheap'. by rewrite <- app_assoc.
    + simpl. f_equal. rewrite length_app. simpl. f_equal. lia.
    + constructor; [|done]. done.
Qed.

Lemma _expand_spec self (i : nat) m m' :
  _expand self i m = Ok (tt, m') → expand_post i (heap m) (heap m').
Proof.
  unfold _expand.
  intros (nd & m1 & [Hnd ->]%deref_Ok & H)%bind_Ok.
  apply bind_Ok in H as (s & m1 & Hres & H).
  assert (i < length (heap m)) as Hlt by by eapply lookup_lt_Some.
  assert (∃ nd1, heap m1 = <[i := nd1]> (heap m)
                 ∧ parent nd1 = parent nd ∧ depth nd1 = depth nd
                 ∧ N nd1 = N nd ∧ children nd1 = children nd
                 ∧ state nd1 = Some s
                 ∧ (is_Some (state nd) → is_terminal nd1 = is_terminal nd))
    as (nd1 & Hm1 & Hpar & Hdep & HN & Hch & Hst & Hterm).
  { destruct (state nd) as [s0|] eqn:Hs0.
    - apply mret_Ok in Hres as [-> ->]. exists nd.
      rewrite list_insert_id by done. done.
    - apply bind_Ok in Hres as (wm & m2 & [Hwm ->]%py_attr_Ok & Hres).
      apply bind_Ok in Hres as (p & m2 & [Hp ->]%py_attr_Ok & Hres).
      apply bind_Ok in Hres as (pn & m2 & [Hpn ->]%deref_Ok & Hres).
      apply bind_Ok in Hres as ([s1 aux] & m2 & [Hh2 _]%await_Ok & Hres).
      apply bind_Ok in Hres as ([] & m3 & (n3 & Hn3 & ->)%modify_Ok & Hres).
      apply bind_Ok in Hres as (sc & m4 & [Hsc ->]%py_attr_Ok & Hres).
      apply bind_Ok in Hres as ([r rd] & m4 & [Hh4 _]%await_Ok & Hres).
      apply bind_Ok in Hres as ([] & m5 & (n5 & Hn5 & ->)%modify_Ok & Hres).
      apply bind_Ok in Hres as (t & m6 & [Hh6 _]%await_Ok & Hres).
      apply bind_Ok in Hres as ([] & m7 & (n7 & Hn7 & ->)%modify_Ok & Hres).
      apply mret_Ok in Hres as [-> <-]. simpl in *.
      rewrite Hh2 in *. rewrite Hnd in Hn3. simplify_eq.
      rewrite Hh4 in *. simpl in *.
      rewrite list_lookup_insert_eq in Hn5 by done. simplify_eq.
      rewrite Hh6 in *. simpl in *.
      rewrite list_lookup_insert_eq in Hn7 by (by rewrite length_insert).
      simplify_eq.
      rewrite !list_insert_insert_eq.
      eexists. split; [reflexivity|]. simpl. split_and!; done. }
  apply bind_Ok in H as (nd1' & m2 & [Hnd1 ->]%deref_Ok & H).
  rewrite Hm1, list_lookup_insert_eq in Hnd1 by done. simplify_eq.
  destruct (is_terminal nd1') eqn:Hterm1.
  - apply mret_Ok in H as [_ <-].
    exists nd, nd1', []. rewrite Hterm1, app_nil_r, Hst. split_and!; eauto.
  - apply bind_Ok in H as (sc & m2 & [Hsc ->]%py_attr_Ok & H).
    apply bind_Ok in H as (actions & m2 & [Hh2 _]%await_Ok & H).
    apply bind_Ok in H as (cs & m3 & Hcs & H).
    eapply (new_children_spec _ _ _ nd1') in Hcs as (news & Hh3 & -> & Hnews).
    2:{ rewrite Hh2, Hm1. by apply list_lookup_insert_eq. }
    apply modify_Ok in H as (n3 & Hn3 & ->). simpl.
    rewrite Hh3, Hh2, Hm1 in *.
    rewrite lookup_app_l, list_lookup_insert_eq in Hn3
      by (rewrite ?length_insert; done).
    simplify_eq.
    rewrite insert_app_l by (by rewrite length_insert).
    rewrite list_insert_insert_eq, length_insert.
    eexists nd, _, news. split_and!; [done|reflexivity|simpl..]; try done.
    + by rewrite Hterm1.
    + rewrite Hterm1. split; [done|]. by rewrite <- Hdep.
Qed.

(** ** Expansion keeps the shape of the heap *)

Lemma expand_post_lookup (i : nat) σ σ' :
  expand_post i σ σ' →
  ∃ nd nd',
    σ !! i = Some nd ∧ σ' !! i = Some nd'
    ∧ parent nd' = parent nd ∧ depth nd' = depth nd ∧ N nd' = N nd
    ∧ is_Some (state nd')
    ∧ (is_Some (state nd) → is_terminal nd' = is_terminal nd)
    ∧ (is_terminal nd' = true → children nd' = children nd)
    ∧ (∀ cs c, is_terminal nd' = false → children nd' = Some cs → c ∈ cs →
         length σ ≤ c
         ∧ ∃ cn, σ' !! c = Some cn ∧ placeholder_of i (depth nd') cn)
    ∧ (∀ j x, j ≠ i → σ !! j = Some x → σ' !! j = Some x)
    ∧ (∀ j x, j ≠ i → σ' !! j = Some x →
         σ !! j = Some x
         ∨ (length σ ≤ j ∧ placeholder_of i (depth nd') x)).
Proof.
  intros (nd & nd' & news & Hi & -> & Hpar & Hdep & HN & Hst & Hterm & Hch).
  assert (i < length σ) as Hlt by by eapply lookup_lt_Some.
  exists nd, nd'. split_and!; try done.
  - rewrite lookup_app_l by by rewrite length_insert.
    by apply list_lookup_insert_eq.
  - intros Ht. rewrite Ht in Hch. by destruct Hch.
  - intros cs c Ht Hcs Hc. rewrite Ht in Hch. destruct Hch as [Hch Hnews].
    rewrite Hcs in Hch. simplify_eq.
    apply elem_of_seq in Hc as [Hc1 Hc2]. split; [done|].
    rewrite lookup_app_r by (rewrite length_insert; lia).
    rewrite length_insert.
    destruct (lookup_lt_is_Some_2 news (c - length σ)) as [cn Hcn]; [lia|].
    exists cn. split; [done|]. rewrite Hdep.
    by eapply Forall_lookup_1 in Hnews.
  - intros j x Hne Hj.
    rewrite lookup_app_l by (rewrite length_insert; by eapply lookup_lt_Some).
    by rewrite list_lookup_insert_ne.
  - intros j x Hne Hj.
    destruct (decide (j < length σ)) as [Hjlt|Hjge].
    + left. rewrite lookup_app_l in Hj by by rewrite length_insert.
      by rewrite list_lookup_insert_ne in Hj.
    + right. split; [lia|].
      rewrite lookup_app_r in Hj by (rewrite length_insert; lia).
      destruct (is_terminal nd').
      * destruct Hch as [_ ->]. done.
      * destruct Hch as [_ Hnews]. rewrite Hdep.
        by eapply Forall_lookup_1 in Hnews.
Qed.

Lemma expand_post_inv (pending : list nat) (i : nat) σ σ' :
  heap_inv_upto pending σ →
  i ∈ pending →
  expand_post i σ σ' →
  heap_inv_upto pending σ'.
Proof.
  intros [Hroot Hlinks Hcounts Hexp] Hi Hpost.
  destruct (expand_post_lookup _ _ _ Hpost)
    as (nd & nd' & Hnd & Hnd' & Hpar & Hdep & HN & Hst & Hterm & Hch_t & Hch_f
        & Hold & Hnew).
  assert (children nd' ≠ None → is_terminal nd' = false) as Hnonterm.
  { intros Hch. destruct (is_terminal nd') eqn:Ht; [|done].
    rewrite (Hch_t eq_refl) in Hch.
    destruct (Hexp _ _ Hnd Hch) as (_ & Hs & Hf).
    specialize (Hterm Hs). congruence. }
  assert (∀ p c, is_child σ' p c →
            (p ≠ i ∧ is_child σ p c)
            ∨ (p = i ∧ length σ ≤ c
               ∧ ∃ cn, σ' !! c = Some cn ∧ placeholder_of i (depth nd') cn))
    as Hchild.
  { intros p c (pn & cs & Hp & Hcs & Hc).
    destruct (decide (p = i)) as [->|Hne].
    - right. split; [done|]. rewrite Hnd' in Hp. simplify_eq.
      eapply Hch_f; eauto. apply Hnonterm. by rewrite Hcs.
    - left. split; [done|].
      destruct (Hnew _ _ Hne Hp) as [Hp'|[_ (_ & _ & _ & Hnone & _)]].
      + by exists pn, cs.
      + by rewrite Hcs in Hnone. }
  assert (∀ j x, σ !! j = Some x →
            ∃ x', σ' !! j = Some x' ∧ parent x' = parent x
                  ∧ depth x' = depth x ∧ N x' = N x) as Hkeep.
  { intros j x Hj. destruct (decide (j = i)) as [->|Hne].
    - rewrite Hnd in Hj. simplify_eq. by exists nd'.
    - exists x. split; [|done]. by apply Hold. }
  split.
  - destruct Hroot as (r & Hr & Hrp & Hrd & Hrs & Hrt).
    destruct (decide (0 = i)) as [<-|Hne].
    + rewrite Hnd in Hr. simplify_eq. exists nd'.
      split_and!; try done; try congruence. rewrite Hterm; done.
    + exists r. split_and!; try done. by apply Hold.
  - intros p c [[Hne Hc]|(-> & Hlen & cn & Hcn & Hpl)]%Hchild.
    + destruct (Hlinks _ _ Hc) as (pn & cn & Hp & Hcn & Hcp & Hcd & Hlt).
      destruct (Hkeep _ _ Hcn) as (cn' & Hcn' & Hp' & Hd' & _).
      exists pn, cn'. split_and!; try done; try congruence. by apply Hold.
    + exists nd', cn. destruct Hpl as (? & ? & _).
      split_and!; try done.
      apply lookup_lt_Some in Hnd. lia.
  - intros p c pn' cn' [[Hne Hc]|(-> & Hlen & cn & Hcn & Hpl)]%Hchild Hp' Hc'.
    + destruct (Hlinks _ _ Hc) as (pn & cn & Hp & Hcn & _).
      destruct (Hkeep _ _ Hcn) as (cn'' & Hcn'' & _ & _ & HNc).
      rewrite (Hold _ _ Hne Hp) in Hp'. simplify_eq.
      rewrite HNc. by eapply Hcounts.
    + simplify_eq. destruct Hpl as (_ & _ & -> & _). lia.
  - intros p pn' Hp' Hch.
    destruct (decide (p = i)) as [->|Hne].
    + rewrite Hnd' in Hp'. simplify_eq. split_and!; auto.
    + destruct (Hnew _ _ Hne Hp') as [Hp|[_ (_ & _ & _ & Hnone & _)]]; [|done].
      by eapply Hexp.
Qed.

(** Strictly increasing references along a walk. *)

Lemma descends_lt σ (ext : list nat) :
  ∀ a b, descends σ a ext → b ∈ ext → a < b.
Proof.
  induction ext as [|c ext IH]; intros a b; simpl.
  - intros _ Hb. by apply elem_of_nil in Hb.
  - intros (_ & Hlt & Hext) [->|Hb]%elem_of_cons; [done|].
    specialize (IH _ _ Hext Hb). lia.
Qed.

Lemma descends_NoDup σ (a : nat) (ext : list nat) :
  descends σ a ext → NoDup (a :: ext).
Proof.
  revert a. induction ext as [|c ext IH]; intros a Hd.
  - apply NoDup_singleton.
  - apply NoDup_cons. split; [|apply IH; by destruct Hd as (_ & _ & ?)].
    intros Ha. apply (descends_lt _ _ _ _ Hd) in Ha. lia.
Qed.

Lemma descends_snoc σ (ext : list nat) :
  ∀ a t c,
    descends σ a ext → last (a :: ext) = Some t → is_child σ t c → t < c →
    descends σ a (ext ++ [c]).
Proof.
  induction ext as [|b ext IH]; intros a t c; simpl.
  - intros _ [= ->] Hc Hlt. done.
  - intros (Hab & Hlt & Hext) Hlast Hc Htc. split_and!; [done..|].
    eapply IH; eauto.
Qed.

Lemma descends_expand (i : nat) σ σ' (ext : list nat) :
  ∀ a,
    expand_post i σ σ' →
    descends σ a ext → last (a :: ext) = Some i →
    descends σ' a ext.
Proof.
  intros a Hpost. destruct (expand_post_lookup _ _ _ Hpost)
    as (nd & nd' & _ & _ & _ & _ & _ & _ & _ & _ & _ & Hold & _).
  revert a. induction ext as [|b ext IH]; intros a; simpl; [done|].
  intros (Hab & Hlt & Hext) Hlast. split_and!; [|done|by apply IH].
  destruct Hab as (an & cs & Ha & Hcs & Hb).
  exists an, cs. split_and!; [|done..]. apply Hold; [|done].
  intros ->. assert (i ∈ b :: ext) as Hi.
  { rewrite last_cons in Hlast. destruct (last ext) eqn:Hl.
    - simplify_eq. apply list_elem_of_further.
      apply last_Some in Hl as [l' ->]. apply elem_of_app. right.
      apply list_elem_of_here.
    - simplify_eq. apply last_None in Hl as ->. apply list_elem_of_here. }
  apply elem_of_cons in Hi as [->|Hi]; [lia|].
  apply (descends_lt _ _ _ _ Hext) in Hi. lia.
Qed.

(** ** Simulation *)

Lemma heap_inv_upto_mono (pending pending' : list nat) σ :
  (∀ i, i ∈ pending → i ∈ pending') →
  heap_inv_upto pending σ → heap_inv_upto pending' σ.
Proof.
  intros Hsub [Hroot Hlinks Hcounts Hexp]. split; try done.
  intros p pn Hp Hch. destruct (Hexp _ _ Hp Hch) as ([?|?] & ? & ?); auto.
Qed.

Lemma map_m_deref_Ok {B} (f : node → B) (cs : list nat) :
  ∀ m (l : list B) m',
    map_m (fun c => cn ← deref c; mret (f cn)) cs m = Ok (l, m') → m' = m.
Proof.
  induction cs as [|c cs IH]; intros m l m'; simpl.
  - by intros [_ <-]%mret_Ok.
  - intros (y & m1 & Hy & H)%bind_Ok.
    apply bind_Ok in Hy as (cn & m2 & [_ ->]%deref_Ok & [_ ->]%mret_Ok).
    apply bind_Ok in H as (ys & m2 & ->%IH & [_ ->]%mret_Ok). done.
Qed.

Lemma call_choice_Ok (c : py_choice) (x : list R) m (i : Z) m' :
  call_choice c x m = Ok (i, m') → heap m' = heap m.
Proof.
  unfold call_choice. destruct c as [f|s]; [|done].
  destruct (f x (world m)) as [[i' w]| |]; [|done..]. by intros [= _ <-].
Qed.

Lemma py_index_Ok {A} (l : list A) (i : Z) (x : A) :
  py_index l i = Ok x → x ∈ l.
Proof.
  unfold py_index. destruct (_ <? _)%Z; [done|].
  destruct (l !! _) eqn:Hl; [|done]. intros [= <-].
  by eapply list_elem_of_lookup_2.
Qed.

Lemma last_snoc_cons {A} (a : A) (l : list A) (x : A) :
  last (a :: l ++ [x]) = Some x.
Proof. by rewrite app_comm_cons, last_snoc. Qed.

Lemma _simulate_loop_spec (fuel : nat) self :
  ∀ (ext : list nat) (t : nat) m (path' : list nat) m',
    heap_inv_upto (0 :: ext) (heap m) →
    descends (heap m) 0 ext →
    last (0 :: ext) = Some t →
    _simulate_loop fuel self (0 :: ext) t m = Ok (path', m') →
    ∃ ext', path' = 0 :: ext'
            ∧ heap_inv_upto (0 :: ext') (heap m')
            ∧ descends (heap m') 0 ext'.
Proof.
  induction fuel as [|fuel IH]; intros ext t m path' m' Hinv Hdesc Hlast;
    simpl; [done|].
  assert (t ∈ 0 :: ext) as Ht.
  { apply last_Some in Hlast as [l' Hl]. rewrite Hl.
    apply elem_of_app. right. apply list_elem_of_here. }
  intros (nd & m1 & [Hnd ->]%deref_Ok & H)%bind_Ok.
  apply bind_Ok in H as ([] & m1 & Hexp & H).
  assert (heap_inv_upto (0 :: ext) (heap m1) ∧ descends (heap m1) 0 ext)
    as [Hinv1 Hdesc1].
  { case_bool_decide.
    - apply _expand_spec in Hexp. split.
      + by eapply expand_post_inv.
      + by eapply descends_expand.
    - by apply mret_Ok in Hexp as [_ <-]. }
  clear Hexp Hinv Hdesc Hnd nd.
  apply bind_Ok in H as (nd & m2 & [Hnd ->]%deref_Ok & H).
  destruct (_is_terminal_with_depth_limit self nd).
  { apply mret_Ok in H as [<- <-]. eauto. }
  destruct (children nd) as [cs|] eqn:Hcs; [|done].
  case_bool_decide.
  { apply mret_Ok in H as [<- <-]. eauto. }
  apply bind_Ok in H as (frs & m2 & ->%map_m_deref_Ok & H).
  apply bind_Ok in H as (i & m2 & Hheap%call_choice_Ok & H).
  apply bind_Ok in H as (c & m3 & [Hc%py_index_Ok ->]%lift_Ok & H).
  rewrite <- Hheap in *.
  assert (is_child (heap m2) t c) as Hchild by by exists nd, cs.
  assert (t < c) as Hlt
    by by destruct (inv_links _ _ Hinv1 _ _ Hchild) as (? & ? & _ & _ & _ & _ & ?).
  change (0 :: ext ++ [c]) with (0 :: (ext ++ [c])) in H.
  eapply IH in H; [done| | |].
  - eapply heap_inv_upto_mono; [|done].
    intros j Hj. rewrite app_comm_cons. apply elem_of_app. by left.
  - by eapply descends_snoc.
  - apply last_snoc_cons.
Qed.

(** ** Back-propagation restores the invariant *)

Lemma descends_valid (pending : list nat) σ (ext : list nat) :
  heap_inv_upto pending σ → descends σ 0 ext →
  ∀ i, i ∈ 0 :: ext → is_Some (σ !! i).
Proof.
  intros Hinv. destruct (inv_root _ _ Hinv) as (r & Hr & _).
  assert (∀ a, is_Some (σ !! a) → descends σ a ext →
               ∀ i, i ∈ a :: ext → is_Some (σ !! i)) as Hgen.
  { induction ext as [|b ext IH]; intros a Ha Hd i.
    - by intros ->%list_elem_of_singleton.
    - intros [->|Hi]%elem_of_cons; [done|].
      destruct Hd as (Hab & _ & Hd). apply (IH b); [|done..].
      destruct (inv_links _ _ Hinv _ _ Hab) as (? & ? & _ & -> & _). eauto. }
  apply Hgen. by rewrite Hr.
Qed.

Lemma descends_parent_in σ (ext : list nat) :
  ∀ a c, descends σ a ext → c ∈ ext → ∃ q, q ∈ a :: ext ∧ is_child σ q c.
Proof.
  induction ext as [|b ext IH]; intros a c; simpl.
  - intros _ Hc. by apply elem_of_nil in Hc.
  - intros (Hab & _ & Hd) [->|Hc]%elem_of_cons.
    + exists a. split; [apply list_elem_of_here|done].
    + destruct (IH _ _ Hd Hc) as (q & Hq & Hqc).
      exists q. split; [by apply list_elem_of_further|done].
Qed.

Lemma back_propagate_inv (r : R) σ σ' (ext : list nat) :
  heap_inv_upto (0 :: ext) σ →
  descends σ 0 ext →
  (∀ i nd, i ∈ 0 :: ext → σ !! i = Some nd →
           σ' !! i = Some (back_propagated r nd)) →
  (∀ i, i ∉ 0 :: ext → σ' !! i = σ !! i) →
  heap_inv σ' ∧ descends σ' 0 ext.
Proof.
  intros [Hroot Hlinks Hcounts Hexp] Hdesc Hin Hout.
  assert (∀ i nd, σ !! i = Some nd →
            ∃ nd', σ' !! i = Some nd'
                   ∧ parent nd' = parent nd ∧ depth nd' = depth nd
                   ∧ state nd' = state nd ∧ is_terminal nd' = is_terminal nd
                   ∧ children nd' = children nd
                   ∧ N nd' = if decide (i ∈ 0 :: ext) then N nd + 1 else N nd)
    as Hfwd.
  { intros i nd Hi. case_decide as Hdec.
    - exists (back_propagated r nd). split; [by apply Hin|done].
    - exists nd. split; [|done]. by rewrite Hout. }
  assert (∀ i nd', σ' !! i = Some nd' →
            ∃ nd, σ !! i = Some nd
                  ∧ parent nd' = parent nd ∧ depth nd' = depth nd
                  ∧ state nd' = state nd ∧ is_terminal nd' = is_terminal nd
                  ∧ children nd' = children nd
                  ∧ N nd' = if decide (i ∈ 0 :: ext) then N nd + 1 else N nd)
    as Hbwd.
  { intros i nd' Hi. destruct (σ !! i) as [nd|] eqn:Hnd.
    - destruct (Hfwd _ _ Hnd) as (nd'' & Hnd'' & ?). simplify_eq. eauto.
    - destruct (decide (i ∈ 0 :: ext)) as [Hdec|Hdec].
      + destruct (descends_valid (0 :: ext) σ ext) with (i:=i) as [? ?];
          [done..|congruence].
      + rewrite Hout in Hi by done. congruence. }
  assert (∀ p c, is_child σ' p c ↔ is_child σ p c) as Hchild.
  { intros p c. split.
    - intros (pn' & cs & Hp & Hcs & Hc).
      destruct (Hbwd _ _ Hp) as (pn & Hpn & _ & _ & _ & _ & Hch & _).
      exists pn, cs. split_and!; congruence.
    - intros (pn & cs & Hp & Hcs & Hc).
      destruct (Hfwd _ _ Hp) as (pn' & Hpn' & _ & _ & _ & _ & Hch & _).
      exists pn', cs. split_and!; congruence. }
  split; [split|].
  - destruct Hroot as (r0 & Hr & ? & ? & ? & ?).
    destruct (Hfwd _ _ Hr) as (r' & Hr' & ? & ? & ? & ? & _).
    exists r'. split_and!; congruence.
  - intros p c Hc%Hchild.
    destruct (Hlinks _ _ Hc) as (pn & cn & Hp & Hcn & ? & ? & ?).
    destruct (Hfwd _ _ Hp) as (pn' & Hpn' & ? & ? & _).
    destruct (Hfwd _ _ Hcn) as (cn' & Hcn' & ? & ? & _).
    exists pn', cn'. split_and!; congruence.
  - intros p c pn' cn' Hc%Hchild Hp' Hc'.
    destruct (Hbwd _ _ Hp') as (pn & Hp & _ & _ & _ & _ & _ & HNp).
    destruct (Hbwd _ _ Hc') as (cn & Hcn & _ & _ & _ & _ & _ & HNc).
    pose proof (Hcounts _ _ _ _ Hc Hp Hcn) as Hle.
    rewrite HNp, HNc. repeat case_decide; try lia.
    exfalso.
    destruct (Hlinks _ _ Hc) as (pn0 & cn0 & Hp0 & Hcn0 & Hpar & _ & Hlt).
    assert (c ∈ ext) as Hcext.
    { match goal with H : c ∈ 0 :: ext |- _ =>
        apply elem_of_cons in H as [->|H]; [lia|done] end. }
    destruct (descends_parent_in _ _ _ _ Hdesc Hcext) as (q & Hq & Hqc).
    destruct (Hlinks _ _ Hqc) as (? & cn1 & _ & Hcn1 & Hpar1 & _).
    simplify_eq. congruence.
  - intros p pn' Hp' Hch.
    destruct (Hbwd _ _ Hp') as (pn & Hp & _ & _ & Hs & Ht & Hc & HN).
    rewrite Hc in Hch. destruct (Hexp _ _ Hp Hch) as (Hvis & ? & ?).
    split_and!; [|congruence..]. left. rewrite HN.
    case_decide; [lia|]. destruct Hvis; [done|contradiction].
  - clear -Hdesc Hchild. revert Hdesc. generalize 0.
    induction ext as [|b ext IH]; intros a; simpl; [done|].
    intros (Hab & Hlt & Hd). split_and!; [by apply Hchild|done|by apply IH].
Qed.

(** ** One iteration *)

Lemma heap_inv_fresh (ed : Details) (s0 : State) :
  heap_inv [fresh_root ed s0 : node].
Proof.
  assert (∀ p c, ¬ is_child [fresh_root ed s0 : node] p c) as Hno.
  { intros p c (pn & cs & Hp & Hcs & _).
    destruct p; simpl in Hp; simplify_eq. }
  split.
  - eexists. split; [reflexivity|]. simpl. eauto.
  - intros p c Hc. by apply Hno in Hc.
  - intros p c pn cn Hc. by apply Hno in Hc.
  - intros p pn Hp Hch. destruct p; simpl in Hp; simplify_eq.
Qed.

Lemma iterate_tail (fuel : nat) self (a : nat) m path cum self' m' :
  iterate fuel self a m = Ok (path, cum, self', m') →
  ∃ t tn, last path = Some t ∧ heap m' !! t = Some tn
          ∧ self' = recorded self path cum (is_terminal tn).
Proof.
  unfold iterate.
  intros (path0 & m1 & _ & H)%bind_Ok.
  apply bind_Ok in H as (t0 & m2 & _ & H).
  apply bind_Ok in H as (tn0 & m3 & _ & H).
  apply bind_Ok in H as (path1 & m4 & _ & H).
  apply bind_Ok in H as (cum1 & m5 & _ & H).
  apply bind_Ok in H as (t & m6 & [Ht%py_last_Ok ->]%lift_Ok & H).
  apply bind_Ok in H as (tn & m6 & [Htn ->]%deref_Ok & H).
  apply mret_Ok in H as [[= <- <- <-] <-]. by exists t, tn.
Qed.

Lemma iterate_spec (fuel : nat) self m path cum self' m' :
  heap_inv (heap m) →
  iterate fuel self 0 m = Ok (path, cum, self', m') →
  heap_inv (heap m')
  ∧ ∃ ext rn, path = 0 :: ext ∧ descends (heap m') 0 ext
              ∧ heap m' !! 0 = Some rn ∧ cum = Q rn.
Proof.
  intros Hinv. unfold iterate, _select.
  intros (path0 & m1 & Hsel & H)%bind_Ok.
  eapply _select_loop_spec in Hsel as [Hh1 (ext0 & -> & Hdesc0)]; [|done].
  simpl in *. rewrite <- Hh1 in *.
  apply (heap_inv_upto_mono [] (0 :: ext0)) in Hinv;
    [|by intros ? ?%elem_of_nil].
  apply bind_Ok in H as (t0 & m2 & [Ht0%py_last_Ok ->]%lift_Ok & H).
  apply bind_Ok in H as (tn0 & m2 & [Htn0 ->]%deref_Ok & H).
  apply bind_Ok in H as (path1 & m2 & Hsim & H).
  assert (∃ ext, path1 = 0 :: ext
                 ∧ heap_inv_upto (0 :: ext) (heap m2)
                 ∧ descends (heap m2) 0 ext) as (ext & -> & Hinv2 & Hdesc2).
  { destruct (negb _).
    - apply bind_Ok in Hsim as ([] & m3 & Hexp & Hsim).
      apply _expand_spec in Hexp.
      assert (t0 ∈ 0 :: ext0) as Hin.
      { apply last_Some in Ht0 as [l' Hl]. rewrite Hl.
        apply elem_of_app. right. apply list_elem_of_here. }
      unfold _simulate in Hsim.
      apply bind_Ok in Hsim as (t1 & m4 & [Ht1%py_last_Ok ->]%lift_Ok & Hsim).
      eapply _simulate_loop_spec in Hsim; [done| | |done].
      + by eapply expand_post_inv.
      + by eapply descends_expand.
    - apply mret_Ok in Hsim as [<- <-]. eauto. }
  clear Hinv Hdesc0 Htn0 Ht0.
  apply bind_Ok in H as (cum1 & m3 & Hbp & H).
  apply bind_Ok in H as (t & m4 & [Ht%py_last_Ok ->]%lift_Ok & H).
  apply bind_Ok in H as (tn & m4 & [Htn ->]%deref_Ok & H).
  apply mret_Ok in H as [[= <- <- <-] <-].
  pose proof (descends_valid _ _ _ Hinv2 Hdesc2) as Hvalid.
  destruct (Hvalid t) as [tn2 Htn2].
  { apply last_Some in Ht as [l' Hl]. rewrite Hl.
    apply elem_of_app. right. apply list_elem_of_here. }
  destruct (back_propagate_run (0 :: ext) m2 t tn2)
    as (m3' & first & fnd & Hrun & _ & Hhead & Hfirst & Hin & Hout);
    [by eapply descends_NoDup|done..|].
  rewrite Hrun in Hbp. simplify_eq. simpl in Hhead. simplify_eq.
  destruct (back_propagate_inv (reward tn2) (heap m2) (heap m3) ext)
    as [Hinv3 Hdesc3]; [done..| |done|].
  { intros i nd Hi Hnd. by apply Hin. }
  split; [done|]. by exists ext, fnd.
Qed.

Lemma reachable_heap_inv (fuel : nat) (ed : Details) self m :
  reachable ed fuel self m → heap_inv (heap m).
Proof.
  induction 1 as [self s0 w|self m path cum self' m' _ IH Hit].
  - apply heap_inv_fresh.
  - by eapply iterate_spec in Hit as [? _].
Qed.

(** C10.  In every heap reachable by iterating from a fresh root, whenever
    [_uct_select] gets past its loop over unvisited children, the node has
    been visited at least once, no child has more visits than it (a
    back-propagation that increments a child increments its parent), and
    [_uct] evaluates for every child without a domain error. *)
Theorem ucb1_parent_visited (fuel : nat) (ed : Details) self m (p : nat) pn
    (cs : list nat) :
  reachable ed fuel self m →
  heap m !! p = Some pn →
  children pn = Some cs →
  first_unvisited (heap m) cs = Ok None →
  1 ≤ N pn
  ∧ ∀ c, c ∈ cs →
      ∃ cn, heap m !! c = Some cn ∧ N cn ≤ N pn
            ∧ _uct self (heap m) c = Ok (uct_value self pn cn).
Proof.
  intros Hinv%reachable_heap_inv Hp Hcs Hucb.
  destruct (inv_expanded _ _ Hinv p pn Hp) as ([HN|Hnil] & _);
    [by rewrite Hcs| |by apply elem_of_nil in Hnil].
  split; [lia|]. intros c Hc.
  assert (is_child (heap m) p c) as Hchild by by exists pn, cs.
  destruct (inv_links _ _ Hinv _ _ Hchild) as (pn' & cn & Hp' & Hcn & Hpar & _).
  simplify_eq. exists cn. split_and!; [done| |].
  - by eapply (inv_counts _ _ Hinv).
  - by eapply _uct_defined.
Qed.

(** In a reachable heap the UCB1 branch of [_uct_select] always returns: the
    child it returns maximises the UCB1 score. *)
Lemma _uct_select_reachable (fuel : nat) (ed : Details) self m (p : nat) pn
    (cs : list nat) :
  reachable ed fuel self m →
  heap m !! p = Some pn →
  children pn = Some cs →
  cs ≠ [] →
  first_unvisited (heap m) cs = Ok None →
  ∃ c cn,
    _uct_select self (heap m) p = Ok c ∧ c ∈ cs ∧ heap m !! c = Some cn
    ∧ ∀ c' cn', c' ∈ cs → heap m !! c' = Some cn' →
                (uct_value self pn cn' <= uct_value self pn cn)%R.
Proof.
  intros Hinv%reachable_heap_inv Hp Hcs Hne Hucb.
  destruct (inv_expanded _ _ Hinv p pn Hp) as ([HN|Hnil] & _);
    [by rewrite Hcs| |by apply elem_of_nil in Hnil].
  eapply _uct_select_ucb1; [done..| |by eapply first_unvisited_None|done].
  intros c Hc.
  assert (is_child (heap m) p c) as Hchild by by exists pn, cs.
  destruct (inv_links _ _ Hinv _ _ Hchild) as (_ & cn & _ & Hcn & Hpar & _).
  eauto.
Qed.

(** ** The loop of [search] *)

Lemma same_config_refl self : same_config self self.
Proof. exists (_output_cum_reward self), (_output_iter self). by destruct self. Qed.

Lemma same_config_set_output self0 self (c : float) it :
  same_config self0 self → same_config self0 (set_output c it self).
Proof. intros (c' & it' & ->). by exists c, it. Qed.

Lemma same_config_recorded self0 self (path : list nat) (cum : R) (t : bool) :
  same_config self0 self → same_config self0 (recorded self path cum t).
Proof.
  intros H. unfold recorded.
  repeat (match goal with
          | |- context [if ?b then _ else _] => destruct b
          end; try apply same_config_set_output); done.
Qed.

Lemma iterations_log_Ok (fuel : nat) (r : nat) (n : nat) :
  ∀ self m self' m',
    iterations fuel n self r m = Ok (self', m') →
    ∃ log, iterations_log fuel n self r m = Ok (log, self', m')
           ∧ length log = n.
Proof.
  induction n as [|n IH]; intros self m self' m'; simpl.
  - intros [<- <-]%mret_Ok. by exists [].
  - intros ([[path cum] self1] & m1 & Hit & H)%bind_Ok.
    destruct (iterate_tail _ _ _ _ _ _ _ _ Hit) as (t & tn & Ht & Htn & _).
    apply IH in H as (log & Hlog & Hlen).
    exists ((path, cum, is_terminal tn) :: log). split; [|simpl; lia].
    erewrite bind_run by exact Hit. simpl.
    erewrite bind_run by (apply lift_Ok; split; [by apply py_last_Ok|done]).
    erewrite bind_run by by apply deref_run.
    erewrite bind_run by exact Hlog. done.
Qed.

Lemma iterations_log_outputs (fuel : nat) (r : nat) (n : nat) :
  ∀ self m log self' m',
    iterations_log fuel n self r m = Ok (log, self', m') →
    self' = foldl (fun s '(p, c, t) => recorded s p c t) self log.
Proof.
  induction n as [|n IH]; intros self m log self' m'; simpl.
  - by intros [[= <- <-] _]%mret_Ok.
  - intros ([[path cum] self1] & m1 & Hit & H)%bind_Ok.
    destruct (iterate_tail _ _ _ _ _ _ _ _ Hit) as (t & tn & Ht & Htn & ->).
    apply bind_Ok in H as (t' & m2 & [Ht'%py_last_Ok ->]%lift_Ok & H).
    apply bind_Ok in H as (tn' & m2 & [Htn' ->]%deref_Ok & H).
    apply bind_Ok in H as ([log' self2] & m2 & Hlog & H).
    apply mret_Ok in H as [[= <- <-] <-]. simplify_eq.
    apply IH in Hlog as ->. done.
Qed.

Lemma iterations_inv (fuel : nat) (n : nat) :
  ∀ self m self' m',
    heap_inv (heap m) →
    iterations fuel n self 0 m = Ok (self', m') →
    heap_inv (heap m') ∧ same_config self self'.
Proof.
  induction n as [|n IH]; intros self m self' m' Hinv; simpl.
  - intros [<- <-]%mret_Ok. split; [done|apply same_config_refl].
  - intros ([[path cum] self1] & m1 & Hit & H)%bind_Ok.
    destruct (iterate_tail _ _ _ _ _ _ _ _ Hit) as (t & tn & _ & _ & ->).
    apply iterate_spec in Hit as [Hinv1 _]; [|done].
    apply IH in H as [Hinv' (c & it & ->)]; [|done].
    split; [done|]. apply same_config_set_output, same_config_recorded,
      same_config_refl.
Qed.

Lemma recorded_max_iter self (p : list nat) (c : R) (t : bool) :
  output_strategy self = "max_iter" →
  recorded self p c t
  = if t && float_gt (Fin c) (_output_cum_reward self)
    then set_output (Fin c) (Some p) self else self.
Proof.
  intros Hos. unfold recorded. rewrite Hos.
  destruct t, (float_gt (Fin c) (_output_cum_reward self)); simpl;
    rewrite ?Hos;
    repeat (case_bool_decide; simpl in *; try congruence).
Qed.

Lemma recorded_last_terminal_iter self (p : list nat) (c : R) (t : bool) :
  output_strategy self = "last_terminal_iter" →
  recorded self p c t = if t then set_output (Fin c) (Some p) self else self.
Proof.
  intros Hos. unfold recorded. rewrite Hos.
  destruct t; simpl; rewrite ?Hos;
    repeat (case_bool_decide; simpl in *; try congruence).
Qed.

(** The output candidate after a log of iterations, strategy [max_iter]. *)
Lemma max_iter_fold self (log : list (list nat * R * bool)) :
  output_strategy self = "max_iter" →
  _output_iter self = None →
  _output_cum_reward self = NegInf →
  let self' := foldl (fun s '(p, c, t) => recorded s p c t) self log in
  output_strategy self' = "max_iter"
  ∧ match _output_iter self' with
    | Some p =>
        ∃ c, (p, c, true) ∈ log ∧ _output_cum_reward self' = Fin c
             ∧ ∀ p' c', (p', c', true) ∈ log → (c' <= c)%R
    | None =>
        _output_cum_reward self' = NegInf
        ∧ ∀ p c t, (p, c, t) ∈ log → t = false
    end.
Proof.
  intros Hos Hit Hcum. induction log as [|[[p c] t] log IH] using rev_ind.
  - simpl. rewrite Hit. split_and!; [done..|].
    intros ??? []%elem_of_nil.
  - simpl. rewrite foldl_snoc.
    set (s := foldl _ self log) in *. destruct IH as [Hos' IH].
    rewrite recorded_max_iter by done.
    destruct t; cbn [andb].
    + destruct (float_gt (Fin c) (_output_cum_reward s)) eqn:Hgt; simpl.
      * split; [exact Hos'|]. exists c. split_and!; [|done|].
        { apply elem_of_app. right. apply list_elem_of_here. }
        intros p' c' [Hin|[= _ ->]%list_elem_of_singleton]%elem_of_app; [|lra].
        apply float_gt_true in Hgt.
        destruct (_output_iter s).
        -- destruct IH as (c0 & _ & Hc0 & Hmax). rewrite Hc0 in Hgt.
           simpl in Hgt. specialize (Hmax _ _ Hin). lra.
        -- destruct IH as [_ Hnone]. by apply Hnone in Hin.
      * split; [exact Hos'|].
        apply float_gt_false in Hgt.
        destruct (_output_iter s).
        -- destruct IH as (c0 & Hin0 & Hc0 & Hmax). rewrite Hc0 in Hgt.
           simpl in Hgt. exists c0. split_and!; [|done|].
           { apply elem_of_app. by left. }
           intros p' c' [Hin|[= _ ->]%list_elem_of_singleton]%elem_of_app;
             [by eapply Hmax|done].
        -- destruct IH as [Hc0 _]. by rewrite Hc0 in Hgt.
    + split; [exact Hos'|].
      destruct (_output_iter s).
      * destruct IH as (c0 & Hin0 & Hc0 & Hmax).
        exists c0. split_and!; [|done|].
        { apply elem_of_app. by left. }
        intros p' c' [Hin|[=]%list_elem_of_singleton]%elem_of_app.
        by eapply Hmax.
      * destruct IH as [Hc0 Hnone]. split; [exact Hc0|].
        intros p' c' t' [Hin|[= _ _ ->]%list_elem_of_singleton]%elem_of_app;
          [by eapply Hnone|done].
Qed.

(** The same for strategy [last_terminal_iter]. *)
Lemma last_terminal_iter_fold self (log : list (list nat * R * bool)) :
  output_strategy self = "last_terminal_iter" →
  _output_iter self = None →
  _output_cum_reward self = NegInf →
  let self' := foldl (fun s '(p, c, t) => recorded s p c t) self log in
  output_strategy self' = "last_terminal_iter"
  ∧ match _output_iter self' with
    | Some p =>
        ∃ c l1 l2, log = l1 ++ (p, c, true) :: l2
                   ∧ _output_cum_reward self' = Fin c
                   ∧ ∀ p' c' t', (p', c', t') ∈ l2 → t' = false
    | None =>
        _output_cum_reward self' = NegInf
        ∧ ∀ p c t, (p, c, t) ∈ log → t = false
    end.
Proof.
  intros Hos Hit Hcum. induction log as [|[[p c] t] log IH] using rev_ind.
  - simpl. rewrite Hit. split_and!; [done..|].
    intros ??? []%elem_of_nil.
  - simpl. rewrite foldl_snoc.
    set (s := foldl _ self log) in *. destruct IH as [Hos' IH].
    rewrite recorded_last_terminal_iter by done.
    destruct t; simpl.
    + split; [exact Hos'|]. exists c, log, []. split_and!; [done..|].
      intros ??? []%elem_of_nil.
    + split; [exact Hos'|]. destruct (_output_iter s).
      * destruct IH as (c0 & l1 & l2 & -> & Hc0 & Hrest).
        exists c0, l1, (l2 ++ [(p, c, false)]). split_and!; [|done|].
        { by rewrite <- app_assoc. }
        intros p' c' t' [Hin|[= _ _ ->]%list_elem_of_singleton]%elem_of_app;
          [by eapply Hrest|done].
      * destruct IH as [Hc0 Hnone]. split; [exact Hc0|].
        intros p' c' t' [Hin|[= _ _ ->]%list_elem_of_singleton]%elem_of_app;
          [by eapply Hnone|done].
Qed.

(** ** [search] and [__call__] *)

Lemma search_Ok (ed : Details) (fuel : nat) self m self' m' :
  heap m = [] →
  search ed fuel self m = Ok (self', m') →
  ∃ wm s0 w0 self1,
    world_model self = Some wm
    ∧ init_state wm (world m) = Some (s0, w0)
    ∧ iterations fuel (Z.to_nat (n_iters self)) (search_entry self) 0
        (mkMachine [fresh_root ed s0] w0) = Ok (self1, m')
    ∧ same_config (search_entry self) self1
    ∧ heap_inv (heap m')
    ∧ (if decide (output_strategy self = "follow_max") then
         ∃ out rewards,
           follow_max_loop fuel (heap m') [] 0 = Ok out
           ∧ map_o (fun i => reward <$> deref_in (heap m') i)
               (py_slice_1_rev out) = Ok rewards
           ∧ self' = set_output (cum_reward self rewards) (Some out) self1
       else if decide (output_strategy self = "max_reward") then
         ∃ c p,
           _dfs_max_reward fuel self1 (heap m') [0] = Ok (c, p)
           ∧ self' = set_output c (if is_neg_inf c then None else Some p) self1
       else self' = self1).
Proof.
  intros Hheap. unfold search. cbv zeta.
  intros (wm & m1 & [Hwm ->]%py_attr_Ok & H)%bind_Ok.
  apply bind_Ok in H as (s0 & m1 & [Hh1 Hinit]%await_Ok & H).
  apply bind_Ok in H as (r & m2 & Hroot & H).
  unfold MCTSNode__init__ in Hroot.
  apply bind_Ok in Hroot as (d & m3 & [<- <-]%mret_Ok & Hroot).
  unfold alloc in Hroot. rewrite Hh1, Hheap in Hroot. simpl in Hroot.
  injection Hroot as <- <-.
  apply bind_Ok in H as (self1 & m2 & Hiter & H).
  assert (iterations fuel (Z.to_nat (n_iters self)) (search_entry self) 0
            (mkMachine [fresh_root ed s0] (world m1)) = Ok (self1, m2))
    as Hiter'.
  { unfold search_entry, fresh_root. simpl in *.
    destruct (output_trace_in_each_iter self); exact Hiter. }
  clear Hiter. rename Hiter' into Hiter.
  pose proof Hiter as Hiter2.
  apply iterations_inv in Hiter2 as [Hinv Hcfg]; [|apply heap_inv_fresh].
  assert (output_strategy self1 = output_strategy self
          ∧ cum_reward self1 = cum_reward self) as [Hos Hcr].
  { destruct Hcfg as (c & it & ->). unfold search_entry. simpl.
    by destruct (output_trace_in_each_iter self). }
  exists wm, s0, (world m1), self1.
  apply bind_Ok in H as (self2 & m3 & Hfm & H).
  rewrite Hos in Hfm.
  assert (output_strategy self2 = output_strategy self ∧ m3 = m2
          ∧ if decide (output_strategy self = "follow_max") then
              ∃ out rewards,
                follow_max_loop fuel (heap m2) [] 0 = Ok out
                ∧ map_o (fun i => reward <$> deref_in (heap m2) i)
                    (py_slice_1_rev out) = Ok rewards
                ∧ self2 = set_output (cum_reward self rewards) (Some out) self1
            else self2 = self1) as (Hos2 & -> & Hself2).
  { destruct (decide (output_strategy self = "follow_max")) as [Hfmb|Hfmb].
    - rewrite bool_decide_eq_true_2 in Hfm by done.
      apply bind_Ok in Hfm as (σ & m4 & [-> ->]%get_heap_Ok & Hfm).
      apply bind_Ok in Hfm as (out & m4 & [Hout ->]%lift_Ok & Hfm).
      apply bind_Ok in Hfm as (rs & m4 & [Hrs ->]%lift_Ok & Hfm).
      apply mret_Ok in Hfm as [<- <-]. rewrite Hcr.
      split_and!; [done..|]. eauto.
    - rewrite bool_decide_eq_false_2 in Hfm by done.
      by apply mret_Ok in Hfm as [<- <-]. }
  rewrite Hos2 in H.
  destruct (decide (output_strategy self = "max_reward")) as [Hmr|Hmr].
  - rewrite bool_decide_eq_true_2 in H by done.
    apply bind_Ok in H as (σ & m4 & [-> ->]%get_heap_Ok & H).
    apply bind_Ok in H as ([c p] & m4 & [Hdfs ->]%lift_Ok & H).
    apply mret_Ok in H as [<- <-].
    rewrite decide_False in Hself2 by (rewrite Hmr; done). subst self2.
    split_and!; try done.
    rewrite decide_False by (rewrite Hmr; done). eauto.
  - rewrite bool_decide_eq_false_2 in H by done.
    apply mret_Ok in H as [<- <-]. split_and!; try done.
Qed.

Lemma MCTS__call___Ok (ed : Details) (fuel : nat) self (wm : model)
    (sc : config) m (res : MCTSResult) self' m' :
  MCTS__call__ ed fuel self wm sc m = Ok (res, self', m') →
  search ed fuel (set_collaborators wm sc self) (mkMachine [] (world m))
  = Ok (self', m')
  ∧ trace_of_nodes res = _output_iter self'
  ∧ res_cum_reward res = _output_cum_reward self'
  ∧ tree_state res = root self'
  ∧ match _output_iter self' with
    | None => terminal_state res = None ∧ trace res = None
    | Some it =>
        ∃ t tn states actions,
          last it = Some t ∧ heap m' !! t = Some tn
          ∧ terminal_state res = state tn
          ∧ trace res = Some (states, actions)
    end
  ∧ (if output_trace_in_each_iter self' then
       ∃ traces firsts,
         trace_in_each_iter self' = Some traces
         ∧ map_o py_first traces = Ok firsts
         ∧ res_trace_in_each_iter res = Some traces
         ∧ tree_state_after_each_iter res = Some firsts
     else res_trace_in_each_iter res = None
          ∧ tree_state_after_each_iter res = None).
Proof.
  unfold MCTS__call__. cbv zeta.
  intros ([] & m1 & Hreset & H)%bind_Ok.
  unfold reset_id in Hreset. injection Hreset as <-.
  apply bind_Ok in H as (self1 & m2 & Hsearch & H).
  apply bind_Ok in H as (σ & m3 & [-> ->]%get_heap_Ok & H).
  apply bind_Ok in H as ([ts tr] & m3 & Hout & H).
  apply bind_Ok in H as ([tiei tsaei] & m4 & Htr & H).
  apply bind_Ok in H as (agg & m5 & Hagg & H).
  apply mret_Ok in H as [[= <- <-] <-]. simpl.
  assert (m3 = m2 ∧
          match _output_iter self1 with
          | None => ts = None ∧ tr = None
          | Some it =>
              ∃ t tn states actions,
                last it = Some t ∧ heap m2 !! t = Some tn
                ∧ ts = state tn ∧ tr = Some (states, actions)
          end) as [-> Hts].
  { destruct (_output_iter self1) as [it|].
    - apply bind_Ok in Hout as (t & m6 & [Ht%py_last_Ok ->]%lift_Ok & Hout).
      apply bind_Ok in Hout as (tn & m6 & [Htn ->]%deref_Ok & Hout).
      apply bind_Ok in Hout as (sts & m6 & [Hsts ->]%lift_Ok & Hout).
      apply bind_Ok in Hout as (acts & m6 & [Hacts ->]%lift_Ok & Hout).
      apply mret_Ok in Hout as [[= <- <-] <-]. split; [done|].
      by exists t, tn, sts, acts.
    - by apply mret_Ok in Hout as [[= <- <-] <-]. }
  assert (m4 = m2 ∧
          if output_trace_in_each_iter self1 then
            ∃ traces firsts,
              trace_in_each_iter self1 = Some traces
              ∧ map_o py_first traces = Ok firsts
              ∧ tiei = Some traces ∧ tsaei = Some firsts
          else tiei = None ∧ tsaei = None) as [-> Htiei].
  { destruct (output_trace_in_each_iter self1).
    - destruct (trace_in_each_iter self1) as [traces|]; [|done].
      apply bind_Ok in Htr as (firsts & m6 & [Hf ->]%lift_Ok & Htr).
      apply mret_Ok in Htr as [[= <- <-] <-]. split; [done|].
      by exists traces, firsts.
    - by apply mret_Ok in Htr as [[= <- <-] <-]. }
  assert (m5 = m2) as ->.
  { destruct (aggregator self1).
    - apply bind_Ok in Hagg as (r & m6 & [_ ->]%py_attr_Ok & Hagg).
      by apply lift_Ok in Hagg as [_ ->].
    - by apply mret_Ok in Hagg as [_ <-]. }
  split_and!; done.
Qed.

(** ** Output strategies fed by the iterations *)

Lemma search_entry_fields self :
  output_strategy (search_entry self) = output_strategy self
  ∧ _output_iter (search_entry self) = None
  ∧ _output_cum_reward (search_entry self) = NegInf
  ∧ cum_reward (search_entry self) = cum_reward self
  ∧ output_trace_in_each_iter (search_entry self)
    = output_trace_in_each_iter self
  ∧ root (search_entry self) = Some 0
  ∧ trace_in_each_iter (search_entry self)
    = if output_trace_in_each_iter self then Some []
      else trace_in_each_iter self.
Proof.
  unfold search_entry. simpl.
  destruct (output_trace_in_each_iter self) eqn:E; simpl; rewrite ?E; done.
Qed.

(** ** The iterations of a run, phase by phase *)

Lemma _select_loop_settings (fuel : nat) (a b : engine) :
  same_settings a b → _select_loop fuel a = _select_loop fuel b.
Proof.
  intros (Hwm & Hsc & Hw & Hdl & Hch).
  induction fuel as [|fuel IH]; [done|].
  destruct a, b; simpl in *; subst. rewrite IH. reflexivity.
Qed.

Lemma _expand_settings (a b : engine) :
  same_settings a b → _expand a = _expand b.
Proof.
  intros (Hwm & Hsc & Hw & Hdl & Hch).
  destruct a, b; simpl in *; subst. reflexivity.
Qed.

Lemma _simulate_loop_settings (fuel : nat) (a b : engine) :
  same_settings a b → _simulate_loop fuel a = _simulate_loop fuel b.
Proof.
  intros Hab. pose proof (_expand_settings a b Hab) as Hexp.
  destruct Hab as (Hwm & Hsc & Hw & Hdl & Hch).
  induction fuel as [|fuel IH]; [done|].
  simpl. rewrite IH, Hexp.
  unfold _is_terminal_with_depth_limit. rewrite Hdl, Hch. reflexivity.
Qed.

Lemma iteration_settings (fuel : nat) (a b : engine) m (p : list nat) (c : R)
    (t : bool) m' :
  same_settings a b →
  iteration fuel a m p c t m' → iteration fuel b m p c t m'.
Proof.
  intros Hab (path & m1 & tail & tn & m2 & leaf & ln & Hsel & Hlast & Htn
              & Hmid & Hrest).
  exists path, m1, tail, tn, m2, leaf, ln.
  unfold _select, _simulate in *.
  rewrite <- (_select_loop_settings fuel a b Hab),
    <- (_simulate_loop_settings fuel a b Hab), <- (_expand_settings a b Hab).
  destruct Hab as (_ & _ & _ & Hdl & _).
  unfold _is_terminal_with_depth_limit in *. rewrite <- Hdl. done.
Qed.

Lemma iterations_trace_settings (fuel : nat) (a b : engine) m
    (log : list (list nat * R * bool)) m' :
  same_settings a b →
  iterations_trace fuel a m log m' → iterations_trace fuel b m log m'.
Proof.
  intros Hab. induction 1 as [|m p c t m1 log m' Hit _ IH]; [constructor|].
  econstructor; [|done]. by eapply iteration_settings.
Qed.

Lemma same_settings_recorded self (p : list nat) (c : R) (t : bool) :
  same_settings (recorded self p c t) self.
Proof.
  destruct (same_config_recorded self self p c t (same_config_refl self))
    as (c' & it & ->). done.
Qed.

Lemma same_settings_search_entry self :
  same_settings (search_entry self) self.
Proof.
  unfold search_entry, same_settings. simpl.
  by destruct (output_trace_in_each_iter self).
Qed.

(** [iterate] is the chain of its phases, followed by the update of the
    output candidate. *)
Lemma iterate_phases (fuel : nat) self m (path : list nat) (cum : R) self' m' :
  iterate fuel self 0 m = Ok (path, cum, self', m') →
  ∃ (leaf : nat) ln,
    last path = Some leaf ∧ heap m' !! leaf = Some ln
    ∧ iteration fuel self m path cum (is_terminal ln) m'
    ∧ self' = recorded self path cum (is_terminal ln).
Proof.
  intros Hit.
  destruct (iterate_tail _ _ _ _ _ _ _ _ Hit) as (leaf & ln & Hleaf & Hln & ->).
  exists leaf, ln. split_and!; [done..| |done].
  unfold iterate in Hit.
  apply bind_Ok in Hit as (path0 & m1 & Hsel & H).
  apply bind_Ok in H as (tail & m2 & [Htail%py_last_Ok ->]%lift_Ok & H).
  apply bind_Ok in H as (tn & m2 & [Htn ->]%deref_Ok & H).
  apply bind_Ok in H as (path1 & m2 & Hmid & H).
  apply bind_Ok in H as (cum1 & m3 & Hbp & H).
  apply bind_Ok in H as (leaf' & m4 & [Hleaf'%py_last_Ok ->]%lift_Ok & H).
  apply bind_Ok in H as (ln' & m4 & [Hln' ->]%deref_Ok & H).
  apply mret_Ok in H as [[= <- <-] <-].
  exists path0, m1, tail, tn, m2, leaf, ln. split_and!; try done.
  destruct (_is_terminal_with_depth_limit self tn); simpl in Hmid.
  - by apply mret_Ok in Hmid as [<- <-].
  - apply bind_Ok in Hmid as ([] & m1' & Hexp & Hsim). eauto.
Qed.

Lemma iterations_log_trace (fuel : nat) (n : nat) :
  ∀ self m (log : list (list nat * R * bool)) self' m',
    iterations_log fuel n self 0 m = Ok (log, self', m') →
    iterations_trace fuel self m log m'.
Proof.
  induction n as [|n IH]; intros self m log self' m'; simpl.
  - intros [[= <- <-] <-]%mret_Ok. constructor.
  - intros ([[path cum] self1] & m1 & Hit & H)%bind_Ok.
    destruct (iterate_phases _ _ _ _ _ _ _ Hit)
      as (leaf & ln & Hleaf & Hln & Hiter & ->).
    apply bind_Ok in H as (t' & m2 & [Ht'%py_last_Ok ->]%lift_Ok & H).
    apply bind_Ok in H as (tn' & m2 & [Htn' ->]%deref_Ok & H).
    apply bind_Ok in H as ([log' self2] & m2 & Hlog & H).
    apply mret_Ok in H as [[= <- <-] <-].
    rewrite Hleaf in Ht'. injection Ht' as <-.
    rewrite Hln in Htn'. injection Htn' as <-.
    econstructor; [done|].
    eapply iterations_trace_settings; [apply same_settings_recorded|].
    by eapply IH.
Qed.

(** C5.  For a completed run of the engine there is a log of its
    iterations, one entry per iteration in order.  Each entry is an
    iteration phase by phase ([iterations_trace]): its path is the one that
    selection and simulation built and that was back-propagated, its value
    is what [_back_propagate] returned for that path, and its flag tells
    whether the last node of the path is terminal; it is also what
    [iterations_log] records of the calls of [iterate].  With [max_iter]
    the selected path is a terminal-ending path of the log whose value is
    maximal among the terminal-ending ones; with [last_terminal_iter] it is
    the path of the last terminal-ending entry of the log.  In both cases
    nothing is selected exactly when no iteration ended in a terminal
    node. *)
Theorem output_strategy_consistency (ed : Details) (fuel : nat) self
    (wm : model) (sc : config) m (res : MCTSResult) self' m' :
  MCTS__call__ ed fuel self wm sc m = Ok (res, self', m') →
  ∃ s0 w0 log self1,
    init_state wm (world m) = Some (s0, w0)
    ∧ iterations_log fuel (Z.to_nat (n_iters self))
        (search_entry (set_collaborators wm sc self)) 0
        (mkMachine [fresh_root ed s0] w0) = Ok (log, self1, m')
    ∧ iterations_trace fuel (set_collaborators wm sc self)
        (mkMachine [fresh_root ed s0] w0) log m'
    ∧ length log = Z.to_nat (n_iters self)
    ∧ (output_strategy self = "max_iter" →
       match trace_of_nodes res with
       | Some p =>
           ∃ c, (p, c, true) ∈ log ∧ res_cum_reward res = Fin c
                ∧ ∀ p' c', (p', c', true) ∈ log → (c' <= c)%R
       | None => ∀ p c t, (p, c, t) ∈ log → t = false
       end)
    ∧ (output_strategy self = "last_terminal_iter" →
       match trace_of_nodes res with
       | Some p =>
           ∃ c l1 l2, log = l1 ++ (p, c, true) :: l2
                      ∧ res_cum_reward res = Fin c
                      ∧ ∀ p' c' t', (p', c', t') ∈ l2 → t' = false
       | None => ∀ p c t, (p, c, t) ∈ log → t = false
       end).
Proof.
  intros (Hsearch & Htr & Hcum & _)%MCTS__call___Ok.
  apply search_Ok in Hsearch
    as (wm' & s0 & w0 & self1 & Hwm & Hinit & Hiter & _ & _ & Hpost); [|done].
  simpl in *. simplify_eq.
  apply iterations_log_Ok in Hiter as (log & Hlog & Hlen).
  exists s0, w0, log, self1. split_and!; [done..| |done| |].
  - eapply iterations_trace_settings; [apply same_settings_search_entry|].
    by eapply iterations_log_trace.
  - intros Hos. rewrite decide_False, decide_False in Hpost
      by (rewrite Hos; done). subst self'.
    rewrite Htr, Hcum.
    apply iterations_log_outputs in Hlog as ->.
    destruct (search_entry_fields (set_collaborators wm' sc self))
      as (Hos0 & Hit0 & Hcum0 & _).
    edestruct (max_iter_fold (search_entry (set_collaborators wm' sc self)) log)
      as [_ Hfold]; [by rewrite Hos0|done..|].
    destruct (_output_iter _); [done|]. by destruct Hfold.
  - intros Hos. rewrite decide_False, decide_False in Hpost
      by (rewrite Hos; done). subst self'.
    rewrite Htr, Hcum.
    apply iterations_log_outputs in Hlog as ->.
    destruct (search_entry_fields (set_collaborators wm' sc self))
      as (Hos0 & Hit0 & Hcum0 & _).
    edestruct (last_terminal_iter_fold
                 (search_entry (set_collaborators wm' sc self)) log)
      as [_ Hfold]; [by rewrite Hos0|done..|].
    destruct (_output_iter _); [done|]. by destruct Hfold.
Qed.

(** ** Depth-first search for the best terminal path *)

Lemma map_o_Forall2 {A B} (f : A → outcome B) (l : list A) :
  ∀ ys, map_o f l = Ok ys → Forall2 (fun x y => f x = Ok y) l ys.
Proof.
  induction l as [|x l IH]; simpl; intros ys.
  - intros [= <-]. constructor.
  - intros (y & Hy & H)%outcome_bind_Ok.
    apply outcome_bind_Ok in H as (ys' & Hys & [= <-]).
    constructor; auto.
Qed.

Lemma map_o_rewards σ (l : list nat) (rs : list R) :
  map_o (fun i => reward <$> deref_in σ i) l = Ok rs → rs = rewards_of σ l.
Proof.
  revert rs. induction l as [|x l IH]; simpl; intros rs.
  - by intros [= <-].
  - intros (y & Hy & H)%outcome_bind_Ok.
    apply outcome_bind_Ok in H as (ys' & Hys & [= <-]).
    apply outcome_fmap_Ok in Hy as (nd & Hnd%deref_in_Ok & ->).
    unfold rewards_of. simpl. rewrite Hnd. simpl. f_equal. by apply IH.
Qed.

Lemma visited_children_spec σ (cs : list nat) (nodes : list (nat * node))
    (b : nat) :
  map_o (fun x => xn ← deref_in σ x; Ok (x, xn)) cs = Ok nodes →
  b ∈ (filter (fun x => state x.2 ≠ None) nodes).*1
  ↔ b ∈ cs ∧ ∃ bn, σ !! b = Some bn ∧ state bn ≠ None.
Proof.
  intros Hnodes%map_o_Forall2.
  assert (Forall2 (fun x y => y.1 = x ∧ σ !! x = Some y.2) cs nodes) as HF.
  { eapply Forall2_impl; [done|]. intros x y.
    intros (xn & Hx%deref_in_Ok & [= <-])%outcome_bind_Ok. done. }
  clear Hnodes. split.
  - intros ([b' bn] & -> & [Hst Hin]%list_elem_of_filter)%list_elem_of_fmap.
    apply list_elem_of_lookup_1 in Hin as [i Hi].
    destruct (Forall2_lookup_r _ _ _ _ _ HF Hi) as (x & Hx & <- & Hσ).
    simpl in *. split; [by eapply list_elem_of_lookup_2|]. eauto.
  - intros [Hin (bn & Hbn & Hst)].
    apply list_elem_of_lookup_1 in Hin as [i Hi].
    destruct (Forall2_lookup_l _ _ _ _ _ HF Hi) as ([b' bn'] & Hy & Hb & Hσ).
    simpl in *. simplify_eq.
    apply list_elem_of_fmap. exists (b, bn). split; [done|].
    apply list_elem_of_filter. split; [done|].
    by eapply list_elem_of_lookup_2.
Qed.

Lemma float_le_NegInf (a : float) : float_le a NegInf → a = NegInf.
Proof. by destruct a. Qed.

Lemma terminal_no_child (pending : list nat) σ (a : nat) an (b : nat) :
  heap_inv_upto pending σ → σ !! a = Some an → is_terminal an = true →
  ¬ is_child σ a b.
Proof.
  intros Hinv Ha Ht (an' & cs & Ha' & Hcs & _). simplify_eq.
  destruct (inv_expanded _ _ Hinv a an Ha) as (_ & _ & Hf); [by rewrite Hcs|].
  congruence.
Qed.

Lemma _dfs_max_reward_spec self σ :
  heap_inv σ →
  ∀ (fuel : nat) (path : list nat) (cur : nat) (c : float) (p : list nat),
    last path = Some cur →
    _dfs_max_reward fuel self σ path = Ok (c, p) →
    (c = NegInf
     ∧ ∀ q, terminal_path σ cur q →
            cum_reward self (rewards_of σ (py_tail (path ++ q))) = NegInf)
    ∨ (∃ q, terminal_path σ cur q ∧ p = path ++ q
            ∧ c = cum_reward self (rewards_of σ (py_tail p))
            ∧ ∀ q', terminal_path σ cur q' →
                    float_le (cum_reward self (rewards_of σ (py_tail (path ++ q'))))
                             c).
Proof.
  intros Hinv. induction fuel as [|fuel IH]; intros path cur c p Hlast; [done|].
  simpl. unfold py_last. rewrite Hlast. simpl.
  intros (cn & Hcn%deref_in_Ok & H)%outcome_bind_Ok.
  destruct (is_terminal cn) eqn:Hterm.
  { apply outcome_bind_Ok in H as (rs & ->%map_o_rewards & [= <- <-]).
    right. exists []. rewrite app_nil_r. split_and!; [by exists cn|done..|].
    intros [|b q'] Hq'; [rewrite app_nil_r; apply float_le_refl|].
    destruct Hq' as (Hchild & _). by eapply terminal_no_child in Hchild. }
  assert (¬ terminal_path σ cur []) as Hnil.
  { intros (an & Han & Ht). congruence. }
  destruct (children cn) as [cs|] eqn:Hcs.
  2:{ injection H as <- <-. left. split; [done|].
      intros [|b q] Hq; [done|]. destruct Hq as ((an & cs & ? & ? & _) & _).
      congruence. }
  apply outcome_bind_Ok in H as (nodes & Hnodes & H).
  pose proof (visited_children_spec σ cs nodes) as Hvis.
  set (visited := (filter _ nodes).*1) in *.
  assert (∀ b q, terminal_path σ cur (b :: q) → b ∈ visited) as Hfirst.
  { intros b q ((an & cs' & ? & ? & Hb) & Hres & _). simplify_eq.
    apply Hvis; [done|]. done. }
  case_bool_decide as Hlen.
  { injection H as <- <-. left. split; [done|].
    intros [|b q] Hq; [done|]. apply Hfirst in Hq.
    apply nil_length_inv in Hlen. rewrite Hlen in Hq.
    by apply elem_of_nil in Hq. }
  apply outcome_bind_Ok in H as (results & Hres%map_o_Forall2 & H).
  destruct (py_max_key_spec (fun x : float * list nat => Ok x.1) fst results)
    as (best & Hbest & Hin & Hmax); [|done|].
  { intros ->. apply Forall2_nil_inv_r in Hres. by rewrite Hres in Hlen. }
  rewrite Hbest in H. injection H as ->.
  assert (∀ q', terminal_path σ cur q' →
            float_le (cum_reward self (rewards_of σ (py_tail (path ++ q')))) c)
    as Hbound.
  { intros [|b q1] Hq; [done|].
    pose proof (Hfirst _ _ Hq) as Hb.
    apply list_elem_of_lookup_1 in Hb as [i Hi].
    destruct (Forall2_lookup_l _ _ _ _ _ Hres Hi) as ([cb pb] & Hrb & Hdfs).
    apply (IH _ b) in Hdfs; [|by rewrite last_snoc].
    destruct Hq as (_ & _ & Hq1).
    eapply float_le_trans;
      [|apply (Hmax (cb, pb)); by eapply list_elem_of_lookup_2].
    replace (path ++ b :: q1) with ((path ++ [b]) ++ q1)
      by by rewrite <- app_assoc.
    destruct Hdfs as [[-> Hall]|(_ & _ & _ & _ & Hall)].
    - by rewrite (Hall _ Hq1).
    - by apply Hall. }
  apply list_elem_of_lookup_1 in Hin as [i Hi].
  destruct (Forall2_lookup_r _ _ _ _ _ Hres Hi) as (b & Hb & Hdfs).
  apply (IH _ b) in Hdfs; [|by rewrite last_snoc].
  destruct Hdfs as [[-> _]|(q & Hq & -> & Hc & _)].
  - left. split; [done|]. intros q Hq. by apply float_le_NegInf, Hbound.
  - right. exists (b :: q). split_and!; [|by rewrite <- app_assoc|done..].
    apply list_elem_of_lookup_2, Hvis in Hb as [Hbcs Hbres]; [|done].
    split_and!; [by exists cn, cs|done..].
Qed.

(** C4.  With [max_reward]: when the final tree has no path from the root
    through resolved nodes to a terminal node, the result has no terminal
    state, no trace, and [cum_reward] is minus infinity; otherwise
    [cum_reward] is the largest value the reducer takes on the rewards of
    such a path, the root excluded. *)
Theorem max_reward_output (ed : Details) (fuel : nat) self (wm : model)
    (sc : config) m (res : MCTSResult) self' m' :
  MCTS__call__ ed fuel self wm sc m = Ok (res, self', m') →
  output_strategy self = "max_reward" →
  ((∀ q, ¬ terminal_path (heap m') 0 q) →
     terminal_state res = None ∧ trace res = None
     ∧ res_cum_reward res = NegInf)
  ∧ ((∃ q, terminal_path (heap m') 0 q) →
       (∃ q, terminal_path (heap m') 0 q
             ∧ res_cum_reward res = cum_reward self (rewards_of (heap m') q))
       ∧ ∀ q, terminal_path (heap m') 0 q →
              float_le (cum_reward self (rewards_of (heap m') q))
                       (res_cum_reward res)).
Proof.
  intros (Hsearch & Htr & Hcum & _ & Hout & _)%MCTS__call___Ok Hos.
  apply search_Ok in Hsearch
    as (wm' & s0 & w0 & self1 & _ & _ & _ & Hcfg & Hinv & Hpost); [|done].
  simpl in Hpost.
  rewrite decide_False in Hpost by (rewrite Hos; done).
  rewrite decide_True in Hpost by done.
  destruct Hpost as (c & p & Hdfs & ->). simpl in *.
  assert (cum_reward self1 = cum_reward self) as Hcr.
  { destruct Hcfg as (c' & it & ->). simpl.
    by destruct (search_entry_fields (set_collaborators wm sc self))
      as (_ & _ & _ & -> & _). }
  apply (_dfs_max_reward_spec _ _ Hinv _ _ 0) in Hdfs; [|done].
  rewrite Hcr in Hdfs. rewrite Hcum. split.
  - intros Hnone. destruct Hdfs as [[-> _]|(q & Hq & _)].
    + by destruct Hout.
    + by apply Hnone in Hq.
  - intros [q0 Hq0]. destruct Hdfs as [[-> Hall]|(q & Hq & -> & -> & Hall)].
    + split.
      * exists q0. split; [done|]. by rewrite <- (Hall q0 Hq0).
      * intros q Hq. pose proof (Hall q Hq) as E.
        change (py_tail ([0] ++ q)) with q in E. by rewrite E.
    + split; [by exists q|]. intros q' Hq'. by apply Hall.
Qed.

(** ** Output strategies that the iterations do not feed *)

Lemma recorded_other self (p : list nat) (c : R) (t : bool) :
  output_strategy self ∉ ["max_iter"; "last_iter"; "last_terminal_iter"] →
  recorded self p c t = self.
Proof.
  intros Hos. unfold recorded.
  rewrite (bool_decide_eq_false_2 (output_strategy self = "max_iter")).
  2:{ intros E. apply Hos. rewrite E. apply list_elem_of_here. }
  simpl.
  rewrite (bool_decide_eq_false_2 (output_strategy self = "last_iter")).
  2:{ intros E. apply Hos. rewrite E.
      apply list_elem_of_further, list_elem_of_here. }
  rewrite (bool_decide_eq_false_2 (output_strategy self = "last_terminal_iter")).
  2:{ intros E. apply Hos. rewrite E.
      do 2 apply list_elem_of_further. apply list_elem_of_here. }
  done.
Qed.

Lemma iterations_other (fuel : nat) (n : nat) (r : nat) :
  ∀ self m self' m',
    output_strategy self ∉ ["max_iter"; "last_iter"; "last_terminal_iter"] →
    iterations fuel n self r m = Ok (self', m') → self' = self.
Proof.
  induction n as [|n IH]; intros self m self' m' Hos; simpl.
  - by intros [<- _]%mret_Ok.
  - intros ([[path cum] self1] & m1 & Hit & H)%bind_Ok.
    destruct (iterate_tail _ _ _ _ _ _ _ _ Hit) as (t & tn & _ & _ & ->).
    rewrite recorded_other in H by done. by apply IH in H.
Qed.

(** With [max_visit] nothing is ever selected: the strategy is accepted by
    the constructor but no code computes its output. *)
Lemma max_visit_no_output (ed : Details) (fuel : nat) self (wm : model)
    (sc : config) m (res : MCTSResult) self' m' :
  MCTS__call__ ed fuel self wm sc m = Ok (res, self', m') →
  output_strategy self = "max_visit" →
  trace_of_nodes res = None ∧ terminal_state res = None ∧ trace res = None
  ∧ res_cum_reward res = NegInf.
Proof.
  intros (Hsearch & Htr & Hcum & _ & Hout & _)%MCTS__call___Ok Hos.
  apply search_Ok in Hsearch
    as (wm' & s0 & w0 & self1 & _ & _ & Hiter & _ & _ & Hpost); [|done].
  simpl in Hpost. rewrite decide_False, decide_False in Hpost
    by (rewrite Hos; done). subst self1.
  destruct (search_entry_fields (set_collaborators wm sc self))
    as (Hos0 & Hit0 & Hcum0 & _).
  apply iterations_other in Hiter.
  2:{ rewrite Hos0. simpl. rewrite Hos.
      rewrite !elem_of_cons, elem_of_nil. intros [|[|[|]]]; done. }
  subst self'. rewrite Hit0 in *. rewrite Htr, Hcum, Hcum0.
  by destruct Hout.
Qed.

(** The per-iteration traces stay empty whatever the number of iterations:
    the statement that appends to them is commented out in [search]. *)
Lemma trace_in_each_iter_empty (ed : Details) (fuel : nat) self (wm : model)
    (sc : config) m (res : MCTSResult) self' m' :
  MCTS__call__ ed fuel self wm sc m = Ok (res, self', m') →
  output_trace_in_each_iter self = true →
  res_trace_in_each_iter res = Some []
  ∧ tree_state_after_each_iter res = Some [].
Proof.
  intros (Hsearch & _ & _ & _ & _ & Htiei)%MCTS__call___Ok Hflag.
  apply search_Ok in Hsearch
    as (wm' & s0 & w0 & self1 & _ & _ & _ & Hcfg & _ & Hpost); [|done].
  destruct (search_entry_fields (set_collaborators wm sc self))
    as (_ & _ & _ & _ & Hfl & _ & Htr).
  simpl in Hfl, Htr. rewrite Hflag in *.
  assert (output_trace_in_each_iter self' = true
          ∧ trace_in_each_iter self' = Some []) as [Hfl' Htr'].
  { destruct Hcfg as (c & it & ->).
    repeat case_decide; [destruct Hpost as (? & ? & _ & _ & ->)
                        |destruct Hpost as (? & ? & _ & ->)
                        |subst self']; simpl; by rewrite ?Hfl, ?Htr. }
  rewrite Hfl' in Htiei. destruct Htiei as (traces & firsts & Ht & Hf & -> & ->).
  rewrite Htr' in Ht. simplify_eq. simpl in Hf. by simplify_eq.
Qed.

(** With [follow_max] the stored [cum_reward] is the reducer applied to the
    rewards of the slice [[1::-1]] of the followed path: its second node (if
    any) and the root. *)
Lemma follow_max_cum_reward (ed : Details) (fuel : nat) self (wm : model)
    (sc : config) m (res : MCTSResult) self' m' :
  MCTS__call__ ed fuel self wm sc m = Ok (res, self', m') →
  output_strategy self = "follow_max" →
  ∃ out,
    follow_max_loop fuel (heap m') [] 0 = Ok out
    ∧ trace_of_nodes res = Some out
    ∧ res_cum_reward res
      = cum_reward self (rewards_of (heap m') (py_slice_1_rev out)).
Proof.
  intros (Hsearch & Htr & Hcum & _)%MCTS__call___Ok Hos.
  apply search_Ok in Hsearch
    as (wm' & s0 & w0 & self1 & _ & _ & _ & _ & _ & Hpost); [|done].
  simpl in Hpost. rewrite decide_True in Hpost by done.
  destruct Hpost as (out & rs & Hout & ->%map_o_rewards & ->).
  exists out. by rewrite Htr, Hcum.
Qed.

(** ** Fuel: the loops and tree walks never run out of it *)

Lemma bind_halts {A B} (c : M A) (f : A → M B) m :
  c m ≠ OutOfFuel →
  (∀ a m1, c m = Ok (a, m1) → f a m1 ≠ OutOfFuel) →
  (c ≫= f) m ≠ @OutOfFuel (B * mach).
Proof.
  unfold mbind, M_bind. destruct (c m) as [[a m1]| |]; [|done..]. auto.
Qed.

Lemma outcome_bind_halts {A B} (o : outcome A) (f : A → outcome B) :
  o ≠ OutOfFuel →
  (∀ a, o = Ok a → f a ≠ OutOfFuel) →
  o ≫= f ≠ OutOfFuel.
Proof. unfold mbind, outcome_bind. destruct o; [|done..]. auto. Qed.

Lemma outcome_fmap_halts {A B} (o : outcome A) (f : A → B) :
  o ≠ OutOfFuel → f <$> o ≠ OutOfFuel.
Proof. unfold fmap, outcome_fmap. by destruct o. Qed.

Lemma deref_halts (i : nat) m : deref i m ≠ OutOfFuel.
Proof. unfold deref. by destruct (heap m !! i). Qed.

Lemma deref_in_halts σ (i : nat) : deref_in σ i ≠ OutOfFuel.
Proof. unfold deref_in. by destruct (σ !! i). Qed.

Lemma modify_halts (i : nat) (f : node → node) m : modify i f m ≠ OutOfFuel.
Proof. unfold modify. by destruct (heap m !! i). Qed.

Lemma await_halts {A} (f : World → option (A * World)) m :
  await (State:=State) (Action:=Action) (Details:=Details) f m ≠ OutOfFuel.
Proof. unfold await. by destruct (f (world m)) as [[? ?]|]. Qed.

Lemma py_attr_halts {A} (x : option A) m :
  py_attr (State:=State) (Action:=Action) (Details:=Details) (World:=World)
    x m ≠ OutOfFuel.
Proof. by destruct x. Qed.

Lemma lift_halts {A} (o : outcome A) m :
  o ≠ OutOfFuel →
  lift (State:=State) (Action:=Action) (Details:=Details) (World:=World)
    o m ≠ OutOfFuel.
Proof. unfold lift. by destruct o. Qed.

Lemma py_last_halts {A} (l : list A) : py_last l ≠ OutOfFuel.
Proof. unfold py_last. by destruct (last l). Qed.

Lemma py_first_halts {A} (l : list A) : py_first l ≠ OutOfFuel.
Proof. by destruct l. Qed.

Lemma py_index_halts {A} (l : list A) (i : Z) : py_index l i ≠ OutOfFuel.
Proof. unfold py_index. destruct (_ <? _)%Z; [done|]. by destruct (l !! _). Qed.

Lemma map_o_halts {A B} (f : A → outcome B) (l : list A) :
  (∀ x, x ∈ l → f x ≠ OutOfFuel) → map_o f l ≠ OutOfFuel.
Proof.
  induction l as [|x l IH]; intros Hf; simpl; [done|].
  apply outcome_bind_halts; [apply Hf, list_elem_of_here|]. intros y _.
  apply outcome_bind_halts; [|done].
  apply IH. intros z Hz. by apply Hf, list_elem_of_further.
Qed.

Lemma py_max_key_halts {A} (key : A → outcome float) (l : list A) :
  (∀ x, key x ≠ OutOfFuel) → py_max_key key l ≠ OutOfFuel.
Proof.
  intros Hkey.
  assert (∀ l best kbest, py_max_from key best kbest l ≠ OutOfFuel) as Hfrom.
  { clear l. induction l as [|x l IH]; intros best kbest; simpl; [done|].
    apply outcome_bind_halts; [done|]. intros k _. by destruct (float_gt _ _). }
  destruct l as [|x l]; simpl; [done|].
  apply outcome_bind_halts; [done|]. auto.
Qed.

Lemma _uct_halts self σ (c : nat) : _uct self σ c ≠ OutOfFuel.
Proof.
  unfold _uct. apply outcome_bind_halts; [apply deref_in_halts|].
  intros nd _. destruct (parent nd); [|done].
  apply outcome_bind_halts; [apply deref_in_halts|]. intros pn _.
  apply outcome_bind_halts.
  { unfold math_log. by case_decide. }
  intros l _. apply outcome_bind_halts; [|done].
  unfold math_sqrt. by destruct (Rlt_dec _ _).
Qed.

Lemma _uct_select_halts self σ (p : nat) : _uct_select self σ p ≠ OutOfFuel.
Proof.
  unfold _uct_select. apply outcome_bind_halts; [apply deref_in_halts|].
  intros nd _. destruct (children nd) as [cs|]; [|done].
  apply outcome_bind_halts.
  { induction cs as [|c cs IH]; simpl; [done|].
    apply outcome_bind_halts; [apply deref_in_halts|].
    intros cn _. by case_decide. }
  intros [c|] _; [done|].
  apply py_max_key_halts. intros c. apply outcome_fmap_halts, _uct_halts.
Qed.

Lemma not_terminal_with_depth_limit self nd :
  _is_terminal_with_depth_limit self nd = false →
  is_terminal nd = false ∧ (Z.of_nat (depth nd) < depth_limit self)%Z.
Proof.
  unfold _is_terminal_with_depth_limit.
  intros [Ht Hd%bool_decide_eq_false]%orb_false_iff. split; [done|lia].
Qed.

Lemma _select_loop_halts (fuel : nat) self pending :
  ∀ (path0 : list nat) (a : nat) m,
    heap_inv_upto pending (heap m) →
    1 ≤ fuel →
    (∀ nd, heap m !! a = Some nd →
           (depth_limit self < Z.of_nat (depth nd) + Z.of_nat fuel)%Z) →
    _select_loop fuel self path0 a m ≠ OutOfFuel.
Proof.
  induction fuel as [|fuel IH]; intros path0 a m Hinv Hfuel Hdepth; [lia|].
  simpl. apply bind_halts; [apply deref_halts|].
  intros nd m1 [Hnd ->]%deref_Ok.
  destruct (_ || _) eqn:Hstop; [done|].
  apply orb_false_iff in Hstop as [_ Hlim%not_terminal_with_depth_limit].
  destruct Hlim as [_ Hlim]. specialize (Hdepth _ Hnd).
  apply bind_halts; [done|]. intros σ m1 [-> ->]%get_heap_Ok.
  apply bind_halts; [apply lift_halts, _uct_select_halts|].
  intros c m1 [Hc ->]%lift_Ok. apply _uct_select_child in Hc.
  apply bind_halts; [apply py_attr_halts|]. intros wm m1 [_ ->]%py_attr_Ok.
  apply bind_halts; [apply deref_halts|]. intros cn m1 [Hcn ->]%deref_Ok.
  apply bind_halts; [apply py_attr_halts|]. intros p m1 [_ ->]%py_attr_Ok.
  apply bind_halts; [apply deref_halts|]. intros pn m1 [_ ->]%deref_Ok.
  apply bind_halts; [apply await_halts|]. intros x m1 [Hheap _]%await_Ok.
  destruct (inv_links _ _ Hinv _ _ Hc) as (pn' & cn' & ? & ? & _ & Hd & _).
  simplify_eq.
  apply IH; rewrite ?Hheap; [done|lia|].
  intros cn'' ?. simplify_eq. lia.
Qed.

Lemma new_children_halts (sc : config) (i : nat) (s : State)
    (actions : list Action) :
  ∀ m, new_children sc i s actions m ≠ OutOfFuel.
Proof.
  induction actions as [|a actions IH]; intros m; simpl; [done|].
  apply bind_halts; [apply await_halts|]. intros [fr frd] m1 _.
  apply bind_halts.
  { unfold MCTSNode__init__. apply bind_halts; [|done].
    apply bind_halts; [apply deref_halts|done]. }
  intros c m2 _. apply bind_halts; [apply IH|done].
Qed.

Lemma _expand_halts self (i : nat) m : _expand self i m ≠ OutOfFuel.
Proof.
  unfold _expand. apply bind_halts; [apply deref_halts|]. intros nd m1 _.
  apply bind_halts.
  { destruct (state nd); [done|].
    apply bind_halts; [apply py_attr_halts|]. intros wm m2 _.
    apply bind_halts; [apply py_attr_halts|]. intros p m3 _.
    apply bind_halts; [apply deref_halts|]. intros pn m4 _.
    apply bind_halts; [apply await_halts|]. intros [s aux] m5 _.
    apply bind_halts; [apply modify_halts|]. intros _ m6 _.
    apply bind_halts; [apply py_attr_halts|]. intros sc m7 _.
    apply bind_halts; [apply await_halts|]. intros [r rd] m8 _.
    apply bind_halts; [apply modify_halts|]. intros _ m9 _.
    apply bind_halts; [apply await_halts|]. intros t m10 _.
    apply bind_halts; [apply modify_halts|done]. }
  intros s m2 _. apply bind_halts; [apply deref_halts|]. intros nd2 m3 _.
  destruct (is_terminal nd2); [done|].
  apply bind_halts; [apply py_attr_halts|]. intros sc m4 _.
  apply bind_halts; [apply await_halts|]. intros actions m5 _.
  apply bind_halts; [apply new_children_halts|]. intros cs m6 _.
  apply modify_halts.
Qed.

Lemma _back_propagate_halts (path : list nat) m :
  _back_propagate (World:=World) path m ≠ @OutOfFuel (R * mach).
Proof.
  unfold _back_propagate.
  apply bind_halts; [apply lift_halts, py_last_halts|]. intros leaf m1 _.
  apply bind_halts; [apply deref_halts|]. intros lnd m2 _.
  apply bind_halts.
  { generalize (reverse path). intros l. clear. revert m2.
    induction l as [|i l IH]; intros m; simpl; [done|].
    apply bind_halts; [|auto].
    apply bind_halts; [apply deref_halts|]. intros nd m1 _.
    apply bind_halts; [apply modify_halts|]. intros _ m3 _.
    apply modify_halts. }
  intros _ m3 _.
  apply bind_halts; [apply lift_halts, py_first_halts|]. intros first m4 _.
  apply bind_halts; [apply deref_halts|done].
Qed.

Lemma map_m_deref_halts {B} (f : node → B) (cs : list nat) :
  ∀ m, map_m (fun c => cn ← deref c; mret (f cn)) cs m
       ≠ @OutOfFuel (list B * mach).
Proof.
  induction cs as [|c cs IH]; intros m; simpl; [done|].
  apply bind_halts.
  { apply bind_halts; [apply deref_halts|done]. }
  intros y m1 _. apply bind_halts; [apply IH|done].
Qed.

Lemma call_choice_halts (c : py_choice) (x : list R) m :
  choice_halts c →
  call_choice (State:=State) (Action:=Action) (Details:=Details) c x m
  ≠ OutOfFuel.
Proof.
  destruct c as [f|s]; simpl; [|done]. intros Hf.
  specialize (Hf x (world m)). by destruct (f x (world m)) as [[? ?]| |].
Qed.

Lemma expand_post_bounded (L : nat) (i : nat) σ σ' :
  expand_post i σ σ' →
  depth_bounded L σ →
  (∀ nd, σ !! i = Some nd → depth nd ≤ L) →
  depth_bounded L σ'.
Proof.
  intros Hpost Hb Hi.
  destruct (expand_post_lookup _ _ _ Hpost)
    as (nd & nd' & Hnd & Hnd' & _ & Hdep & _ & _ & _ & _ & _ & _ & Hnew).
  intros j x Hj. destruct (decide (j = i)) as [->|Hne].
  - rewrite Hnd' in Hj. simplify_eq. rewrite Hdep. by eapply Hb.
  - destruct (Hnew _ _ Hne Hj) as [Hold|[_ (_ & -> & _)]]; [by eapply Hb|].
    rewrite Hdep. specialize (Hi _ Hnd). lia.
Qed.

Lemma _simulate_loop_halts (fuel : nat) self :
  let L := Z.to_nat (depth_limit self) in
  choice_halts (simulate_choice self) →
  ∀ (ext : list nat) (t : nat) m,
    heap_inv_upto (0 :: ext) (heap m) →
    descends (heap m) 0 ext →
    last (0 :: ext) = Some t →
    depth_bounded L (heap m) →
    1 ≤ fuel →
    (∀ tn, heap m !! t = Some tn →
           (depth_limit self < Z.of_nat (depth tn) + Z.of_nat fuel)%Z
           ∧ (is_Some (state tn) ∨ depth tn ≤ L)) →
    _simulate_loop fuel self (0 :: ext) t m ≠ OutOfFuel
    ∧ ∀ path' m', _simulate_loop fuel self (0 :: ext) t m = Ok (path', m') →
                  depth_bounded L (heap m').
Proof.
  intros L Hchoice.
  induction fuel as [|fuel IH]; intros ext t m Hinv Hdesc Hlast Hb Hfuel Ht;
    [lia|].
  assert (t ∈ 0 :: ext) as Hin.
  { apply last_Some in Hlast as [l' Hl]. rewrite Hl.
    apply elem_of_app. right. apply list_elem_of_here. }
  simpl.
  assert (∀ nd m1, deref t m = Ok (nd, m1) →
            ∀ (u : unit) m2,
              (if bool_decide (state nd = None) then _expand self t
               else mret ()) m1 = Ok (u, m2) →
              heap_inv_upto (0 :: ext) (heap m2)
              ∧ descends (heap m2) 0 ext
              ∧ depth_bounded L (heap m2)
              ∧ ∀ tn, heap m2 !! t = Some tn →
                      (depth_limit self
                       < Z.of_nat (depth tn) + Z.of_nat (S fuel))%Z) as Hafter.
  { intros nd m1 [Hnd ->]%deref_Ok [] m2 Hexp.
    destruct (Ht _ Hnd) as [Hlim Hres].
    case_bool_decide as Hst.
    - apply _expand_spec in Hexp.
      split_and!; [by eapply expand_post_inv|by eapply descends_expand| |].
      + eapply expand_post_bounded; [done..|]. intros nd' ?. simplify_eq.
        destruct Hres as [[? Hs]|?]; [congruence|done].
      + intros tn Htn.
        destruct (expand_post_lookup _ _ _ Hexp)
          as (nd0 & nd' & ? & ? & _ & Hdep & _). simplify_eq.
        by rewrite Hdep.
    - apply mret_Ok in Hexp as [_ <-]. split_and!; [done..|].
      intros tn ?. by simplify_eq. }
  split.
  - apply bind_halts; [apply deref_halts|]. intros nd m1 Hd1.
    apply bind_halts.
    { case_bool_decide; [apply _expand_halts|done]. }
    intros [] m2 Hexp.
    destruct (Hafter _ _ Hd1 _ _ Hexp) as (Hinv2 & Hdesc2 & Hb2 & Hlim2).
    apply bind_halts; [apply deref_halts|]. intros nd2 m3 [Hnd2 ->]%deref_Ok.
    destruct (_is_terminal_with_depth_limit self nd2) eqn:Hstop; [done|].
    apply not_terminal_with_depth_limit in Hstop as [_ Hd].
    destruct (children nd2) as [cs|] eqn:Hcs; [|done].
    destruct (bool_decide (length cs = 0)); [done|].
    apply bind_halts; [apply map_m_deref_halts|].
    intros frs m3 ->%map_m_deref_Ok.
    apply bind_halts; [by apply call_choice_halts|].
    intros i m3 Hheap%call_choice_Ok.
    apply bind_halts; [apply lift_halts, py_index_halts|].
    intros c m4 [Hc%py_index_Ok ->]%lift_Ok.
    rewrite <- Hheap in *.
    assert (is_child (heap m3) t c) as Hchild by by exists nd2, cs.
    destruct (inv_links _ _ Hinv2 _ _ Hchild)
      as (pn' & cn & ? & Hcn & _ & Hdc & Hlt). simplify_eq.
    change (0 :: ext ++ [c]) with (0 :: (ext ++ [c])).
    apply IH; [| |apply last_snoc_cons|done| |].
    + eapply heap_inv_upto_mono; [|done].
      intros j Hj. rewrite app_comm_cons. apply elem_of_app. by left.
    + by eapply descends_snoc.
    + specialize (Hlim2 _ Hnd2). lia.
    + intros cn' ?. simplify_eq. specialize (Hlim2 _ Hnd2).
      split; [lia|]. right. unfold L. lia.
  - intros path' m' H.
    apply bind_Ok in H as (nd & m1 & Hd1 & H).
    apply bind_Ok in H as ([] & m2 & Hexp & H).
    destruct (Hafter _ _ Hd1 _ _ Hexp) as (Hinv2 & Hdesc2 & Hb2 & Hlim2).
    apply bind_Ok in H as (nd2 & m3 & [Hnd2 ->]%deref_Ok & H).
    destruct (_is_terminal_with_depth_limit self nd2) eqn:Hstop.
    { by apply mret_Ok in H as [_ <-]. }
    apply not_terminal_with_depth_limit in Hstop as [_ Hd].
    destruct (children nd2) as [cs|] eqn:Hcs; [|done].
    destruct (bool_decide (length cs = 0)).
    { by apply mret_Ok in H as [_ <-]. }
    apply bind_Ok in H as (frs & m3 & ->%map_m_deref_Ok & H).
    apply bind_Ok in H as (i & m3 & Hheap%call_choice_Ok & H).
    apply bind_Ok in H as (c & m4 & [Hc%py_index_Ok ->]%lift_Ok & H).
    rewrite <- Hheap in *.
    assert (is_child (heap m3) t c) as Hchild by by exists nd2, cs.
    destruct (inv_links _ _ Hinv2 _ _ Hchild)
      as (pn' & cn & ? & Hcn & _ & Hdc & Hlt). simplify_eq.
    change (0 :: ext ++ [c]) with (0 :: (ext ++ [c])) in H.
    eapply IH in H; [done| | |apply last_snoc_cons|done| |].
    + eapply heap_inv_upto_mono; [|done].
      intros j Hj. rewrite app_comm_cons. apply elem_of_app. by left.
    + by eapply descends_snoc.
    + specialize (Hlim2 _ Hnd2). lia.
    + intros cn' ?. simplify_eq. specialize (Hlim2 _ Hnd2).
      split; [lia|]. right. unfold L. lia.
Qed.

Lemma modify_bounded (L : nat) (i : nat) (f : node → node) m (u : unit) m' :
  (∀ nd, depth (f nd) = depth nd) →
  modify i f m = Ok (u, m') →
  depth_bounded L (heap m) → depth_bounded L (heap m').
Proof.
  intros Hf (nd & Hnd & ->)%modify_Ok Hb j x Hj. simpl in Hj.
  destruct (decide (i = j)) as [->|Hne].
  - rewrite list_lookup_insert_eq in Hj by by eapply lookup_lt_Some.
    simplify_eq. rewrite Hf. by eapply Hb.
  - rewrite list_lookup_insert_ne in Hj by done. by eapply Hb.
Qed.

Lemma _back_propagate_bounded (L : nat) (path : list nat) m (q : R) m' :
  _back_propagate path m = Ok (q, m') →
  depth_bounded L (heap m) → depth_bounded L (heap m').
Proof.
  unfold _back_propagate.
  intros (leaf & m1 & [_ ->]%lift_Ok & H)%bind_Ok.
  apply bind_Ok in H as (lnd & m1 & [_ ->]%deref_Ok & H).
  apply bind_Ok in H as ([] & m1 & Hloop & H).
  apply bind_Ok in H as (first & m2 & [_ ->]%lift_Ok & H).
  apply bind_Ok in H as (fnd & m2 & [_ ->]%deref_Ok & [_ <-]%mret_Ok).
  revert Hloop. generalize (reverse path). intros l. revert m.
  induction l as [|i l IH]; intros m; simpl.
  - by intros [_ <-]%mret_Ok.
  - intros ([] & m2 & Hstep & Hrest)%bind_Ok Hb.
    apply bind_Ok in Hstep as (nd & m3 & [_ ->]%deref_Ok & Hstep).
    apply bind_Ok in Hstep as ([] & m3 & Hq & HN).
    eapply IH; [done|].
    eapply modify_bounded; [|done|]; [done|].
    eapply modify_bounded; [|done|]; done.
Qed.

Lemma iterate_halts (fuel : nat) self m :
  let L := Z.to_nat (depth_limit self) in
  choice_halts (simulate_choice self) →
  heap_inv (heap m) →
  depth_bounded L (heap m) →
  L + 1 ≤ fuel →
  iterate fuel self 0 m ≠ OutOfFuel
  ∧ ∀ path cum self' m',
      iterate fuel self 0 m = Ok (path, cum, self', m') →
      depth_bounded L (heap m').
Proof.
  intros L Hchoice Hinv Hb Hfuel.
  assert (∀ path0 m1,
            _select fuel self 0 m = Ok (path0, m1) →
            ∀ t0 tn0, last path0 = Some t0 → heap m1 !! t0 = Some tn0 →
              let branch :=
                (if negb (_is_terminal_with_depth_limit self tn0) then
                   _ ← _expand self t0; _simulate fuel self path0
                 else mret path0) in
              branch m1 ≠ OutOfFuel
              ∧ ∀ path1 m2, branch m1 = Ok (path1, m2) →
                            depth_bounded L (heap m2)) as Hbranch.
  { intros path0 m1 Hsel t0 tn0 Ht0 Htn0. unfold _select in Hsel.
    eapply _select_loop_spec in Hsel as [Hh1 (ext0 & -> & Hdesc0)]; [|done].
    simpl in *. rewrite <- Hh1 in *.
    apply (heap_inv_upto_mono [] (0 :: ext0)) in Hinv;
      [|by intros ? ?%elem_of_nil].
    assert (t0 ∈ 0 :: ext0) as Hin.
    { apply last_Some in Ht0 as [l' Hl]. rewrite Hl.
      apply elem_of_app. right. apply list_elem_of_here. }
    destruct (_is_terminal_with_depth_limit self tn0) eqn:Hstop; simpl.
    { split; [done|]. by intros path1 m2 [_ <-]%mret_Ok. }
    apply not_terminal_with_depth_limit in Hstop as [_ Hd].
    assert (∀ (u : unit) m3, _expand self t0 m1 = Ok (u, m3) →
              _simulate fuel self (0 :: ext0) m3 ≠ OutOfFuel
              ∧ ∀ path1 m2, _simulate fuel self (0 :: ext0) m3 = Ok (path1, m2) →
                            depth_bounded L (heap m2)) as Hsim.
    { intros [] m3 Hexp. apply _expand_spec in Hexp.
      destruct (_simulate_loop_halts fuel self Hchoice ext0 t0 m3)
        as [Hhalt Hbound]; [by eapply expand_post_inv
                           |by eapply descends_expand|done| |lia| |].
      - eapply expand_post_bounded; [done..|].
        intros nd ?. simplify_eq. unfold L. lia.
      - intros tn Htn.
        destruct (expand_post_lookup _ _ _ Hexp)
          as (nd0 & nd' & ? & ? & _ & Hdep & _ & Hst & _). simplify_eq.
        rewrite Hdep. split; [lia|by left].
      - unfold _simulate, py_last. rewrite Ht0. split.
        + apply bind_halts; [done|]. by intros ? ? [[= <-] ->]%lift_Ok.
        + intros path1 m2 (? & ? & [[= <-] ->]%lift_Ok & H)%bind_Ok.
          by eapply Hbound. }
    split.
    - apply bind_halts; [apply _expand_halts|].
      intros [] m3 Hexp. by apply Hsim in Hexp as [? _].
    - intros path1 m2 ([] & m3 & Hexp & H)%bind_Ok.
      apply Hsim in Hexp as [_ Hbound]. by eapply Hbound. }
  split.
  - unfold iterate. apply bind_halts.
    { unfold _select. eapply _select_loop_halts; [done|lia|].
      intros nd Hnd. destruct (inv_root _ _ Hinv) as (r & Hr & _ & Hd & _).
      simplify_eq. rewrite Hd. unfold L in Hfuel. lia. }
    intros path0 m1 Hsel.
    apply bind_halts; [apply lift_halts, py_last_halts|].
    intros t0 m2 [Ht0%py_last_Ok ->]%lift_Ok.
    apply bind_halts; [apply deref_halts|]. intros tn0 m2 [Htn0 ->]%deref_Ok.
    destruct (Hbranch _ _ Hsel _ _ Ht0 Htn0) as [Hhalt _].
    apply bind_halts; [done|]. intros path1 m3 _.
    apply bind_halts; [apply _back_propagate_halts|]. intros cum m4 _.
    apply bind_halts; [apply lift_halts, py_last_halts|]. intros t m5 _.
    apply bind_halts; [apply deref_halts|done].
  - intros path cum self' m' H. unfold iterate in H.
    apply bind_Ok in H as (path0 & m1 & Hsel & H).
    apply bind_Ok in H as (t0 & m2 & [Ht0%py_last_Ok ->]%lift_Ok & H).
    apply bind_Ok in H as (tn0 & m2 & [Htn0 ->]%deref_Ok & H).
    destruct (Hbranch _ _ Hsel _ _ Ht0 Htn0) as [_ Hbound].
    apply bind_Ok in H as (path1 & m3 & Hbr & H).
    apply Hbound in Hbr.
    apply bind_Ok in H as (cum1 & m4 & Hbp & H).
    apply bind_Ok in H as (t & m5 & [_ ->]%lift_Ok & H).
    apply bind_Ok in H as (tn & m5 & [_ ->]%deref_Ok & [_ <-]%mret_Ok).
    by eapply _back_propagate_bounded.
Qed.

Lemma recorded_fields self (path : list nat) (cum : R) (t : bool) :
  depth_limit (recorded self path cum t) = depth_limit self
  ∧ simulate_choice (recorded self path cum t) = simulate_choice self.
Proof.
  destruct (same_config_recorded self self path cum t (same_config_refl self))
    as (c & it & ->). done.
Qed.

Lemma iterations_halts (fuel : nat) (n : nat) :
  ∀ self m,
    let L := Z.to_nat (depth_limit self) in
    choice_halts (simulate_choice self) →
    heap_inv (heap m) →
    depth_bounded L (heap m) →
    L + 1 ≤ fuel →
    iterations fuel n self 0 m ≠ OutOfFuel
    ∧ ∀ self' m', iterations fuel n self 0 m = Ok (self', m') →
                  depth_bounded L (heap m').
Proof.
  induction n as [|n IH]; intros self m L Hchoice Hinv Hb Hfuel; simpl.
  - split; [done|]. by intros self' m' [_ <-]%mret_Ok.
  - destruct (iterate_halts fuel self m Hchoice Hinv Hb Hfuel)
      as [Hhalt Hbound].
    assert (∀ path cum self1 m1,
              iterate fuel self 0 m = Ok (path, cum, self1, m1) →
              iterations fuel n self1 0 m1 ≠ OutOfFuel
              ∧ ∀ self' m', iterations fuel n self1 0 m1 = Ok (self', m') →
                            depth_bounded L (heap m')) as Hnext.
    { intros path cum self1 m1 Hit.
      destruct (iterate_tail _ _ _ _ _ _ _ _ Hit) as (t & tn & _ & _ & ->).
      destruct (recorded_fields self path cum (is_terminal tn)) as [Hdl Hsc].
      pose proof (Hbound _ _ _ _ Hit) as Hb1.
      apply iterate_spec in Hit as [Hinv1 _]; [|done].
      unfold L. rewrite <- Hdl.
      apply IH; rewrite ?Hdl, ?Hsc; done. }
    split.
    + apply bind_halts; [done|]. intros [[path cum] self1] m1 Hit.
      by apply Hnext in Hit as [? _].
    + intros self' m' ([[path cum] self1] & m1 & Hit & H)%bind_Ok.
      apply Hnext in Hit as [_ Hb']. by eapply Hb'.
Qed.

Lemma child_depth (L : nat) (pending : list nat) σ (p c : nat) pn :
  heap_inv_upto pending σ → depth_bounded L σ →
  is_child σ p c → σ !! p = Some pn →
  ∃ cn, σ !! c = Some cn ∧ depth cn = depth pn + 1 ∧ depth pn ≤ L.
Proof.
  intros Hinv Hb Hc Hp.
  destruct (inv_links _ _ Hinv _ _ Hc) as (pn' & cn & ? & Hcn & _ & Hd & _).
  simplify_eq. exists cn. split_and!; [done..|].
  specialize (Hb _ _ Hcn). lia.
Qed.

Lemma follow_max_loop_halts (L : nat) σ :
  heap_inv σ → depth_bounded L σ →
  ∀ (fuel : nat) (out : list nat) (cur : nat),
    1 ≤ fuel →
    (∀ nd, σ !! cur = Some nd → L + 2 ≤ depth nd + fuel) →
    follow_max_loop fuel σ out cur ≠ OutOfFuel.
Proof.
  intros Hinv Hb. induction fuel as [|fuel IH]; intros out cur Hfuel Hd; [lia|].
  simpl. apply outcome_bind_halts; [apply deref_in_halts|].
  intros cn Hcn%deref_in_Ok. destruct (is_terminal cn); [done|].
  destruct (children cn) as [cs|] eqn:Hcs; [|done].
  apply outcome_bind_halts.
  { apply map_o_halts. intros x _.
    apply outcome_bind_halts; [apply deref_in_halts|done]. }
  intros nodes Hnodes. destruct (bool_decide _); [done|].
  apply outcome_bind_halts.
  { apply py_max_key_halts. intros x.
    apply outcome_fmap_halts, deref_in_halts. }
  intros c Hc%py_max_key_elem.
  apply (visited_children_spec _ _ _ _ Hnodes) in Hc as [Hc _].
  destruct (child_depth L [] σ cur c cn) as (cn' & Hcn' & Hdc & Hle);
    [done..|by exists cn, cs|done|].
  specialize (Hd _ Hcn).
  apply IH; [lia|]. intros nd ?. simplify_eq. lia.
Qed.

Lemma _dfs_max_reward_halts (L : nat) self σ :
  heap_inv σ → depth_bounded L σ →
  ∀ (fuel : nat) (path : list nat),
    1 ≤ fuel →
    (∀ cur nd, last path = Some cur → σ !! cur = Some nd →
               L + 2 ≤ depth nd + fuel) →
    _dfs_max_reward fuel self σ path ≠ OutOfFuel.
Proof.
  intros Hinv Hb. induction fuel as [|fuel IH]; intros path Hfuel Hd; [lia|].
  simpl. apply outcome_bind_halts; [apply py_last_halts|].
  intros cur Hcur%py_last_Ok.
  apply outcome_bind_halts; [apply deref_in_halts|].
  intros cn Hcn%deref_in_Ok. destruct (is_terminal cn).
  { apply outcome_bind_halts; [|done]. apply map_o_halts. intros x _.
    apply outcome_fmap_halts, deref_in_halts. }
  destruct (children cn) as [cs|] eqn:Hcs; [|done].
  apply outcome_bind_halts.
  { apply map_o_halts. intros x _.
    apply outcome_bind_halts; [apply deref_in_halts|done]. }
  intros nodes Hnodes. destruct (bool_decide _); [done|].
  apply outcome_bind_halts; [|intros; by apply py_max_key_halts].
  apply map_o_halts. intros c Hc.
  apply (visited_children_spec _ _ _ _ Hnodes) in Hc as [Hc _].
  destruct (child_depth L [] σ cur c cn) as (cn' & Hcn' & Hdc & Hle);
    [done..|by exists cn, cs|done|].
  specialize (Hd _ _ Hcur Hcn).
  apply IH; [lia|]. intros cur' nd. rewrite last_snoc.
  intros [= <-] ?. simplify_eq. lia.
Qed.

Lemma visit_halts (L : nat) (self : aggregation) σ :
  heap_inv σ → depth_bounded L σ →
  ∀ (fuel : nat) (cur : nat) (d : list (Answer * R)),
    1 ≤ fuel →
    (∀ nd, σ !! cur = Some nd → L + 2 ≤ depth nd + fuel) →
    visit fuel self σ cur d ≠ OutOfFuel.
Proof.
  intros Hinv Hb. induction fuel as [|fuel IH]; intros cur d Hfuel Hd; [lia|].
  simpl. apply outcome_bind_halts; [apply deref_in_halts|].
  intros cn Hcn%deref_in_Ok. destruct (state cn) as [s|]; [|done].
  destruct (is_terminal cn).
  { destruct (retrieve_answer self s) as [a|]; [|done].
    apply outcome_bind_halts; [|done].
    repeat case_decide; try done.
    apply outcome_bind_halts; [|done]. unfold py_div_int. by case_decide. }
  destruct (children cn) as [cs|] eqn:Hcs; [|done].
  apply outcome_bind_halts; [|by intros [[? ?] ?] _].
  assert (∀ c, c ∈ cs → ∀ d', visit fuel self σ c d' ≠ OutOfFuel) as Hchild.
  { intros c Hc d'.
    destruct (child_depth L [] σ cur c cn) as (cn' & Hcn' & Hdc & Hle);
      [done..|by exists cn, cs|done|].
    specialize (Hd _ Hcn).
    apply IH; [lia|]. intros nd ?. simplify_eq. lia. }
  match goal with
  | |- foldl ?f ?a ?l ≠ _ =>
      cut (∀ acc, acc ≠ OutOfFuel → foldl f acc l ≠ OutOfFuel);
        [intros Hfold; by apply Hfold|]
  end.
  clear Hcs. induction cs as [|c cs IHcs]; intros acc Hacc; simpl; [done|].
  apply IHcs.
  - intros c' Hc'. by apply Hchild, list_elem_of_further.
  - apply outcome_bind_halts; [done|]. intros [[cl dl] d0] _.
    apply outcome_bind_halts; [apply Hchild, list_elem_of_here|].
    by intros [ci d1] _.
Qed.

Lemma MCTSAggregation__call___halts (L : nat) (fuel : nat) (self : aggregation)
    σ :
  heap_inv σ → depth_bounded L σ → L + 2 ≤ fuel →
  MCTSAggregation__call__ fuel self σ 0 ≠ OutOfFuel.
Proof.
  intros Hinv Hb Hfuel. unfold MCTSAggregation__call__.
  apply outcome_bind_halts.
  { eapply visit_halts; [done..|lia|]. intros; lia. }
  intros [l d] _. case_decide; [done|].
  apply outcome_bind_halts; [|done].
  apply py_max_key_halts. intros a. by destruct (dict_get a d).
Qed.

Lemma depth_bounded_fresh (L : nat) (ed : Details) (s0 : State) :
  depth_bounded L [fresh_root ed s0 : node].
Proof. intros [|i] nd Hi; simpl in Hi; simplify_eq. simpl. lia. Qed.

Lemma search_halts (ed : Details) (fuel : nat) self m :
  choice_halts (simulate_choice self) →
  heap m = [] →
  Z.to_nat (depth_limit self) + 2 ≤ fuel →
  search ed fuel self m ≠ OutOfFuel
  ∧ ∀ self' m', search ed fuel self m = Ok (self', m') →
                depth_bounded (Z.to_nat (depth_limit self)) (heap m').
Proof.
  intros Hchoice Hheap Hfuel.
  set (L := Z.to_nat (depth_limit self)) in *.
  assert (∀ s : engine,
            depth_limit (search_entry s) = depth_limit s
            ∧ simulate_choice (search_entry s) = simulate_choice s)
    as Hentry.
  { intros s. unfold search_entry. simpl.
    by destruct (output_trace_in_each_iter s). }
  destruct (Hentry self) as [Hdl Hsc].
  split.
  - unfold search. cbv zeta.
    apply bind_halts; [apply py_attr_halts|].
    intros wm m1 [Hwm ->]%py_attr_Ok.
    apply bind_halts; [apply await_halts|].
    intros s0 m1 [Hh1 Hinit]%await_Ok.
    apply bind_halts.
    { unfold MCTSNode__init__. apply bind_halts; done. }
    intros r m2 Hroot. unfold MCTSNode__init__ in Hroot.
    apply bind_Ok in Hroot as (d & m3 & [<- <-]%mret_Ok & Hroot).
    unfold alloc in Hroot. rewrite Hh1, Hheap in Hroot. simpl in Hroot.
    injection Hroot as <- <-.
    change (mkNode (Some s0) None None 0 0 ed false None 0 0 0)
      with (fresh_root ed s0 : node).
    match goal with
    | |- (iterations _ _ ?s _ ≫= _) _ ≠ _ =>
        replace s with (search_entry self)
          by (unfold search_entry; simpl;
              by destruct (output_trace_in_each_iter self))
    end.
    destruct (iterations_halts fuel (Z.to_nat (n_iters (search_entry self)))
                (search_entry self) (mkMachine [fresh_root ed s0] (world m1)))
      as [Hhalt Hbound];
      [by rewrite Hsc|apply heap_inv_fresh|apply depth_bounded_fresh
      |rewrite Hdl; fold L; lia|].
    rewrite Hdl in Hbound. fold L in Hbound.
    apply bind_halts; [done|]. intros self1 m2 Hiter.
    pose proof (Hbound _ _ Hiter) as Hb.
    apply iterations_inv in Hiter as [Hinv _]; [|apply heap_inv_fresh].
    apply bind_halts.
    { case_bool_decide; [|done].
      apply bind_halts; [done|]. intros σ m3 [-> ->]%get_heap_Ok.
      apply bind_halts.
      { apply lift_halts. eapply follow_max_loop_halts; [done..|lia|].
        intros; lia. }
      intros out m3 _. apply bind_halts; [|done].
      apply lift_halts, map_o_halts. intros x _.
      apply outcome_fmap_halts, deref_in_halts. }
    intros self2 m3 Hfm.
    assert (m3 = m2) as ->.
    { case_bool_decide; [|by apply mret_Ok in Hfm as [_ <-]].
      apply bind_Ok in Hfm as (σ & m4 & [-> ->]%get_heap_Ok & Hfm).
      apply bind_Ok in Hfm as (out & m4 & [_ ->]%lift_Ok & Hfm).
      apply bind_Ok in Hfm as (rs & m4 & [_ ->]%lift_Ok & Hfm).
      by apply mret_Ok in Hfm as [_ <-]. }
    destruct (bool_decide (output_strategy self2 = "max_reward")); [|done].
    apply bind_halts; [done|]. intros σ m3 [-> ->]%get_heap_Ok.
    apply bind_halts; [|by intros [? ?] ? ?].
    apply lift_halts. eapply _dfs_max_reward_halts; [done..|lia|].
    intros; lia.
  - intros self' m' Hsearch. pose proof Hsearch as Hs.
    apply search_Ok in Hs
      as (wm & s0 & w0 & self1 & _ & _ & Hiter & _ & _ & _); [|done].
    destruct (iterations_halts fuel (Z.to_nat (n_iters self))
                (search_entry self) (mkMachine [fresh_root ed s0] w0))
      as [_ Hbound];
      [by rewrite Hsc|apply heap_inv_fresh|apply depth_bounded_fresh
      |rewrite Hdl; fold L; lia|].
    rewrite Hdl in Hbound. by eapply Hbound.
Qed.

(** With more fuel than the depth limit plus one, a run of the engine never
    stops for lack of fuel: it returns a result or raises an exception. *)
Lemma MCTS__call___halts (ed : Details) (fuel : nat) self (wm : model)
    (sc : config) m :
  choice_halts (simulate_choice self) →
  Z.to_nat (depth_limit self) + 2 ≤ fuel →
  MCTS__call__ ed fuel self wm sc m ≠ OutOfFuel.
Proof.
  intros Hchoice Hfuel. unfold MCTS__call__. cbv zeta.
  apply bind_halts; [done|]. intros [] m1 Hreset.
  unfold reset_id in Hreset. injection Hreset as <-.
  destruct (search_halts ed fuel (set_collaborators wm sc self)
              (mkMachine [] (world m))) as [Hhalt Hbound]; [done..|].
  apply bind_halts; [done|]. intros self1 m2 Hsearch.
  pose proof (Hbound _ _ Hsearch) as Hb. simpl in Hb.
  apply search_Ok in Hsearch
    as (_ & _ & _ & self0 & _ & _ & _ & Hcfg & Hinv & Hpost); [|done].
  apply bind_halts; [done|]. intros σ m3 [-> ->]%get_heap_Ok.
  apply bind_halts.
  { destruct (_output_iter self1); [|done].
    apply bind_halts; [apply lift_halts, py_last_halts|]. intros t m4 _.
    apply bind_halts; [apply deref_halts|]. intros tn m5 _.
    apply bind_halts.
    { apply lift_halts, map_o_halts. intros x _.
      apply outcome_fmap_halts, deref_in_halts. }
    intros sts m6 _. apply bind_halts; [|done].
    apply lift_halts, map_o_halts. intros x _.
    apply outcome_fmap_halts, deref_in_halts. }
  intros [ts tr] m4 Hout.
  assert (heap m4 = heap m2) as Hm4.
  { destruct (_output_iter self1).
    - apply bind_Ok in Hout as (t & m6 & [_ ->]%lift_Ok & Hout).
      apply bind_Ok in Hout as (tn & m6 & [_ ->]%deref_Ok & Hout).
      apply bind_Ok in Hout as (sts & m6 & [_ ->]%lift_Ok & Hout).
      apply bind_Ok in Hout as (acts & m6 & [_ ->]%lift_Ok & Hout).
      by apply mret_Ok in Hout as [_ <-].
    - by apply mret_Ok in Hout as [_ <-]. }
  apply bind_halts.
  { destruct (output_trace_in_each_iter self1); [|done].
    destruct (trace_in_each_iter self1); [|done].
    apply bind_halts; [|done].
    apply lift_halts, map_o_halts. intros x _. apply py_first_halts. }
  intros [tiei tsaei] m5 _.
  apply bind_halts; [|done].
  destruct (aggregator self1); [|done].
  apply bind_halts; [apply py_attr_halts|].
  intros r m6 [Hr ->]%py_attr_Ok.
  assert (r = 0) as ->.
  { destruct Hcfg as (c & it & ->).
    destruct (search_entry_fields (set_collaborators wm sc self))
      as (_ & _ & _ & _ & _ & Hroot & _).
    repeat case_decide; [destruct Hpost as (? & ? & _ & _ & ->)
                        |destruct Hpost as (? & ? & _ & ->)
                        |subst self1]; simpl in Hr; congruence. }
  apply lift_halts.
  by eapply MCTSAggregation__call___halts.
Qed.

(** ** What expansion changes, attribute by attribute *)

Lemma new_children_effect (sc : config) (i : nat) (s : State) nd :
  ∀ (actions : list Action) m (cs : list nat) m',
    heap m !! i = Some nd →
    new_children sc i s actions m = Ok (cs, m') →
    ∃ news,
      heap m' = heap m ++ news
      ∧ cs = seq (length (heap m)) (length news)
      ∧ length news = length actions
      ∧ ∀ k a, actions !! k = Some a →
          ∃ cn, news !! k = Some cn
                ∧ action cn = Some a ∧ parent cn = Some i
                ∧ depth cn = depth nd + 1 ∧ state cn = None
                ∧ N cn = 0 ∧ _Q cn = 0%R ∧ children cn = None
                ∧ is_terminal cn = false ∧ reward cn = fast_reward cn.
Proof.
  induction actions as [|a actions IH]; intros m cs m' Hi; simpl.
  - intros [<- <-]%mret_Ok. exists []. rewrite app_nil_r.
    split_and!; [done..|]. intros k a Hk. by destruct k.
  - intros ([fr frd] & m1 & [Hheap _]%await_Ok & H)%bind_Ok.
    unfold MCTSNode__init__ in H.
    apply bind_Ok in H as (c & m2 & Hc & H).
    apply bind_Ok in Hc as (d & m3 & Hd & Hc).
    apply bind_Ok in Hd as (pn & m4 & [Hpn ->]%deref_Ok & [<- ->]%mret_Ok).
    rewrite Hheap, Hi in Hpn. simplify_eq.
    unfold alloc in Hc. simplify_eq. rewrite Hheap in *.
    apply bind_Ok in H as (rest & m2 & Hrest & [<- <-]%mret_Ok).
    apply IH in Hrest as (news & Hheap' & -> & Hlen & Hnews).
    2:{ simpl. by apply lookup_app_l_Some. }
    simpl in *. eexists (_ :: news). split_and!.
    + rewrite Hheap'. by rewrite <- app_assoc.
    + simpl. f_equal. rewrite length_app. simpl. f_equal. lia.
    + simpl. by rewrite Hlen.
    + intros [|k] a' Hk; simpl in *.
      * simplify_eq. eexists. split; [done|]. simpl. done.
      * by apply Hnews.
Qed.

Lemma _expand_effect self (i : nat) m m' :
  _expand self i m = Ok (tt, m') →
  ∃ nd nd' news,
    heap m !! i = Some nd
    ∧ heap m' = <[i := nd']> (heap m) ++ news
    ∧ parent nd' = parent nd ∧ action nd' = action nd
    ∧ depth nd' = depth nd ∧ fast_reward nd' = fast_reward nd
    ∧ N nd' = N nd ∧ _Q nd' = _Q nd
    ∧ (is_Some (state nd) →
         state nd' = state nd ∧ reward nd' = reward nd
         ∧ is_terminal nd' = is_terminal nd)
    ∧ is_Some (state nd')
    ∧ Forall (placeholder_of i (depth nd)) news
    ∧ (if is_terminal nd' then children nd' = children nd ∧ news = []
       else children nd' = Some (seq (length (heap m)) (length news))).
Proof.
  unfold _expand.
  intros (nd & m1 & [Hnd ->]%deref_Ok & H)%bind_Ok.
  apply bind_Ok in H as (s & m1 & Hres & H).
  assert (i < length (heap m)) as Hlt by by eapply lookup_lt_Some.
  assert (∃ nd1, heap m1 = <[i := nd1]> (heap m)
                 ∧ parent nd1 = parent nd ∧ action nd1 = action nd
                 ∧ depth nd1 = depth nd ∧ fast_reward nd1 = fast_reward nd
                 ∧ N nd1 = N nd ∧ _Q nd1 = _Q nd
                 ∧ children nd1 = children nd
                 ∧ state nd1 = Some s
                 ∧ (is_Some (state nd) →
                      state nd1 = state nd ∧ reward nd1 = reward nd
                      ∧ is_terminal nd1 = is_terminal nd))
    as (nd1 & Hm1 & Hpar & Hact & Hdep & Hfr & HN & HQ & Hch & Hst & Hres').
  { destruct (state nd) as [s0|] eqn:Hs0.
    - apply mret_Ok in Hres as [-> ->]. exists nd.
      rewrite list_insert_id by done. done.
    - apply bind_Ok in Hres as (wm & m2 & [Hwm ->]%py_attr_Ok & Hres).
      apply bind_Ok in Hres as (p & m2 & [Hp ->]%py_attr_Ok & Hres).
      apply bind_Ok in Hres as (pn & m2 & [Hpn ->]%deref_Ok & Hres).
      apply bind_Ok in Hres as ([s1 aux] & m2 & [Hh2 _]%await_Ok & Hres).
      apply bind_Ok in Hres as ([] & m3 & (n3 & Hn3 & ->)%modify_Ok & Hres).
      apply bind_Ok in Hres as (sc & m4 & [Hsc ->]%py_attr_Ok & Hres).
      apply bind_Ok in Hres as ([r rd] & m4 & [Hh4 _]%await_Ok & Hres).
      apply bind_Ok in Hres as ([] & m5 & (n5 & Hn5 & ->)%modify_Ok & Hres).
      apply bind_Ok in Hres as (t & m6 & [Hh6 _]%await_Ok & Hres).
      apply bind_Ok in Hres as ([] & m7 & (n7 & Hn7 & ->)%modify_Ok & Hres).
      apply mret_Ok in Hres as [-> <-]. simpl in *.
      rewrite Hh2 in *. rewrite Hnd in Hn3. simplify_eq.
      rewrite Hh4 in *. simpl in *.
      rewrite list_lookup_insert_eq in Hn5 by done. simplify_eq.
      rewrite Hh6 in *. simpl in *.
      rewrite list_lookup_insert_eq in Hn7 by (by rewrite length_insert).
      simplify_eq.
      rewrite !list_insert_insert_eq.
      eexists. split; [reflexivity|]. simpl. split_and!; done. }
  apply bind_Ok in H as (nd1' & m2 & [Hnd1 ->]%deref_Ok & H).
  rewrite Hm1, list_lookup_insert_eq in Hnd1 by done. simplify_eq.
  destruct (is_terminal nd1') eqn:Hterm1.
  - apply mret_Ok in H as [_ <-].
    exists nd, nd1', []. rewrite app_nil_r.
    split_and!; try done; try (by rewrite Hterm1); try (by rewrite Hst).
  - apply bind_Ok in H as (sc & m2 & [Hsc ->]%py_attr_Ok & H).
    apply bind_Ok in H as (actions & m2 & [Hh2 _]%await_Ok & H).
    apply bind_Ok in H as (cs & m3 & Hcs & H).
    eapply (new_children_spec _ _ _ nd1') in Hcs as (news & Hh3 & -> & Hnews).
    2:{ rewrite Hh2, Hm1. by apply list_lookup_insert_eq. }
    apply modify_Ok in H as (n3 & Hn3 & ->). simpl.
    rewrite Hh3, Hh2, Hm1 in *.
    rewrite lookup_app_l, list_lookup_insert_eq in Hn3
      by (rewrite ?length_insert; done).
    simplify_eq.
    rewrite insert_app_l by (by rewrite length_insert).
    rewrite list_insert_insert_eq, length_insert.
    eexists nd, _, news.
    split_and!; [done|reflexivity|simpl..]; try done; try (by rewrite Hterm1).
    by rewrite <- Hdep.
Qed.


(** ** The tree only grows *)

Lemma keeps_refl nd : keeps nd nd.
Proof. unfold keeps. split_and!; auto. Qed.

Lemma keeps_trans nd1 nd2 nd3 : keeps nd1 nd2 → keeps nd2 nd3 → keeps nd1 nd3.
Proof.
  intros (Hp & Ha & Hd & Hf & Hs & Hc & Hn) (Hp' & Ha' & Hd' & Hf' & Hs' & Hc' & Hn').
  unfold keeps. split_and!; try congruence.
  - intros H1. destruct (Hs H1) as (E1 & E2 & E3).
    destruct Hs' as (E1' & E2' & E3'); [by rewrite E1|].
    split_and!; congruence.
  - intros cs H1 H2. apply Hc'; [|done]. by apply Hc.
  - auto.
Qed.

Lemma explores_refl σ : explores σ σ.
Proof.
  split.
  - intros i nd Hi. exists nd. split_and!; [done|apply keeps_refl|done..].
  - intros i nd Hi Hle. apply lookup_lt_Some in Hi. lia.
Qed.

Lemma explores_length σ σ' : explores σ σ' → length σ ≤ length σ'.
Proof.
  intros [H _]. destruct (decide (length σ = 0)) as [|Hne]; [lia|].
  destruct (lookup_lt_is_Some_2 σ (length σ - 1)) as [nd Hnd]; [lia|].
  destruct (H _ _ Hnd) as (nd' & Hnd' & _).
  apply lookup_lt_Some in Hnd'. lia.
Qed.

Lemma explores_trans σ1 σ2 σ3 :
  explores σ1 σ2 → explores σ2 σ3 → explores σ1 σ3.
Proof.
  intros H12 H23. pose proof (explores_length _ _ H12) as Hlen.
  destruct H12 as [H12 N12], H23 as [H23 N23]. split.
  - intros i nd Hi.
    destruct (H12 _ _ Hi) as (nd2 & Hi2 & Hk2 & HN2 & HQ2).
    destruct (H23 _ _ Hi2) as (nd3 & Hi3 & Hk3 & HN3 & HQ3).
    exists nd3. split_and!; [done|by eapply keeps_trans|congruence..].
  - intros i nd3 Hi3 Hle.
    destruct (decide (i < length σ2)) as [Hlt|Hge].
    + destruct (lookup_lt_is_Some_2 σ2 i) as [nd2 Hi2]; [done|].
      destruct (H23 _ _ Hi2) as (nd3' & Hi3' & _ & HN3 & _).
      simplify_eq. rewrite HN3. by eapply N12.
    + eapply N23; [done|lia].
Qed.

Lemma lookup_expanded {A} (σ news : list A) (i : nat) (x : A) (j : nat) (y : A) :
  i < length σ →
  (<[i := x]> σ ++ news) !! j = Some y →
  (j = i ∧ y = x) ∨ (j ≠ i ∧ σ !! j = Some y)
  ∨ (length σ ≤ j ∧ news !! (j - length σ) = Some y).
Proof.
  intros Hlt Hj.
  destruct (decide (j < length σ)) as [Hjlt|Hjge].
  - rewrite lookup_app_l in Hj by by rewrite length_insert.
    destruct (decide (j = i)) as [->|Hne].
    + rewrite list_lookup_insert_eq in Hj by done. left. by simplify_eq.
    + rewrite list_lookup_insert_ne in Hj by done. right. left. done.
  - rewrite lookup_app_r in Hj by (rewrite length_insert; lia).
    rewrite length_insert in Hj. right. right. split; [lia|done].
Qed.

Lemma lookup_expanded_old {A} (σ news : list A) (i : nat) (x : A) (j : nat)
    (y : A) :
  σ !! j = Some y →
  (<[i := x]> σ ++ news) !! j = Some (if decide (j = i) then x else y).
Proof.
  intros Hj. pose proof (lookup_lt_Some _ _ _ Hj) as Hlt.
  rewrite lookup_app_l by by rewrite length_insert.
  case_decide as Hd.
  - subst. by rewrite list_lookup_insert_eq.
  - by rewrite list_lookup_insert_ne.
Qed.

(** [_expand] on a node that has no children yet. *)
Lemma _expand_explores self (i : nat) m m' nd :
  _expand self i m = Ok (tt, m') →
  heap m !! i = Some nd →
  children nd = None ∨ children nd = Some [] →
  explores (heap m) (heap m')
  ∧ ∀ j, j ≠ i → j < length (heap m) → heap m' !! j = heap m !! j.
Proof.
  intros Hexp Hnd Hnone. apply _expand_effect in Hexp
    as (nd0 & nd' & news & Hi & -> & Hpar & Hact & Hdep & Hfr & HN & HQ
        & Hres & Hst & Hnews & Hch).
  pose proof (lookup_lt_Some _ _ _ Hnd) as Hlt. rewrite Hnd in Hi.
  injection Hi as <-.
  split; [split|].
  - intros j x Hj. eexists. split; [by apply lookup_expanded_old|].
    case_decide as Hd; [|split_and!; [apply keeps_refl|done..]].
    subst. simplify_eq. split_and!; [|done..].
    unfold keeps. split_and!; try done.
    + intros cs Hcs Hne. destruct Hnone; congruence.
    + intros Hsome. destruct (is_terminal nd'); [|by rewrite Hch].
      by destruct Hch as [-> _].
  - intros j x Hj Hle.
    apply lookup_expanded in Hj; [|done].
    destruct Hj as [[-> _]|[[_ Hj]|[_ Hj]]]; [lia| |].
    + apply lookup_lt_Some in Hj. lia.
    + eapply Forall_lookup_1 in Hnews; [|done]. by destruct Hnews as (_ & _ & ? & _).
  - intros j Hne Hjlt.
    rewrite lookup_app_l by by rewrite length_insert.
    by rewrite list_lookup_insert_ne.
Qed.


(** ** Where selection stops *)

Lemma stops_decide self nd :
  bool_decide (children nd = None)
  || bool_decide (length (default [] (children nd)) = 0)
  || _is_terminal_with_depth_limit self nd = true
  ↔ stops self nd.
Proof.
  unfold stops. destruct (children nd) as [[|c cs]|]; simpl.
  - split; [by auto|]. by intros _.
  - split; [by auto|]. by intros [|[|]].
  - split; [by auto|]. by intros _.
Qed.

Lemma not_terminal_depth self nd :
  _is_terminal_with_depth_limit self nd = false →
  is_terminal nd = false ∧ depth nd + 1 ≤ Z.to_nat (depth_limit self)
  ∧ (0 < depth_limit self)%Z.
Proof.
  unfold _is_terminal_with_depth_limit.
  intros [Ht Hd%bool_decide_eq_false]%orb_false_iff. split; [done|]. lia.
Qed.

Lemma _select_loop_stop (fuel : nat) self pending :
  ∀ (path0 : list nat) (a : nat) m (path : list nat) m',
    heap_inv_upto pending (heap m) →
    _select_loop fuel self path0 a m = Ok (path, m') →
    ∃ ext t tn,
      path = path0 ++ a :: ext
      ∧ last (a :: ext) = Some t ∧ heap m !! t = Some tn ∧ stops self tn
      ∧ (∀ k i nd, (a :: ext) !! k = Some i → S k < length (a :: ext) →
                   heap m !! i = Some nd → ¬ stops self nd)
      ∧ ((∀ nd, heap m !! a = Some nd →
                depth nd ≤ Z.to_nat (depth_limit self)) →
         within (Z.to_nat (depth_limit self)) (heap m) (a :: ext)).
Proof.
  induction fuel as [|fuel IH]; intros path0 a m path m' Hinv; simpl; [done|].
  intros (nd & m1 & [Hnd ->]%deref_Ok & H)%bind_Ok.
  destruct (_ || _) eqn:Hstop.
  { apply mret_Ok in H as [<- <-]. exists [], a, nd.
    split_and!; [done..|by apply stops_decide| |].
    - intros k i nd' Hk Hlen. simpl in Hlen. lia.
    - intros Ha i nd' ->%list_elem_of_singleton Hi. by apply Ha. }
  assert (¬ stops self nd) as Hnstop.
  { intros Hs%stops_decide. congruence. }
  apply bind_Ok in H as (σ & m1 & [-> ->]%get_heap_Ok & H).
  apply bind_Ok in H as (c & m1 & [Hc ->]%lift_Ok & H).
  apply bind_Ok in H as (wm & m1 & [Hwm ->]%py_attr_Ok & H).
  apply bind_Ok in H as (cn & m1 & [Hcn ->]%deref_Ok & H).
  apply bind_Ok in H as (p & m1 & [Hp ->]%py_attr_Ok & H).
  apply bind_Ok in H as (pn & m1 & [Hpn ->]%deref_Ok & H).
  apply bind_Ok in H as (? & m1 & [Hheap _]%await_Ok & H).
  apply IH in H as (ext & t & tn & -> & Hlast & Htn & Hstops & Hinner & Hwithin);
    [|by rewrite Hheap].
  rewrite Hheap in *.
  apply _uct_select_child in Hc.
  destruct (inv_links _ _ Hinv _ _ Hc) as (pn' & cn' & Hpn' & Hcn' & _ & Hdep & _).
  simplify_eq.
  exists (c :: ext), t, tn. rewrite <- app_assoc.
  split_and!; [done|done|done|done| |].
  - intros [|k] i nd' Hk Hlen Hi; simpl in *.
    + by simplify_eq.
    + eapply Hinner; [done| |done]. lia.
  - intros Ha i nd' [->|Hi]%elem_of_cons Hnd'.
    + by apply Ha.
    + eapply Hwithin; [|done..]. intros nd'' Hc'. simplify_eq.
      rewrite Hdep.
      match goal with |- depth ?x + 1 ≤ _ =>
        destruct (_is_terminal_with_depth_limit self x) eqn:E end.
      { exfalso. apply Hnstop. unfold stops. auto. }
      by apply not_terminal_depth in E as (_ & ? & _).
Qed.

(** ** Expansion and the depth limit *)

Lemma within_explores (L : nat) σ σ' (l : list nat) :
  explores σ σ' →
  (∀ i, i ∈ l → is_Some (σ !! i)) →
  within L σ l → within L σ' l.
Proof.
  intros [H _] Hval Hw i nd' Hi Hnd'.
  destruct (Hval _ Hi) as [nd Hnd].
  destruct (H _ _ Hnd) as (nd'' & Hnd'' & (_ & _ & Hd & _) & _).
  simplify_eq. rewrite Hd. by eapply Hw.
Qed.

Lemma _expand_deep (L : nat) self (i : nat) m m' nd :
  _expand self i m = Ok (tt, m') →
  heap m !! i = Some nd → depth nd ≤ L →
  deep_placeholders L (heap m) → deep_placeholders L (heap m').
Proof.
  intros Hexp Hnd Hle Hdeep. apply _expand_effect in Hexp
    as (nd0 & nd' & news & Hi & -> & Hpar & Hact & Hdep & Hfr & HN & HQ
        & Hres & Hst & Hnews & Hch).
  pose proof (lookup_lt_Some _ _ _ Hnd) as Hlt. rewrite Hnd in Hi.
  injection Hi as <-.
  intros j x Hj. apply lookup_expanded in Hj; [|done].
  destruct Hj as [[-> ->]|[[_ Hj]|[_ Hj]]].
  - split; lia.
  - by eapply Hdeep.
  - eapply Forall_lookup_1 in Hnews; [|done].
    destruct Hnews as (_ & ? & ? & ? & ? & _). split; [lia|done].
Qed.

Lemma _expand_resolved self (i : nat) m m' :
  _expand self i m = Ok (tt, m') →
  resolved_expanded (heap m) → resolved_expanded (heap m').
Proof.
  intros Hexp Hres. apply _expand_effect in Hexp
    as (nd & nd' & news & Hi & -> & Hpar & Hact & Hdep & Hfr & HN & HQ
        & Hres' & Hst & Hnews & Hch).
  pose proof (lookup_lt_Some _ _ _ Hi) as Hlt.
  intros j x Hj. apply lookup_expanded in Hj; [|done].
  destruct Hj as [[-> ->]|[[_ Hj]|[_ Hj]]].
  - split; [done|]. intros _ _.
    destruct (is_terminal nd'); [by left|right]. by rewrite Hch.
  - by eapply Hres.
  - eapply Forall_lookup_1 in Hnews; [|done].
    destruct Hnews as (_ & _ & _ & _ & Hs & Ht). split; [congruence|].
    intros _ Hx. rewrite Hs in Hx. by destruct Hx.
Qed.

(** After [_expand] the node is terminal or has its list of children. *)
Lemma _expand_expanded self (i : nat) m m' :
  _expand self i m = Ok (tt, m') →
  ∃ nd', heap m' !! i = Some nd' ∧ is_Some (state nd')
         ∧ (is_terminal nd' = true ∨ children nd' ≠ None).
Proof.
  intros Hexp. apply _expand_effect in Hexp
    as (nd & nd' & news & Hi & -> & Hpar & Hact & Hdep & Hfr & HN & HQ
        & Hres' & Hst & Hnews & Hch).
  pose proof (lookup_lt_Some _ _ _ Hi) as Hlt.
  exists nd'. split_and!; [|done|].
  - rewrite lookup_app_l by by rewrite length_insert.
    by apply list_lookup_insert_eq.
  - destruct (is_terminal nd'); [by left|right]. by rewrite Hch.
Qed.


(** ** Simulation, with the depth limit *)

Lemma last_elem_of {A} (l : list A) (x : A) : last l = Some x → x ∈ l.
Proof.
  intros [l' ->]%last_Some. apply elem_of_app. right. apply list_elem_of_here.
Qed.

Lemma _simulate_loop_effect (fuel : nat) self :
  ∀ (ext : list nat) (t : nat) m (path' : list nat) m',
    heap_inv_upto (0 :: ext) (heap m) →
    descends (heap m) 0 ext →
    last (0 :: ext) = Some t →
    within (Z.to_nat (depth_limit self)) (heap m) (0 :: ext) →
    deep_placeholders (Z.to_nat (depth_limit self)) (heap m) →
    resolved_expanded (heap m) →
    _simulate_loop fuel self (0 :: ext) t m = Ok (path', m') →
    ∃ ext', path' = 0 :: ext ++ ext'
            ∧ explores (heap m) (heap m')
            ∧ heap_inv_upto path' (heap m')
            ∧ descends (heap m') 0 (ext ++ ext')
            ∧ within (Z.to_nat (depth_limit self)) (heap m') path'
            ∧ deep_placeholders (Z.to_nat (depth_limit self)) (heap m')
            ∧ resolved_expanded (heap m').
Proof.
  induction fuel as [|fuel IH];
    intros ext t m path' m' Hinv Hdesc Hlast Hwithin Hdeep Hres; simpl; [done|].
  pose proof (last_elem_of _ _ Hlast) as Ht.
  intros (nd & m1 & [Hnd ->]%deref_Ok & H)%bind_Ok.
  apply bind_Ok in H as ([] & m1 & Hexp & H).
  assert (heap_inv_upto (0 :: ext) (heap m1) ∧ descends (heap m1) 0 ext
          ∧ explores (heap m) (heap m1)
          ∧ within (Z.to_nat (depth_limit self)) (heap m1) (0 :: ext)
          ∧ deep_placeholders (Z.to_nat (depth_limit self)) (heap m1)
          ∧ resolved_expanded (heap m1))
    as (Hinv1 & Hdesc1 & Hexp1 & Hwithin1 & Hdeep1 & Hres1).
  { case_bool_decide as Hst.
    - assert (children nd = None) as Hch.
      { destruct (children nd) eqn:Hch; [|done].
        destruct (inv_expanded _ _ Hinv t nd Hnd) as (_ & [? Hs] & _);
          [by rewrite Hch|congruence]. }
      pose proof (_expand_spec _ _ _ _ Hexp) as Hpost.
      destruct (_expand_explores _ _ _ _ _ Hexp Hnd) as [Hx _]; [by left|].
      split_and!.
      + by eapply expand_post_inv.
      + by eapply descends_expand.
      + done.
      + eapply within_explores; [done| |done].
        by eapply descends_valid.
      + eapply _expand_deep; [done..| |done]. by eapply Hwithin.
      + by eapply _expand_resolved.
    - apply mret_Ok in Hexp as [_ <-]. split_and!; try done.
      apply explores_refl. }
  clear Hexp Hinv Hdesc Hnd nd Hwithin Hdeep Hres.
  apply bind_Ok in H as (nd & m2 & [Hnd ->]%deref_Ok & H).
  destruct (_is_terminal_with_depth_limit self nd) eqn:Hterm.
  { apply mret_Ok in H as [<- <-]. exists []. rewrite app_nil_r. done. }
  destruct (children nd) as [cs|] eqn:Hcs; [|done].
  case_bool_decide.
  { apply mret_Ok in H as [<- <-]. exists []. rewrite app_nil_r. done. }
  apply bind_Ok in H as (frs & m2 & ->%map_m_deref_Ok & H).
  apply bind_Ok in H as (i & m2 & Hheap%call_choice_Ok & H).
  apply bind_Ok in H as (c & m3 & [Hc%py_index_Ok ->]%lift_Ok & H).
  rewrite <- Hheap in *.
  assert (is_child (heap m2) t c) as Hchild by by exists nd, cs.
  destruct (inv_links _ _ Hinv1 _ _ Hchild)
    as (pn & cn & Hpn & Hcn & _ & Hdep & Hlt).
  simplify_eq.
  change (0 :: ext ++ [c]) with (0 :: (ext ++ [c])) in H.
  eapply IH in H
    as (ext' & -> & Hx & Hinv' & Hdesc' & Hwithin' & Hdeep' & Hres');
    [| | | | |done..].
  - exists (c :: ext'). rewrite <- !app_assoc in *. simpl in *.
    split_and!; try done. by eapply explores_trans.
  - eapply heap_inv_upto_mono; [|done].
    intros j Hj. rewrite app_comm_cons. apply elem_of_app. by left.
  - by eapply descends_snoc.
  - apply last_snoc_cons.
  - intros j x Hj Hx. rewrite app_comm_cons in Hj.
    apply elem_of_app in Hj as [Hj|Hj]; [|apply list_elem_of_singleton in Hj as ->].
    + by eapply Hwithin1.
    + simplify_eq. rewrite Hdep.
      by apply not_terminal_depth in Hterm as (_ & ? & _).
Qed.

Lemma _simulate_loop_tail (fuel : nat) self :
  ∀ (path : list nat) (t : nat) m (path' : list nat) m',
    last path = Some t →
    _simulate_loop fuel self path t m = Ok (path', m') →
    ∃ (t' : nat) tn',
      last path' = Some t' ∧ heap m' !! t' = Some tn'
      ∧ is_Some (state tn')
      ∧ (_is_terminal_with_depth_limit self tn' = true
         ∨ children tn' = Some []).
Proof.
  induction fuel as [|fuel IH]; intros path t m path' m' Hlast; simpl; [done|].
  intros (nd & m1 & [Hnd ->]%deref_Ok & H)%bind_Ok.
  apply bind_Ok in H as ([] & m1 & Hexp & H).
  apply bind_Ok in H as (nd1 & m2 & [Hnd1 ->]%deref_Ok & H).
  assert (is_Some (state nd1)) as Hst.
  { case_bool_decide as Hs.
    - destruct (_expand_expanded _ _ _ _ Hexp) as (nd' & Hnd' & ? & _).
      congruence.
    - apply mret_Ok in Hexp as [_ <-].
      rewrite Hnd in Hnd1. injection Hnd1 as <-.
      by destruct (state nd). }
  destruct (_is_terminal_with_depth_limit self nd1) eqn:Hterm.
  { apply mret_Ok in H as [<- <-]. exists t, nd1. auto. }
  destruct (children nd1) as [cs|] eqn:Hcs; [|done].
  case_bool_decide as Hlen.
  { apply mret_Ok in H as [<- <-]. exists t, nd1. split_and!; [done..|].
    right. apply length_zero_iff_nil in Hlen. congruence. }
  apply bind_Ok in H as (frs & m2 & _ & H).
  apply bind_Ok in H as (i & m3 & _ & H).
  apply bind_Ok in H as (c & m4 & _ & H).
  eapply IH; [|done]. apply last_snoc.
Qed.


(** ** One iteration, step by step *)

Lemma iterate_effect (fuel : nat) self m path cum self' m' :
  heap_inv (heap m) →
  deep_placeholders (Z.to_nat (depth_limit self)) (heap m) →
  resolved_expanded (heap m) →
  iterate fuel self 0 m = Ok (path, cum, self', m') →
  ∃ ext σ2 (t : nat) tn,
    path = 0 :: ext
    ∧ explores (heap m) σ2
    ∧ heap_inv_upto path σ2 ∧ descends σ2 0 ext
    ∧ within (Z.to_nat (depth_limit self)) σ2 path
    ∧ deep_placeholders (Z.to_nat (depth_limit self)) σ2
    ∧ resolved_expanded σ2
    ∧ last path = Some t ∧ σ2 !! t = Some tn
    ∧ (∀ j nd, j ∈ path → σ2 !! j = Some nd →
         heap m' !! j = Some (back_propagated (reward tn) nd))
    ∧ (∀ j, j ∉ path → heap m' !! j = σ2 !! j)
    ∧ ((0 < depth_limit self)%Z →
       ∃ rn, σ2 !! 0 = Some rn ∧ children rn ≠ None)
    ∧ (_is_terminal_with_depth_limit self tn = true
       ∨ (is_Some (state tn) ∧ children tn = Some [])).
Proof.
  intros Hinv Hdeep Hres. unfold iterate, _select.
  intros (path0 & m1 & Hsel & H)%bind_Ok.
  pose proof (_select_loop_spec _ _ _ _ _ _ _ _ Hinv Hsel)
    as [Hh1 (ext0 & -> & Hdesc0)].
  apply (_select_loop_stop _ _ []) in Hsel
    as (ext0' & t0' & tn0' & Heq & Hlast0 & Htn0' & Hstop & Hinner & Hwithin0);
    [|done].
  simpl in Heq. injection Heq as <-. simpl in *.
  destruct (inv_root _ _ Hinv) as (r0 & Hr0 & _ & Hr0d & _ & Hr0t).
  assert (within (Z.to_nat (depth_limit self)) (heap m) (0 :: ext0)) as Hw0.
  { apply Hwithin0. intros nd Hnd. simplify_eq. lia. }
  clear Hwithin0. rewrite <- Hh1 in *.
  apply (heap_inv_upto_mono [] (0 :: ext0)) in Hinv;
    [|by intros ? ?%elem_of_nil].
  apply bind_Ok in H as (t0 & m2 & [Ht0%py_last_Ok ->]%lift_Ok & H).
  apply bind_Ok in H as (tn0 & m2 & [Htn0 ->]%deref_Ok & H).
  simplify_eq.
  apply bind_Ok in H as (path1 & m2 & Hsim & H).
  assert (∃ ext, path1 = 0 :: ext
                 ∧ explores (heap m1) (heap m2)
                 ∧ heap_inv_upto (0 :: ext) (heap m2)
                 ∧ descends (heap m2) 0 ext
                 ∧ within (Z.to_nat (depth_limit self)) (heap m2) (0 :: ext)
                 ∧ deep_placeholders (Z.to_nat (depth_limit self)) (heap m2)
                 ∧ resolved_expanded (heap m2)
                 ∧ ((0 < depth_limit self)%Z →
                    ∃ rn, heap m2 !! 0 = Some rn ∧ children rn ≠ None)
                 ∧ (∃ (t2 : nat) tn2,
                      last path1 = Some t2 ∧ heap m2 !! t2 = Some tn2
                      ∧ (_is_terminal_with_depth_limit self tn2 = true
                         ∨ (is_Some (state tn2) ∧ children tn2 = Some []))))
    as (ext & -> & Hx & Hinv2 & Hdesc2 & Hw2 & Hdeep2 & Hres2 & Hroot2
        & Htail2).
  { pose proof (last_elem_of _ _ Ht0) as Hin.
    destruct (_is_terminal_with_depth_limit self tn0) eqn:Hterm; simpl in Hsim.
    - apply mret_Ok in Hsim as [<- <-]. exists ext0.
      split_and!; try done; [apply explores_refl| |by exists t0, tn0; auto].
      intros Hpos. exists r0. split; [done|]. intros Hnone.
      assert (ext0 = []) as ->.
      { destruct ext0 as [|b ext0]; [done|]. exfalso.
        eapply (Hinner 0 0 r0); [done|simpl; lia|done|]. by left. }
      simpl in Ht0. simplify_eq.
      unfold _is_terminal_with_depth_limit in Hterm.
      rewrite Hr0t, Hr0d in Hterm. simpl in Hterm.
      apply bool_decide_eq_true in Hterm. lia.
    - apply bind_Ok in Hsim as ([] & m3 & Hexp & Hsim).
      pose proof (_expand_spec _ _ _ _ Hexp) as Hpost.
      assert (children tn0 = None ∨ children tn0 = Some []) as Hnone.
      { destruct Hstop as [?|[?|?]]; [by left|by right|congruence]. }
      destruct (_expand_explores _ _ _ _ _ Hexp Htn0 Hnone) as [Hx3 _].
      pose proof (expand_post_inv _ _ _ _ Hinv Hin Hpost) as Hinv3.
      unfold _simulate in Hsim.
      apply bind_Ok in Hsim as (t1 & m4 & [Ht1%py_last_Ok ->]%lift_Ok & Hsim).
      pose proof (_simulate_loop_tail _ _ _ _ _ _ _ Ht1 Hsim)
        as (t2 & tn2 & Ht2 & Htn2 & Hst2 & Hend2).
      eapply _simulate_loop_effect in Hsim
        as (ext' & -> & Hx4 & Hinv4 & Hdesc4 & Hw4 & Hdeep4 & Hres4);
        [|done| | | | |].
      + exists (ext0 ++ ext'). split_and!; try done.
        * by eapply explores_trans.
        * intros Hpos.
          destruct (inv_root _ _ Hinv3) as (r3 & Hr3 & _ & _ & _ & Hr3t).
          assert (children r3 ≠ None) as Hch3.
          { destruct (children r0) as [cs0|] eqn:Hcs0.
            - destruct Hx3 as [Hx3 _].
              destruct (Hx3 _ _ Hr0) as (r3' & Hr3' & Hk & _).
              simplify_eq. apply Hk. by rewrite Hcs0.
            - assert (ext0 = []) as ->.
              { destruct ext0 as [|b ext0]; [done|]. exfalso.
                eapply (Hinner 0 0 r0); [done|simpl; lia|done|]. by left. }
              simpl in Ht0. simplify_eq.
              destruct (_expand_expanded _ _ _ _ Hexp)
                as (r3' & Hr3' & _ & [?|?]); simplify_eq; [congruence|done]. }
          destruct Hx4 as [Hx4 _].
          destruct (Hx4 _ _ Hr3) as (r4 & Hr4 & Hk & _).
          exists r4. split; [done|]. by apply Hk.
        * exists t2, tn2. split_and!; [done..|].
          destruct Hend2; auto.
      + by eapply descends_expand.
      + done.
      + eapply within_explores; [done| |done]. by eapply descends_valid.
      + eapply _expand_deep; [done..| |done]. by eapply Hw0.
      + by eapply _expand_resolved. }
  clear Hinv Hdesc0 Htn0 Ht0 Hinner Hstop Hw0.
  apply bind_Ok in H as (cum1 & m3 & Hbp & H).
  apply bind_Ok in H as (t & m4 & [Ht%py_last_Ok ->]%lift_Ok & H).
  apply bind_Ok in H as (tn & m4 & [Htn ->]%deref_Ok & H).
  apply mret_Ok in H as [[= <- <- <-] <-].
  pose proof (descends_valid _ _ _ Hinv2 Hdesc2) as Hvalid.
  destruct (Hvalid t) as [tn2 Htn2]; [by apply last_elem_of|].
  destruct (back_propagate_run (0 :: ext) m2 t tn2)
    as (m3' & first & fnd & Hrun & _ & Hhead & Hfirst & Hin & Hout);
    [by eapply descends_NoDup|done..|].
  rewrite Hrun in Hbp. simplify_eq.
  destruct Htail2 as (t2 & tn2' & Ht2 & Htn2' & Hend2).
  rewrite Ht in Ht2. injection Ht2 as <-.
  rewrite Htn2 in Htn2'. injection Htn2' as <-.
  exists ext, (heap m2), t, tn2. split_and!; done.
Qed.


(** ** What an iteration leaves behind *)

Lemma keeps_back_propagated (r : R) nd : keeps nd (back_propagated r nd).
Proof. unfold keeps. simpl. split_and!; auto. Qed.

Lemma back_propagated_heap (r : R) σ σ' (path : list nat) :
  (∀ i, i ∈ path → is_Some (σ !! i)) →
  (∀ i nd, i ∈ path → σ !! i = Some nd →
           σ' !! i = Some (back_propagated r nd)) →
  (∀ i, i ∉ path → σ' !! i = σ !! i) →
  (∀ i nd, σ !! i = Some nd →
     σ' !! i = Some (if decide (i ∈ path) then back_propagated r nd else nd))
  ∧ (∀ i nd', σ' !! i = Some nd' →
       ∃ nd, σ !! i = Some nd
             ∧ nd' = if decide (i ∈ path) then back_propagated r nd else nd).
Proof.
  intros Hval Hin Hout.
  assert (∀ i nd, σ !! i = Some nd →
            σ' !! i = Some (if decide (i ∈ path) then back_propagated r nd
                            else nd)) as Hfwd.
  { intros i nd Hi. case_decide; [by apply Hin|]. by rewrite Hout. }
  split; [done|]. intros i nd' Hi.
  destruct (σ !! i) as [nd|] eqn:Hnd.
  - exists nd. split; [done|]. apply Hfwd in Hnd. congruence.
  - destruct (decide (i ∈ path)) as [Hdec|Hdec].
    + destruct (Hval _ Hdec) as [? ?]. congruence.
    + rewrite Hout in Hi by done. congruence.
Qed.

Lemma iterate_step (fuel : nat) self m path cum self' m' :
  heap_inv (heap m) →
  deep_placeholders (Z.to_nat (depth_limit self)) (heap m) →
  resolved_expanded (heap m) →
  iterate fuel self 0 m = Ok (path, cum, self', m') →
  heap_inv (heap m')
  ∧ deep_placeholders (Z.to_nat (depth_limit self)) (heap m')
  ∧ resolved_expanded (heap m')
  ∧ grows (heap m) (heap m')
  ∧ (∃ rn rn', heap m !! 0 = Some rn ∧ heap m' !! 0 = Some rn'
               ∧ N rn' = N rn + 1)
  ∧ ((0 < depth_limit self)%Z →
     ∃ rn, heap m' !! 0 = Some rn ∧ children rn ≠ None).
Proof.
  intros Hinv Hdeep Hres Hit.
  pose proof (iterate_spec _ _ _ _ _ _ _ Hinv Hit) as [Hinv' _].
  apply iterate_effect in Hit
    as (ext & σ2 & t & tn & -> & [Hx Hnew] & Hinv2 & Hdesc2 & Hw2 & Hdeep2
        & Hres2 & Hlast & Htn & Hin & Hout & Hroot & _); [|done..].
  destruct (back_propagated_heap (reward tn) σ2 (heap m') (0 :: ext))
    as [Hfwd Hbwd]; [by eapply descends_valid|done..|].
  split_and!; [done| | | | |].
  - intros j nd' Hj. destruct (Hbwd _ _ Hj) as (nd & Hnd & ->).
    destruct (Hdeep2 _ _ Hnd) as [Hle Hph].
    case_decide as Hd; simpl; [|done].
    split; [done|]. intros Hlt. exfalso.
    pose proof (Hw2 _ _ Hd Hnd). lia.
  - intros j nd' Hj. destruct (Hbwd _ _ Hj) as (nd & Hnd & ->).
    destruct (Hres2 j nd Hnd) as [Ha Hb]. by case_decide.
  - split.
    + intros j nd Hj. destruct (Hx _ _ Hj) as (nd2 & Hnd2 & Hk & HN & _).
      eexists. split; [by apply Hfwd|].
      case_decide; simpl; [|split; [done|lia]].
      split; [|lia]. eapply keeps_trans; [done|apply keeps_back_propagated].
    + intros j nd' Hj Hle. destruct (Hbwd _ _ Hj) as (nd & Hnd & ->).
      pose proof (Hnew _ _ Hnd Hle). case_decide; simpl; lia.
  - destruct (inv_root _ _ Hinv) as (r0 & Hr0 & _).
    destruct (Hx _ _ Hr0) as (r2 & Hr2 & _ & HN & _).
    exists r0, (back_propagated (reward tn) r2). split_and!; [done| |simpl; lia].
    apply Hin; [apply list_elem_of_here|done].
  - intros Hpos. destruct (Hroot Hpos) as (rn & Hrn & Hch).
    eexists. split; [by apply Hfwd|]. by case_decide.
Qed.

Lemma iterations_effect (fuel : nat) (n : nat) :
  ∀ self m self' m',
    heap_inv (heap m) →
    deep_placeholders (Z.to_nat (depth_limit self)) (heap m) →
    resolved_expanded (heap m) →
    iterations fuel n self 0 m = Ok (self', m') →
    heap_inv (heap m')
    ∧ deep_placeholders (Z.to_nat (depth_limit self)) (heap m')
    ∧ resolved_expanded (heap m')
    ∧ (∀ i nd, heap m !! i = Some nd →
         ∃ nd', heap m' !! i = Some nd' ∧ keeps nd nd'
                ∧ N nd ≤ N nd' ≤ N nd + n)
    ∧ (∀ i nd', heap m' !! i = Some nd' → length (heap m) ≤ i → N nd' ≤ n)
    ∧ (∃ rn rn', heap m !! 0 = Some rn ∧ heap m' !! 0 = Some rn'
                 ∧ N rn' = N rn + n)
    ∧ (1 ≤ n → (0 < depth_limit self)%Z →
       ∃ rn, heap m' !! 0 = Some rn ∧ children rn ≠ None).
Proof.
  induction n as [|n IH]; intros self m self' m' Hinv Hdeep Hres; simpl.
  - intros [<- <-]%mret_Ok. split_and!; try done.
    + intros i nd Hi. exists nd. split_and!; [done|apply keeps_refl|lia..].
    + intros i nd Hi Hle. apply lookup_lt_Some in Hi. lia.
    + destruct (inv_root _ _ Hinv) as (r0 & Hr0 & _).
      exists r0, r0. split_and!; [done..|lia].
    + lia.
  - intros ([[path cum] self1] & m1 & Hit & H)%bind_Ok.
    pose proof (iterate_tail _ _ _ _ _ _ _ _ Hit) as (t & tn & _ & _ & Hself1).
    assert (depth_limit self1 = depth_limit self) as Hdl.
    { rewrite Hself1. apply recorded_fields. }
    apply iterate_step in Hit
      as (Hinv1 & Hdeep1 & Hres1 & [Hg Hgnew] & (r0 & r1 & Hr0 & Hr1 & HN1)
          & Hroot1); [|done..].
    apply IH in H
      as (Hinv2 & Hdeep2 & Hres2 & Hg2 & Hgnew2 & (r1' & r2 & Hr1' & Hr2 & HN2)
          & _); [|by rewrite ?Hdl..].
    rewrite Hdl in *. simplify_eq. split_and!; try done.
    + intros i nd Hi. destruct (Hg _ _ Hi) as (nd1 & Hi1 & Hk1 & HNa).
      destruct (Hg2 _ _ Hi1) as (nd2 & Hi2 & Hk2 & HNb).
      exists nd2. split_and!; [done|by eapply keeps_trans|lia..].
    + intros i nd2 Hi2 Hle.
      destruct (decide (i < length (heap m1))) as [Hlt|Hge].
      * destruct (lookup_lt_is_Some_2 (heap m1) i) as [nd1 Hi1]; [done|].
        destruct (Hg2 _ _ Hi1) as (nd2' & Hi2' & _ & HNb). simplify_eq.
        pose proof (Hgnew _ _ Hi1 Hle). lia.
      * pose proof (Hgnew2 _ _ Hi2). lia.
    + exists r0, r2. split_and!; [done..|lia].
    + intros _ Hpos. destruct (Hroot1 Hpos) as (rn & Hrn & Hch).
      destruct (Hg2 _ _ Hrn) as (rn2 & Hrn2 & Hk & _).
      exists rn2. split; [done|]. by apply Hk.
Qed.


(** ** The tree that a call leaves behind *)

Lemma search_entry_limits self (wm : model) (sc : config) :
  depth_limit (search_entry (set_collaborators wm sc self)) = depth_limit self
  ∧ n_iters (set_collaborators wm sc self) = n_iters self
  ∧ output_strategy (search_entry (set_collaborators wm sc self))
    = output_strategy self
  ∧ simulate_choice (search_entry (set_collaborators wm sc self))
    = simulate_choice self.
Proof.
  unfold search_entry. simpl.
  destruct (output_trace_in_each_iter self); done.
Qed.

Lemma deep_placeholders_fresh (L : nat) (ed : Details) (s0 : State) :
  deep_placeholders L [fresh_root ed s0 : node].
Proof.
  intros [|i] nd Hi; simpl in Hi; simplify_eq. simpl. split; lia.
Qed.

Lemma resolved_expanded_fresh (ed : Details) (s0 : State) :
  resolved_expanded [fresh_root ed s0 : node].
Proof.
  intros [|i] nd Hi; simpl in Hi; simplify_eq. simpl. split; [done|].
  by intros [].
Qed.

Lemma call_tree (ed : Details) (fuel : nat) self (wm : model) (sc : config) m
    (res : MCTSResult) self' m' :
  MCTS__call__ ed fuel self wm sc m = Ok (res, self', m') →
  heap_inv (heap m')
  ∧ deep_placeholders (Z.to_nat (depth_limit self)) (heap m')
  ∧ resolved_expanded (heap m')
  ∧ tree_state res = Some 0
  ∧ (∃ s0 w0 rn,
       init_state wm (world m) = Some (s0, w0)
       ∧ heap m' !! 0 = Some rn ∧ keeps (fresh_root ed s0) rn
       ∧ N rn = Z.to_nat (n_iters self))
  ∧ (∀ i nd, heap m' !! i = Some nd → N nd ≤ Z.to_nat (n_iters self))
  ∧ (1 ≤ Z.to_nat (n_iters self) → (0 < depth_limit self)%Z →
     ∃ rn, heap m' !! 0 = Some rn ∧ children rn ≠ None).
Proof.
  intros (Hsearch & _ & _ & Hroot & _)%MCTS__call___Ok.
  apply search_Ok in Hsearch
    as (wm' & s0 & w0 & self1 & Hwm & Hinit & Hits & Hcfg & Hinv & Hpost);
    [|done].
  simpl in Hwm, Hinit. simplify_eq.
  destruct (search_entry_limits self wm' sc) as (Hdl & Hn & Hos & _).
  rewrite Hn in Hits.
  apply iterations_effect in Hits
    as (_ & Hdeep & Hres & Hg & Hnew & (r0 & rn & Hr0' & Hrn & HN) & Hch);
    [|apply heap_inv_fresh|apply deep_placeholders_fresh
     |apply resolved_expanded_fresh].
  rewrite Hdl in *. simpl in Hr0'. simplify_eq. simpl in *.
  split_and!; try done.
  - rewrite Hroot.
    assert (root self1 = Some 0) as Hr1.
    { destruct Hcfg as (c' & it & ->). simpl.
      by destruct (search_entry_fields (set_collaborators wm' sc self))
        as (_ & _ & _ & _ & _ & -> & _). }
    simpl in Hpost.
    repeat case_decide; [destruct Hpost as (? & ? & _ & _ & ->)
                        |destruct Hpost as (? & ? & _ & ->)|subst]; done.
  - exists s0, w0, rn. split_and!; [done..| |lia].
    destruct (Hg 0 _ eq_refl) as (rn' & Hrn' & Hk & _). by simplify_eq.
  - intros i nd Hi. destruct i as [|i].
    + simplify_eq. lia.
    + eapply Hnew; [done|]. simpl. lia.
Qed.


(** ** The depth limit, the visit counts, and growth *)

(** X3.  In the tree that a call leaves behind no node lies deeper than
    one level below the depth limit, and the nodes of that last level are
    placeholders: they have never been resolved, visited or expanded. *)
Theorem depth_limit_respected (ed : Details) (fuel : nat) self (wm : model)
    (sc : config) m (res : MCTSResult) self' m' (i : nat) nd :
  MCTS__call__ ed fuel self wm sc m = Ok (res, self', m') →
  heap m' !! i = Some nd →
  depth nd ≤ Z.to_nat (depth_limit self) + 1
  ∧ (Z.to_nat (depth_limit self) < depth nd →
     state nd = None ∧ N nd = 0 ∧ children nd = None).
Proof.
  intros (_ & Hdeep & _)%call_tree Hi. exact (Hdeep _ _ Hi).
Qed.

(** X4.  After a call the root has been visited once per iteration,
    and no node more often than that. *)
Theorem root_visited_once_per_iteration (ed : Details) (fuel : nat) self
    (wm : model) (sc : config) m (res : MCTSResult) self' m' :
  MCTS__call__ ed fuel self wm sc m = Ok (res, self', m') →
  tree_state res = Some 0
  ∧ (∃ rn, heap m' !! 0 = Some rn ∧ N rn = Z.to_nat (n_iters self))
  ∧ ∀ i nd, heap m' !! i = Some nd → N nd ≤ Z.to_nat (n_iters self).
Proof.
  intros (_ & _ & _ & Hroot & (s0 & w0 & rn & _ & Hrn & _ & HN) & Hall & _)%call_tree.
  split_and!; [done| |done]. by exists rn.
Qed.

Lemma reachable_tree_inv (fuel : nat) (ed : Details) self m :
  reachable ed fuel self m →
  heap_inv (heap m)
  ∧ deep_placeholders (Z.to_nat (depth_limit self)) (heap m)
  ∧ resolved_expanded (heap m).
Proof.
  induction 1 as [self s0 w|self m path cum self' m' _ (Hinv & Hdeep & Hres) Hit].
  - split_and!; [apply heap_inv_fresh|apply deep_placeholders_fresh
                |apply resolved_expanded_fresh].
  - pose proof (iterate_tail _ _ _ _ _ _ _ _ Hit) as (t & tn & _ & _ & Hself).
    assert (depth_limit self' = depth_limit self) as ->.
    { rewrite Hself. apply recorded_fields. }
    by apply iterate_step in Hit as (? & ? & ? & _).
Qed.

(** X6.  An iteration only adds to the tree: a node that was there
    keeps its parent, action, depth and fast reward; once resolved it keeps
    its state, reward and terminal flag; a non-empty list of children is
    never replaced; and its visit count grows by one or stays. *)
Theorem iterate_only_grows (fuel : nat) (ed : Details) self m path cum self' m'
    (i : nat) nd :
  reachable ed fuel self m →
  iterate fuel self 0 m = Ok (path, cum, self', m') →
  heap m !! i = Some nd →
  ∃ nd', heap m' !! i = Some nd'
         ∧ parent nd' = parent nd ∧ action nd' = action nd
         ∧ depth nd' = depth nd ∧ fast_reward nd' = fast_reward nd
         ∧ (is_Some (state nd) →
              state nd' = state nd ∧ reward nd' = reward nd
              ∧ is_terminal nd' = is_terminal nd)
         ∧ (∀ cs, children nd = Some cs → cs ≠ [] → children nd' = Some cs)
         ∧ N nd ≤ N nd' ≤ N nd + 1.
Proof.
  intros (Hinv & Hdeep & Hres)%reachable_tree_inv Hit Hi.
  apply iterate_step in Hit as (_ & _ & _ & [Hg _] & _); [|done..].
  destruct (Hg _ _ Hi) as (nd' & Hi' & (? & ? & ? & ? & ? & ? & _) & ?).
  exists nd'. split_and!; first [done|lia].
Qed.


(** ** A depth limit of zero or less *)

Local Abbreviation vroot := (@visited_root State Action Details).

Lemma at_depth_limit (ed : Details) self (s0 : State) (k : nat) :
  (depth_limit self <= 0)%Z →
  _is_terminal_with_depth_limit self (vroot ed s0 k) = true.
Proof.
  intros Hdl. unfold _is_terminal_with_depth_limit. simpl.
  apply bool_decide_eq_true. lia.
Qed.

Lemma Q_visited_root (ed : Details) (s0 : State) (k : nat) :
  Q (vroot ed s0 k) = 0%R.
Proof. unfold Q. simpl. by case_decide. Qed.

Lemma visited_root_update (ed : Details) (s0 : State) (k : nat) :
  set_N (k + 1)
    (set_Q ((Q (vroot ed s0 k) * INR k + 0)
            / INR (k + 1))%R
       (vroot ed s0 k))
  = vroot ed s0 (k + 1).
Proof.
  rewrite Q_visited_root. unfold set_N, set_Q, visited_root. simpl.
  f_equal. unfold Rdiv. rewrite Rmult_0_l, Rplus_0_l, Rmult_0_l. done.
Qed.

Lemma iterate_at_depth_limit (ed : Details) (fuel : nat) self (s0 : State)
    (k : nat) (w : World) :
  (depth_limit self <= 0)%Z →
  iterate (S fuel) self 0 (mkMachine [vroot ed s0 k] w)
  = Ok ([0], 0%R, recorded self [0] 0 false,
        mkMachine [vroot ed s0 (k + 1)] w).
Proof.
  intros Hdl. unfold iterate, _select, _back_propagate.
  do 3 (unfold mbind, M_bind, mret, M_ret, lift, deref, modify;
        cbn -[_is_terminal_with_depth_limit recorded INR]).
  rewrite (at_depth_limit ed self s0 k Hdl).
  repeat (progress (unfold mbind, M_bind, mret, M_ret, lift, deref, modify;
                    cbn -[_is_terminal_with_depth_limit recorded INR])).
  rewrite !visited_root_update, !Q_visited_root. reflexivity.
Qed.

Lemma recorded_not_terminal self (p : list nat) (c : R) :
  output_strategy self ≠ "last_iter" → recorded self p c false = self.
Proof.
  intros Hos. unfold recorded.
  rewrite !andb_false_r. cbn [andb].
  by rewrite bool_decide_eq_false_2 by done.
Qed.

Lemma iterations_at_depth_limit (ed : Details) (fuel : nat) self (s0 : State)
    (w : World) (n : nat) :
  (depth_limit self <= 0)%Z →
  output_strategy self ≠ "last_iter" →
  ∀ k, iterations (S fuel) n self 0 (mkMachine [vroot ed s0 k] w)
       = Ok (self, mkMachine [vroot ed s0 (k + n)] w).
Proof.
  intros Hdl Hos. induction n as [|n IH]; intros k.
  - simpl. unfold mret, M_ret. by rewrite Nat.add_0_r.
  - cbn [iterations]. erewrite bind_run by by apply iterate_at_depth_limit.
    rewrite recorded_not_terminal by done. rewrite IH.
    by replace (k + 1 + n) with (k + S n) by lia.
Qed.


(** ** A call whose iterations never expand the root *)

Lemma call_on_unexpanded_root (ed : Details) (fuel : nat) self (wm : model)
    (sc : config) m (s0 : State) (w0 : World) (k : nat) :
  init_state wm (world m) = Some (s0, w0) →
  iterations (S fuel) (Z.to_nat (n_iters self))
    (search_entry (set_collaborators wm sc self)) 0
    (mkMachine [fresh_root ed s0] w0)
  = Ok (search_entry (set_collaborators wm sc self),
        mkMachine [vroot ed s0 k] w0) →
  MCTS__call__ ed (S fuel) self wm sc m
  = if decide (output_strategy self = "follow_max") then Raise TypeError
    else match aggregator self with
         | Some _ => Raise TypeError
         | None =>
             let traces :=
               if output_trace_in_each_iter self then Some [] else None in
             let firsts :=
               if output_trace_in_each_iter self then Some [] else None in
             Ok (mkResult None NegInf None None (Some 0) traces firsts None,
                 search_entry (set_collaborators wm sc self),
                 mkMachine [vroot ed s0 k] w0)
         end.
Proof.
  intros Hinit Hits.
  destruct self as [wm0 sc0 otr w dl n cr ch os fr oi oc tr rt ag].
  unfold search_entry in *.
  unfold MCTS__call__, reset_id, search, MCTSNode__init__, alloc, await,
    get_heap, lift.
  unfold mbind, M_bind, mret, M_ret.
  cbn -[follow_max_loop _dfs_max_reward bool_decide iterations Z.to_nat
        MCTSAggregation__call__] in *.
  rewrite Hinit.
  destruct otr;
    cbn -[follow_max_loop _dfs_max_reward bool_decide iterations Z.to_nat
          MCTSAggregation__call__] in *;
    unfold fresh_root in Hits; rewrite Hits;
    cbn -[follow_max_loop _dfs_max_reward bool_decide MCTSAggregation__call__];
    (case_decide as Hfm;
     [rewrite bool_decide_eq_true_2 by done; by cbn|]);
    rewrite (bool_decide_eq_false_2 (os = "follow_max")) by done;
    (destruct (decide (os = "max_reward")) as [Hmr|Hmr];
     [rewrite bool_decide_eq_true_2 by done
     |rewrite bool_decide_eq_false_2 by done]);
    cbn; destruct ag; cbn; done.
Qed.


(** X11.  With [n_iters] zero or negative the loop of [search] does not
    run: the only call into the collaborators is [init_state], the tree is
    the fresh root, and the result carries no trajectory and minus infinity
    as [cum_reward].  As the root then has no list of children, the
    [follow_max] descent and an aggregator both fail on iterating over
    [None]. *)
Theorem call_without_iterations (ed : Details) (fuel : nat) self (wm : model)
    (sc : config) m (s0 : State) (w0 : World) :
  (n_iters self <= 0)%Z →
  init_state wm (world m) = Some (s0, w0) →
  MCTS__call__ ed (S fuel) self wm sc m
  = if decide (output_strategy self = "follow_max") then Raise TypeError
    else match aggregator self with
         | Some _ => Raise TypeError
         | None =>
             let traces :=
               if output_trace_in_each_iter self then Some [] else None in
             let firsts :=
               if output_trace_in_each_iter self then Some [] else None in
             Ok (mkResult None NegInf None None (Some 0) traces firsts None,
                 search_entry (set_collaborators wm sc self),
                 mkMachine [fresh_root ed s0] w0)
         end.
Proof.
  intros Hn Hinit.
  apply (call_on_unexpanded_root ed fuel self wm sc m s0 w0 0); [done|].
  by replace (Z.to_nat (n_iters self)) with 0 by lia.
Qed.

(** X12.  With [depth_limit] zero or negative the root is at the depth
    limit: every iteration selects the root alone, expands nothing, and
    back-propagates the root's reward 0, so that after the call the tree is
    still the root, visited once per iteration and with [Q = 0], and the
    world has only seen [init_state].  No strategy other than [last_iter]
    finds a trajectory, and [follow_max] and an aggregator fail as they do
    without iterations. *)
Theorem call_with_depth_limit_zero (ed : Details) (fuel : nat) self
    (wm : model) (sc : config) m (s0 : State) (w0 : World) :
  (depth_limit self <= 0)%Z →
  output_strategy self ≠ "last_iter" →
  init_state wm (world m) = Some (s0, w0) →
  MCTS__call__ ed (S fuel) self wm sc m
  = if decide (output_strategy self = "follow_max") then Raise TypeError
    else match aggregator self with
         | Some _ => Raise TypeError
         | None =>
             let traces :=
               if output_trace_in_each_iter self then Some [] else None in
             let firsts :=
               if output_trace_in_each_iter self then Some [] else None in
             Ok (mkResult None NegInf None None (Some 0) traces firsts None,
                 search_entry (set_collaborators wm sc self),
                 mkMachine [visited_root ed s0 (Z.to_nat (n_iters self))] w0)
         end.
Proof.
  intros Hdl Hos Hinit.
  apply (call_on_unexpanded_root ed fuel self wm sc m s0 w0); [done|].
  destruct (search_entry_limits self wm sc) as (Hdl' & _ & Hos' & _).
  refine (iterations_at_depth_limit ed fuel _ s0 w0 _ _ _ 0);
    by rewrite ?Hdl', ?Hos'.
Qed.

(** X1.  A call terminates: when the simulation strategy returns, the
    loops of [_select] and [_simulate] make at most [depth_limit + 1]
    rounds and the walks over the tree go no deeper, so that fuel beyond
    [depth_limit + 1] is never used up. *)
Theorem call_terminates (ed : Details) (fuel : nat) self (wm : model)
    (sc : config) m :
  choice_halts (simulate_choice self) →
  Z.to_nat (depth_limit self) + 2 ≤ fuel →
  (∃ res self' m', MCTS__call__ ed fuel self wm sc m = Ok (res, self', m'))
  ∨ (∃ e, MCTS__call__ ed fuel self wm sc m = Raise e).
Proof.
  intros Hch Hfuel.
  pose proof (MCTS__call___halts ed fuel self wm sc m Hch Hfuel) as Hhalts.
  destruct (MCTS__call__ ed fuel self wm sc m) as [[[res self'] m']|e|];
    [left|right|done]; eauto.
Qed.


(** ** The trajectories kept by the iterations *)

Lemma descends_keeps σ σ' (ext : list nat) :
  (∀ i nd, σ !! i = Some nd → ∃ nd', σ' !! i = Some nd' ∧ keeps nd nd') →
  ∀ a, descends σ a ext → descends σ' a ext.
Proof.
  intros Hk. induction ext as [|b ext IH]; intros a; simpl; [done|].
  intros ((pn & cs & Hp & Hcs & Hb) & Hlt & Hd). split_and!; [|done|by apply IH].
  destruct (Hk _ _ Hp) as (pn' & Hp' & (_ & _ & _ & _ & _ & Hch & _)).
  exists pn', cs. split_and!; [done| |done].
  apply Hch; [done|]. intros ->. by apply elem_of_nil in Hb.
Qed.

Lemma recorded_config self (p : list nat) (c : R) (t : bool) :
  output_strategy (recorded self p c t) = output_strategy self
  ∧ depth_limit (recorded self p c t) = depth_limit self.
Proof.
  destruct (same_config_recorded self self p c t (same_config_refl self))
    as (c' & it & ->). done.
Qed.

Lemma recorded_last_iter self (p : list nat) (c : R) (t : bool) :
  output_strategy self = "last_iter" →
  _output_iter (recorded self p c t) = Some p
  ∧ _output_cum_reward (recorded self p c t) = Fin c.
Proof.
  intros Hos. unfold recorded.
  rewrite (bool_decide_eq_false_2 (output_strategy self = "max_iter"))
    by by rewrite Hos.
  cbn [andb].
  rewrite (bool_decide_eq_true_2 (output_strategy self = "last_iter")) by done.
  rewrite bool_decide_eq_false_2 by (simpl; by rewrite Hos).
  done.
Qed.

Lemma recorded_streaming self (p : list nat) (c : R) (t : bool) :
  output_strategy self ≠ "last_iter" →
  (_output_iter (recorded self p c t) = _output_iter self
   ∧ _output_cum_reward (recorded self p c t) = _output_cum_reward self)
  ∨ (_output_iter (recorded self p c t) = Some p
     ∧ _output_cum_reward (recorded self p c t) = Fin c ∧ t = true).
Proof.
  intros Hos.
  destruct (decide (output_strategy self = "max_iter")) as [E|E1].
  { rewrite recorded_max_iter by done.
    destruct (float_gt (Fin c) (_output_cum_reward self)), t; simpl; auto. }
  destruct (decide (output_strategy self = "last_terminal_iter")) as [E|E2].
  { rewrite recorded_last_terminal_iter by done. destruct t; simpl; auto. }
  rewrite recorded_other; [by left|].
  rewrite !elem_of_cons, elem_of_nil. intros [|[|[|]]]; done.
Qed.

Lemma iterations_last_iter (fuel : nat) (n : nat) :
  ∀ self m self' m',
    heap_inv (heap m) →
    output_strategy self = "last_iter" →
    iterations fuel (S n) self 0 m = Ok (self', m') →
    ∃ ext rn,
      _output_iter self' = Some (0 :: ext)
      ∧ descends (heap m') 0 ext
      ∧ heap m' !! 0 = Some rn
      ∧ _output_cum_reward self' = Fin (Q rn).
Proof.
  induction n as [|n IH]; intros self m self' m' Hinv Hos;
    cbn [iterations];
    intros ([[path cum] self1] & m1 & Hit & H)%bind_Ok;
    pose proof (iterate_tail _ _ _ _ _ _ _ _ Hit) as (t & tn & _ & _ & Hself1);
    apply iterate_spec in Hit as (Hinv1 & ext & rn & -> & Hdesc & Hrn & ->);
      try done.
  - apply mret_Ok in H as [<- <-].
    destruct (recorded_last_iter self (0 :: ext) (Q rn) (is_terminal tn) Hos)
      as [E1 E2].
    exists ext, rn. rewrite Hself1. done.
  - apply IH in H; [done..|].
    rewrite Hself1. by destruct (recorded_config self (0 :: ext) (Q rn)
                                   (is_terminal tn)) as [-> _].
Qed.

Lemma iterations_streaming (fuel : nat) (n : nat) :
  ∀ self m self' m',
    heap_inv (heap m) →
    deep_placeholders (Z.to_nat (depth_limit self)) (heap m) →
    resolved_expanded (heap m) →
    output_strategy self ≠ "last_iter" →
    ends_in_terminal (heap m) (_output_iter self) →
    (_output_iter self = None → _output_cum_reward self = NegInf) →
    iterations fuel n self 0 m = Ok (self', m') →
    ends_in_terminal (heap m') (_output_iter self')
    ∧ (_output_iter self' = None → _output_cum_reward self' = NegInf).
Proof.
  induction n as [|n IH]; intros self m self' m' Hinv Hdeep Hres Hos Hend Hnone;
    cbn [iterations].
  { by intros [<- <-]%mret_Ok. }
  intros ([[path cum] self1] & m1 & Hit & H)%bind_Ok.
  pose proof (iterate_tail _ _ _ _ _ _ _ _ Hit) as (t & tn & Ht & Htn & Hself1).
  pose proof (iterate_spec _ _ _ _ _ _ _ Hinv Hit)
    as (_ & ext & rn & -> & Hdesc & _).
  apply iterate_step in Hit as (Hinv1 & Hdeep1 & Hres1 & [Hg _] & _); [|done..].
  destruct (recorded_config self (0 :: ext) cum (is_terminal tn)) as [Hos1 Hdl1].
  rewrite <- Hself1 in Hos1, Hdl1.
  apply IH in H; [done|done|by rewrite Hdl1|done|by rewrite Hos1| |].
  - destruct (recorded_streaming self (0 :: ext) cum (is_terminal tn) Hos)
      as [[E _]|(E & _ & Eterm)]; rewrite <- Hself1 in E; rewrite E.
    + destruct (_output_iter self) as [p|]; [|done].
      destruct Hend as (ext0 & t0 & tn0 & -> & Hd0 & Ht0 & Htn0 & Hterm0 & Hst0).
      destruct (Hg _ _ Htn0) as (tn0' & Htn0' & (_ & _ & _ & _ & Hk & _) & _).
      destruct (Hk Hst0) as (Es & _ & Et).
      exists ext0, t0, tn0'. split_and!; [done| |done|done|congruence|congruence].
      eapply descends_keeps; [|done].
      intros i nd Hi. destruct (Hg _ _ Hi) as (nd' & ? & ? & _). eauto.
    + exists ext, t, tn. split_and!; [done..|].
      by apply (Hres1 _ _ Htn).
  - destruct (recorded_streaming self (0 :: ext) cum (is_terminal tn) Hos)
      as [[E1 E2]|(E & _ & _)]; rewrite <- Hself1 in *.
    + rewrite E1, E2. done.
    + by rewrite E.
Qed.


Lemma recorded_fold_strategy self (log : list (list nat * R * bool)) :
  output_strategy (foldl (fun s '(p, c, t) => recorded s p c t) self log)
  = output_strategy self.
Proof.
  induction log as [|[[p c] t] log IH] using rev_ind; [done|].
  rewrite foldl_snoc.
  by destruct (recorded_config (foldl (fun s '(p, c, t) => recorded s p c t)
                                  self log) p c t) as [-> _].
Qed.

(** With [last_iter] the candidate after the loop is the last entry of the
    log. *)
Lemma iterations_log_last_iter (fuel : nat) (n : nat) self m
    (log : list (list nat * R * bool)) self' m' :
  output_strategy self = "last_iter" →
  iterations_log fuel n self 0 m = Ok (log, self', m') →
  log ≠ [] →
  ∃ l p c t, log = l ++ [(p, c, t)]
             ∧ _output_iter self' = Some p
             ∧ _output_cum_reward self' = Fin c.
Proof.
  intros Hos Hlog Hlen. apply iterations_log_outputs in Hlog as ->.
  destruct log as [|[[p c] t] l _] using rev_ind; [done|].
  exists l, p, c, t. rewrite foldl_snoc.
  destruct (recorded_last_iter
              (foldl (fun s '(p, c, t) => recorded s p c t) self l) p c t)
    as [E1 E2]; [by rewrite recorded_fold_strategy|].
  done.
Qed.

(** X13.  With [last_iter] and at least one iteration the result
    always carries a trajectory, and it is the path of the last iteration:
    the last entry of the log of the run, iteration by iteration, has this
    path, the reported [cum_reward] as the value its back-propagation
    returned, and nothing follows it.  The path walks down the final tree
    from the root (its last node need not be terminal), the reported
    [cum_reward] is the [Q] of the root and not a reduction of the rewards
    along the path, and [terminal_state] is the state of the last node of
    the path. *)
Theorem last_iter_output (ed : Details) (fuel : nat) self (wm : model)
    (sc : config) m (res : MCTSResult) self' m' :
  MCTS__call__ ed fuel self wm sc m = Ok (res, self', m') →
  output_strategy self = "last_iter" →
  (1 <= n_iters self)%Z →
  ∃ s0 w0 log (t : bool) ext rn (leaf : nat) ln,
    init_state wm (world m) = Some (s0, w0)
    ∧ iterations_trace fuel (set_collaborators wm sc self)
        (mkMachine [fresh_root ed s0] w0) (log ++ [(0 :: ext, Q rn, t)]) m'
    ∧ length log + 1 = Z.to_nat (n_iters self)
    ∧ trace_of_nodes res = Some (0 :: ext)
    ∧ descends (heap m') 0 ext
    ∧ heap m' !! 0 = Some rn
    ∧ res_cum_reward res = Fin (Q rn)
    ∧ last (0 :: ext) = Some leaf ∧ heap m' !! leaf = Some ln
    ∧ terminal_state res = state ln.
Proof.
  intros (Hsearch & Htr & Hcum & _ & Hout & _)%MCTS__call___Ok Hos Hn.
  apply search_Ok in Hsearch
    as (wm' & s0 & w0 & self1 & Hwm & Hinit & Hits & _ & _ & Hpost); [|done].
  simpl in Hpost, Hwm, Hinit. injection Hwm as <-.
  rewrite !decide_False in Hpost by (rewrite Hos; done). subst self1.
  destruct (search_entry_limits self wm sc) as (_ & Hn' & Hos' & _).
  rewrite Hn' in Hits.
  destruct (Z.to_nat (n_iters self)) as [|n] eqn:En; [lia|].
  pose proof Hits as Hits'.
  apply iterations_log_Ok in Hits' as (log & Hlog & Hlen).
  rewrite Hos in Hos'.
  destruct (iterations_log_last_iter _ _ _ _ _ _ _ Hos' Hlog)
    as (l & p & c & t & -> & Hp & Hc); [by intros ->|].
  apply iterations_log_trace in Hlog.
  apply (iterations_trace_settings _ _ (set_collaborators wm sc self)) in Hlog;
    [|apply same_settings_search_entry].
  apply iterations_last_iter in Hits as (ext & rn & Hit & Hdesc & Hrn & Hq);
    [|apply heap_inv_fresh|done].
  rewrite Hit in Hp. injection Hp as <-.
  rewrite Hq in Hc. injection Hc as <-.
  rewrite Hit in Hout.
  destruct Hout as (leaf & ln & states & actions & Hleaf & Hln & Hts & _).
  rewrite length_app in Hlen. simpl in Hlen.
  exists s0, w0, l, t, ext, rn, leaf, ln. split_and!; try done; congruence.
Qed.

(** X14.  With [max_iter] or [last_terminal_iter] the trajectory of
    the result, when there is one, walks down the final tree from the root
    to a terminal node, and [terminal_state] is the resolved state of that
    node; when there is none, [terminal_state] and [trace] are absent and
    [cum_reward] is minus infinity. *)
Theorem streaming_output_ends_in_terminal (ed : Details) (fuel : nat) self
    (wm : model) (sc : config) m (res : MCTSResult) self' m' :
  MCTS__call__ ed fuel self wm sc m = Ok (res, self', m') →
  output_strategy self ∈ ["max_iter"; "last_terminal_iter"] →
  match trace_of_nodes res with
  | Some p =>
      ∃ ext (t : nat) tn (s : State),
        p = 0 :: ext ∧ ext ≠ [] ∧ descends (heap m') 0 ext
        ∧ last p = Some t ∧ heap m' !! t = Some tn
        ∧ is_terminal tn = true ∧ state tn = Some s
        ∧ terminal_state res = Some s
  | None =>
      terminal_state res = None ∧ trace res = None
      ∧ res_cum_reward res = NegInf
  end.
Proof.
  intros (Hsearch & Htr & Hcum & _ & Hout & _)%MCTS__call___Ok Hos.
  assert (output_strategy self ≠ "last_iter"
          ∧ output_strategy self ≠ "follow_max"
          ∧ output_strategy self ≠ "max_reward") as (Hli & Hfm & Hmr).
  { apply elem_of_cons in Hos as [->|Hos]; [done|].
    apply list_elem_of_singleton in Hos as ->. done. }
  apply search_Ok in Hsearch
    as (wm' & s0 & w0 & self1 & _ & _ & Hits & _ & Hinv & Hpost); [|done].
  simpl in Hpost. rewrite !decide_False in Hpost by done. subst self1.
  destruct (search_entry_limits self wm sc) as (Hdl' & Hn' & Hos' & _).
  destruct (search_entry_fields (set_collaborators wm sc self))
    as (_ & Hoi & Hoc & _).
  apply iterations_streaming in Hits as [Hend Hnone];
    [|apply heap_inv_fresh|apply deep_placeholders_fresh
     |apply resolved_expanded_fresh|by rewrite ?Hos', ?Hoi..].
  rewrite Htr, Hcum.
  destruct (_output_iter self') as [p|]; [|destruct Hout; auto].
  destruct Hend as (ext & t & tn & -> & Hdesc & Ht & Htn & Hterm & [s Hs]).
  destruct Hout as (t' & tn' & states & actions & Ht' & Htn' & Hts & _).
  rewrite Ht in Ht'. injection Ht' as <-.
  rewrite Htn in Htn'. injection Htn' as <-.
  exists ext, t, tn, s. split_and!; try done; [|congruence].
  intros ->. simpl in Ht. injection Ht as <-.
  destruct (inv_root _ _ Hinv) as (r & Hr & _ & _ & _ & Hrt). congruence.
Qed.


(** ** The trajectories computed from the final tree *)

Lemma terminal_path_last σ (q : list nat) :
  ∀ (a t : nat),
    terminal_path σ a q → last (a :: q) = Some t →
    ∃ tn, σ !! t = Some tn ∧ is_terminal tn = true
          ∧ (q ≠ [] → state tn ≠ None).
Proof.
  induction q as [|b q IH]; intros a t; simpl.
  - intros (an & Ha & Hterm) [= <-]. exists an. done.
  - intros (_ & (bn & Hb & Hs) & Hq) Hlast.
    destruct (IH b t Hq) as (tn & Htn & Hterm & Hst).
    { by destruct q. }
    exists tn. split_and!; [done..|]. intros _.
    destruct q as [|c q]; [|by apply Hst].
    simpl in Hlast. by simplify_eq.
Qed.

(** X15.  With [max_reward] the trajectory of the result, when there
    is one, is a path of the final tree from the root through resolved
    nodes to a terminal node, [cum_reward] is the reducer applied to the
    rewards along it, the root excluded, and [terminal_state] is the state
    of its last node.  There is none exactly when the search for the best
    path ends with minus infinity. *)
Theorem max_reward_trajectory (ed : Details) (fuel : nat) self (wm : model)
    (sc : config) m (res : MCTSResult) self' m' :
  MCTS__call__ ed fuel self wm sc m = Ok (res, self', m') →
  output_strategy self = "max_reward" →
  match trace_of_nodes res with
  | Some p =>
      ∃ q (t : nat) tn (s : State),
        p = 0 :: q ∧ q ≠ [] ∧ terminal_path (heap m') 0 q
        ∧ res_cum_reward res = cum_reward self (rewards_of (heap m') q)
        ∧ res_cum_reward res ≠ NegInf
        ∧ last p = Some t ∧ heap m' !! t = Some tn
        ∧ is_terminal tn = true ∧ state tn = Some s
        ∧ terminal_state res = Some s
  | None =>
      res_cum_reward res = NegInf
      ∧ terminal_state res = None ∧ trace res = None
  end.
Proof.
  intros (Hsearch & Htr & Hcum & _ & Hout & _)%MCTS__call___Ok Hos.
  apply search_Ok in Hsearch
    as (wm' & s0 & w0 & self1 & _ & _ & _ & Hcfg & Hinv & Hpost); [|done].
  simpl in Hpost.
  rewrite decide_False in Hpost by (rewrite Hos; done).
  rewrite decide_True in Hpost by done.
  destruct Hpost as (c & p & Hdfs & ->). simpl in *.
  assert (cum_reward self1 = cum_reward self) as Hcr.
  { destruct Hcfg as (c' & it & ->). simpl.
    by destruct (search_entry_fields (set_collaborators wm sc self))
      as (_ & _ & _ & -> & _). }
  apply (_dfs_max_reward_spec _ _ Hinv _ _ 0) in Hdfs; [|done].
  rewrite Hcr in Hdfs. rewrite Htr, Hcum.
  destruct c as [|x]; simpl in *; [by destruct Hout|].
  destruct Hdfs as [[? _]|(q & Hq & -> & Hc & _)]; [done|].
  change (py_tail ([0] ++ q)) with q in Hc.
  destruct Hout as (t & tn & states & actions & Ht & Htn & Hts & _).
  destruct (terminal_path_last _ _ _ _ Hq Ht) as (tn' & Htn' & Hterm & Hst).
  rewrite Htn in Htn'. injection Htn' as <-.
  assert (q ≠ []) as Hne.
  { intros ->. simpl in Ht. injection Ht as <-.
    destruct (inv_root _ _ Hinv) as (r & Hr & _ & _ & _ & Hrt). congruence. }
  destruct (state tn) as [s|] eqn:Hs; [|by destruct (Hst Hne)].
  exists q, t, tn, s. split_and!; done.
Qed.

Lemma follow_max_loop_spec σ :
  ∀ (fuel : nat) (out : list nat) (cur : nat) (p : list nat),
    follow_max_loop fuel σ out cur = Ok p →
    ∃ ext, p = out ++ cur :: ext ∧ follows_max σ cur ext.
Proof.
  induction fuel as [|fuel IH]; intros out cur p; simpl; [done|].
  intros (cn & Hcn%deref_in_Ok & H)%outcome_bind_Ok.
  destruct (is_terminal cn) eqn:Hterm.
  { injection H as <-. exists []. split; [done|]. exists cn. auto. }
  destruct (children cn) as [cs|] eqn:Hcs; [|done].
  apply outcome_bind_Ok in H as (nodes & Hnodes & H).
  pose proof (visited_children_spec σ cs nodes) as Hvis.
  specialize (fun b => Hvis b Hnodes).
  case_bool_decide as Hlen.
  { injection H as <-. exists []. split; [done|]. exists cn.
    split; [done|]. right. intros c xn (cn' & cs' & Hcn' & Hcs' & Hc) Hxn.
    rewrite Hcn in Hcn'. injection Hcn' as <-.
    rewrite Hcs in Hcs'. injection Hcs' as <-.
    destruct (state xn) eqn:Hst; [|done]. exfalso.
    assert (c ∈ (filter (λ x, state x.2 ≠ None) nodes).*1) as Hin.
    { apply Hvis. split; [done|]. exists xn. by rewrite Hst. }
    apply length_zero_iff_nil in Hlen. rewrite Hlen in Hin.
    by apply elem_of_nil in Hin. }
  apply outcome_bind_Ok in H as (b & Hb & H).
  set (kf := fun x : nat => match σ !! x with
                            | Some xn => Fin (reward xn)
                            | None => NegInf
                            end).
  destruct (py_max_key_spec
              (fun x => (fun xn : node => Fin (reward xn)) <$> deref_in σ x) kf
              ((filter (λ x, state x.2 ≠ None) nodes).*1))
    as (b' & Hb' & Hin & Hmax).
  { intros E. by rewrite E in Hlen. }
  { intros x (_ & xn & Hx & _)%Hvis. unfold kf, deref_in. by rewrite Hx. }
  rewrite Hb in Hb'. injection Hb' as <-.
  apply Hvis in Hin as (Hbcs & bn & Hbn & Hbs).
  apply IH in H as (ext & -> & Hext).
  exists (b :: ext). rewrite <- app_assoc. split; [done|].
  exists cn, bn. split_and!; [done..|by exists cn, cs|done|done| |done].
  intros c xn (cn' & cs' & Hcn' & Hcs' & Hc) Hxn Hst.
  rewrite Hcn in Hcn'. injection Hcn' as <-.
  rewrite Hcs in Hcs'. injection Hcs' as <-.
  assert (c ∈ (filter (λ x, state x.2 ≠ None) nodes).*1) as Hcin.
  { apply Hvis. split; [done|]. by exists xn. }
  apply Hmax in Hcin. unfold kf in Hcin. by rewrite Hxn, Hbn in Hcin.
Qed.

(** X16.  With [follow_max] the trajectory of the result is the
    greedy descent from the root of the final tree: at every node that is
    not terminal it moves to a resolved child of maximal reward, and it ends
    at a terminal node or at a node without resolved children. *)
Theorem follow_max_trajectory (ed : Details) (fuel : nat) self (wm : model)
    (sc : config) m (res : MCTSResult) self' m' :
  MCTS__call__ ed fuel self wm sc m = Ok (res, self', m') →
  output_strategy self = "follow_max" →
  ∃ ext, trace_of_nodes res = Some (0 :: ext)
         ∧ follows_max (heap m') 0 ext.
Proof.
  intros Hcall Hos.
  destruct (follow_max_cum_reward _ _ _ _ _ _ _ _ _ Hcall Hos)
    as (out & Hloop & Htr & _).
  apply follow_max_loop_spec in Hloop as (ext & -> & Hext).
  by exists ext.
Qed.


(** ** Selection and expansion, as their callers see them *)

Lemma _select_loop_uct (fuel : nat) self :
  ∀ (path0 : list nat) (a : nat) m (path : list nat) m',
    _select_loop fuel self path0 a m = Ok (path, m') →
    ∃ ext,
      path = path0 ++ a :: ext
      ∧ (∀ k i j, (a :: ext) !! k = Some i → (a :: ext) !! S k = Some j →
                  _uct_select self (heap m) i = Ok j)
      ∧ (∀ wm, world_model self = Some wm →
               replay wm (heap m) ext (world m) = Some (world m')).
Proof.
  induction fuel as [|fuel IH]; intros path0 a m path m'; simpl; [done|].
  intros (nd & m1 & [Hnd ->]%deref_Ok & H)%bind_Ok.
  destruct (_ || _).
  { apply mret_Ok in H as [<- <-]. exists []. split_and!; [done| |done].
    intros [|k] i j; simpl; [done|]. by destruct k. }
  apply bind_Ok in H as (σ & m1 & [-> ->]%get_heap_Ok & H).
  apply bind_Ok in H as (c & m1 & [Hc ->]%lift_Ok & H).
  apply bind_Ok in H as (wm & m1 & [Hwm ->]%py_attr_Ok & H).
  apply bind_Ok in H as (cn & m1 & [Hcn ->]%deref_Ok & H).
  apply bind_Ok in H as (p & m1 & [Hp ->]%py_attr_Ok & H).
  apply bind_Ok in H as (pn & m1 & [Hpn ->]%deref_Ok & H).
  apply bind_Ok in H as ([sa wa] & m1 & [Hheap Hstep]%await_Ok & H).
  apply IH in H as (ext & -> & Huct & Hworld).
  rewrite Hheap in *.
  exists (c :: ext). rewrite <- app_assoc. split_and!; [done| |].
  - intros [|k] i j Hi Hj; simpl in *.
    + by simplify_eq.
    + by eapply Huct.
  - intros wm' Hwm'. rewrite Hwm in Hwm'. injection Hwm' as <-.
    simpl. rewrite Hcn. simpl. rewrite Hp. simpl. rewrite Hpn. simpl.
    rewrite Hstep. simpl. by apply Hworld.
Qed.

(** X8.  In a tree built by the engine, [_select] from the root
    leaves the tree as it is and returns a path that walks down from the
    root, every step being the choice of [_uct_select]; the path ends at the
    first node that has no children, is terminal or is at the depth limit.
    On its way it steps the world model once for every node it moves to. *)
Theorem select_walks_to_a_leaf (fuel fuel' : nat) (ed : Details) self m
    (path : list nat) m' :
  reachable ed fuel' self m →
  _select fuel self 0 m = Ok (path, m') →
  heap m' = heap m
  ∧ ∃ ext (t : nat) tn,
      path = 0 :: ext ∧ descends (heap m) 0 ext
      ∧ last path = Some t ∧ heap m !! t = Some tn ∧ stops self tn
      ∧ (∀ k i nd, path !! k = Some i → S k < length path →
                   heap m !! i = Some nd → ¬ stops self nd)
      ∧ (∀ k i j, path !! k = Some i → path !! S k = Some j →
                  _uct_select self (heap m) i = Ok j)
      ∧ (∀ wm, world_model self = Some wm →
               replay wm (heap m) ext (world m) = Some (world m')).
Proof.
  intros Hinv%reachable_heap_inv. unfold _select. intros Hsel.
  pose proof (_select_loop_spec _ _ _ _ _ _ _ _ Hinv Hsel)
    as [Hheap (ext & -> & Hdesc)].
  pose proof (_select_loop_stop _ _ _ _ _ _ _ _ Hinv Hsel)
    as (ext1 & t & tn & Heq & Hlast & Htn & Hstop & Hinner & _).
  apply _select_loop_uct in Hsel as (ext2 & Heq2 & Huct & Hworld).
  simpl in Heq, Heq2. injection Heq as <-. injection Heq2 as <-.
  split; [done|]. exists ext, t, tn. split_and!; done.
Qed.

(** X9.  [_expand] on a resolved node that is not terminal asks the
    search configuration for the actions of its state and gives the node
    one fresh child per action, in the order of the actions: the children
    take the next free places of the heap, each is unresolved, unvisited,
    one level deeper than the node, and starts with its fast reward as
    reward.  A list of children the node had before is replaced; nothing
    else in the tree changes. *)
Theorem expand_creates_children self (i : nat) m m' nd (s : State)
    (sc : config) (actions : list Action) (w1 : World) :
  _expand self i m = Ok (tt, m') →
  heap m !! i = Some nd → state nd = Some s → is_terminal nd = false →
  search_config self = Some sc →
  get_actions sc s (world m) = Some (actions, w1) →
  heap m' !! i
  = Some (set_children (Some (seq (length (heap m)) (length actions))) nd)
  ∧ length (heap m') = length (heap m) + length actions
  ∧ (∀ j, j ≠ i → j < length (heap m) → heap m' !! j = heap m !! j)
  ∧ ∀ k a, actions !! k = Some a →
      ∃ cn, heap m' !! (length (heap m) + k) = Some cn
            ∧ action cn = Some a ∧ parent cn = Some i
            ∧ depth cn = depth nd + 1 ∧ state cn = None
            ∧ N cn = 0 ∧ children cn = None ∧ is_terminal cn = false
            ∧ reward cn = fast_reward cn.
Proof.
  unfold _expand. intros H Hnd Hs Hterm Hsc Hget.
  apply bind_Ok in H as (nd0 & m1 & [Hnd0 ->]%deref_Ok & H).
  rewrite Hnd in Hnd0. injection Hnd0 as <-. rewrite Hs in H.
  apply bind_Ok in H as (s' & m1 & [<- <-]%mret_Ok & H).
  apply bind_Ok in H as (nd0 & m1 & [Hnd0 ->]%deref_Ok & H).
  rewrite Hnd in Hnd0. injection Hnd0 as <-. rewrite Hterm in H.
  apply bind_Ok in H as (sc' & m1 & [Hsc' ->]%py_attr_Ok & H).
  rewrite Hsc in Hsc'. injection Hsc' as <-.
  apply bind_Ok in H as (actions' & m1 & [Hh1 Hget']%await_Ok & H).
  rewrite Hget in Hget'. injection Hget' as <- Hw1.
  apply bind_Ok in H as (cs & m2 & Hcs & H).
  eapply (new_children_effect _ _ _ nd) in Hcs
    as (news & Hh2 & -> & Hlen & Hnews); [|by rewrite Hh1].
  apply modify_Ok in H as (n2 & Hn2 & ->). simpl.
  rewrite Hh2, Hh1 in *.
  pose proof (lookup_lt_Some _ _ _ Hnd) as Hlt.
  rewrite lookup_app_l, Hnd in Hn2 by done. injection Hn2 as <-.
  rewrite insert_app_l by done. rewrite Hlen. split_and!.
  - rewrite lookup_app_l by by rewrite length_insert.
    by apply list_lookup_insert_eq.
  - rewrite length_app, length_insert. lia.
  - intros j Hne Hj. rewrite lookup_app_l by by rewrite length_insert.
    by rewrite list_lookup_insert_ne.
  - intros k a Hk.
    destruct (Hnews _ _ Hk) as (cn & Hcn & ? & ? & ? & ? & ? & _ & ? & ? & ?).
    exists cn. split_and!; try done.
    rewrite lookup_app_r by (rewrite length_insert; lia).
    rewrite length_insert. by replace (length (heap m) + k - length (heap m))
      with k by lia.
Qed.


(** ** The aggregator *)

Lemma dict_update_keys {V} (dflt : V) (f : V → V) (k : Answer)
    (d : list (Answer * V)) (a : Answer) :
  a ∈ (dict_update dflt f k d).*1 ↔ a = k ∨ a ∈ d.*1.
Proof.
  induction d as [|[k' v] d IH]; simpl.
  - rewrite list_elem_of_singleton, elem_of_nil. tauto.
  - case_decide as Hk; simpl; rewrite !elem_of_cons.
    + subst. tauto.
    + rewrite IH. tauto.
Qed.

Lemma dict_get_keys {V} (d : list (Answer * V)) (a : Answer) :
  a ∈ d.*1 → is_Some (dict_get a d).
Proof.
  induction d as [|[k' v] d IH]; simpl.
  - by intros ?%elem_of_nil.
  - intros [->|Hin]%elem_of_cons; case_decide; eauto; done.
Qed.

(** The keys of [depth_list] after the answers of a child have been added. *)
Lemma depth_list_keys (ci : list (Answer * nat)) :
  ∀ (dl : list (Answer * list nat)) (a : Answer),
    a ∈ (foldl (fun dl '(answer, dep) =>
                  dict_update [] (fun ds => ds ++ [dep]) answer dl) dl ci).*1
    ↔ a ∈ dl.*1 ∨ a ∈ ci.*1.
Proof.
  induction ci as [|[b dep] ci IH]; intros dl a; simpl.
  - rewrite elem_of_nil. tauto.
  - rewrite IH, dict_update_keys, elem_of_cons. tauto.
Qed.

(** The keys of [answer_dict] after the credit of an inner node. *)
Lemma inner_credit_keys (self : aggregation) (r : R)
    (dl : list (Answer * list nat)) :
  ∀ (d : list (Answer * R)) (a : Answer),
    (a ∈ (foldl (fun d '(answer, depths) =>
                   if decide (weight_policy self = "edge") then
                     dict_update 0%R (add_to r) answer d
                   else if decide (weight_policy self = "edge_inverse_depth")
                   then dict_update 0%R (add_to (r / np_mean depths)) answer d
                   else d) d dl).*1
     → a ∈ d.*1 ∨ a ∈ dl.*1)
    ∧ (a ∈ d.*1 →
       a ∈ (foldl (fun d '(answer, depths) =>
                     if decide (weight_policy self = "edge") then
                       dict_update 0%R (add_to r) answer d
                     else if decide (weight_policy self = "edge_inverse_depth")
                     then dict_update 0%R (add_to (r / np_mean depths)) answer d
                     else d) d dl).*1).
Proof.
  induction dl as [|[b ds] dl IH]; intros d a; simpl; [by auto|].
  rewrite elem_of_cons.
  match goal with
  | |- (_ ∈ (foldl _ ?d' _).*1 → _) ∧ _ => destruct (IH d' a) as [IH1 IH2]
  end.
  split.
  - intros H. apply IH1 in H as [H|H]; [|tauto].
    repeat case_decide;
      try apply (proj1 (dict_update_keys _ _ _ _ _)) in H; tauto.
  - intros H. apply IH2.
    repeat case_decide; try apply (proj2 (dict_update_keys _ _ _ _ _)); auto.
Qed.

Lemma foldl_outcome_Ok {A B} (F : outcome A → B → outcome A) (l : list B) :
  (∀ acc b a, F acc b = Ok a → ∃ a0, acc = Ok a0) →
  ∀ acc a, foldl F acc l = Ok a → ∃ a0, acc = Ok a0.
Proof.
  intros HF. induction l as [|b l IH]; intros acc a; simpl; [by eauto|].
  intros (a1 & H1)%IH. by apply HF in H1.
Qed.


Lemma visit_answers (self : aggregation) σ :
  ∀ (fuel : nat) (cur : nat) (d : list (Answer * R)) l d',
    visit fuel self σ cur d = Ok (l, d') →
    (∀ a, a ∈ l.*1 → reaches_answer (retrieve_answer self) σ cur a)
    ∧ (∀ a, reaches_answer (retrieve_answer self) σ cur a → a ∈ l.*1)
    ∧ (∀ a, a ∈ d'.*1 → a ∈ d.*1 ∨ a ∈ l.*1)
    ∧ (∀ a, a ∈ d.*1 → a ∈ d'.*1)
    ∧ (weight_policy self ∈ ["edge"; "edge_inverse_depth"; "uniform"] →
       ∀ a, a ∈ l.*1 → a ∈ d'.*1).
Proof.
  induction fuel as [|fuel IH]; intros cur d l d'; [done|].
  cbn [visit].
  intros (nd & Hnd%deref_in_Ok & H)%outcome_bind_Ok.
  destruct (state nd) as [s|] eqn:Hs.
  2:{ injection H as <- <-.
      split_and!; try (by auto); try (by intros a ?%elem_of_nil);
        try (by intros ? a ?%elem_of_nil).
      intros a Hr. inversion Hr; simplify_eq; congruence. }
  destruct (is_terminal nd) eqn:Hterm.
  { destruct (retrieve_answer self s) as [answer|] eqn:Hret.
    2:{ injection H as <- <-.
        split_and!; try (by auto); try (by intros a ?%elem_of_nil);
          try (by intros ? a ?%elem_of_nil).
        intros a Hr. inversion Hr; simplify_eq; congruence. }
    apply outcome_bind_Ok in H as (d1 & Hd1 & [= <- <-]).
    assert ((∀ a, a ∈ d1.*1 → a = answer ∨ a ∈ d.*1)
            ∧ (∀ a, a ∈ d.*1 → a ∈ d1.*1)
            ∧ (weight_policy self ∈ ["edge"; "edge_inverse_depth"; "uniform"]
               → answer ∈ d1.*1)) as (Hk1 & Hk2 & Hk3).
    { assert (∀ (f : R → R),
                (∀ a, a ∈ (dict_update 0%R f answer d).*1
                      → a = answer ∨ a ∈ d.*1)
                ∧ (∀ a, a ∈ d.*1 → a ∈ (dict_update 0%R f answer d).*1)
                ∧ answer ∈ (dict_update 0%R f answer d).*1) as Hupd.
      { intros f. split_and!; intros; rewrite ?dict_update_keys in *; auto. }
      repeat case_decide; simplify_eq.
      - destruct (Hupd (add_to (reward nd))) as (? & ? & ?). auto.
      - apply outcome_bind_Ok in Hd1 as (w & _ & [= <-]).
        destruct (Hupd (add_to w)) as (? & ? & ?). auto.
      - destruct (Hupd (add_to 1%R)) as (? & ? & ?). auto.
      - split_and!; auto.
        rewrite !elem_of_cons, elem_of_nil. intros [|[|[|]]]; done. }
    simpl. split_and!.
    - intros a ->%list_elem_of_singleton. by eapply reaches_here.
    - intros a Hr. apply list_elem_of_singleton.
      inversion Hr; simplify_eq; congruence.
    - intros a [->|?]%Hk1; [right; by apply list_elem_of_singleton|by left].
    - done.
    - intros Hp a ->%list_elem_of_singleton. auto. }
  destruct (children nd) as [cs|] eqn:Hcs; [|done].
  apply outcome_bind_Ok in H as ([[cl dl] d1] & Hfold & [= <- <-]).
  match type of Hfold with
  | foldl ?F _ _ = _ => set (step := F) in *
  end.
  assert (∀ (cs0 : list nat) cl0 dl0 d0 cl dl d1,
            foldl step (Ok (cl0, dl0, d0)) cs0 = Ok (cl, dl, d1) →
            (∀ a, a ∈ cl.*1 →
                  a ∈ cl0.*1
                  ∨ ∃ c, c ∈ cs0 ∧ reaches_answer (retrieve_answer self) σ c a)
            ∧ (∀ a, a ∈ cl0.*1 → a ∈ cl.*1)
            ∧ (∀ c a, c ∈ cs0 →
                      reaches_answer (retrieve_answer self) σ c a → a ∈ cl.*1)
            ∧ (∀ a, a ∈ d1.*1 → a ∈ d0.*1 ∨ a ∈ cl.*1)
            ∧ (∀ a, a ∈ d0.*1 → a ∈ d1.*1)
            ∧ (weight_policy self ∈ ["edge"; "edge_inverse_depth"; "uniform"]
               → (∀ a, a ∈ cl0.*1 → a ∈ d0.*1) → ∀ a, a ∈ cl.*1 → a ∈ d1.*1)
            ∧ ((∀ a, a ∈ dl0.*1 ↔ a ∈ cl0.*1) → ∀ a, a ∈ dl.*1 ↔ a ∈ cl.*1))
    as Hchildren.
  { clear Hfold Hcs cl dl d1. induction cs0 as [|c cs0 IHcs];
      intros cl0 dl0 d0 cl dl d1; cbn [foldl].
    - intros [= <- <- <-]. split_and!; try by auto.
      intros c a ?%elem_of_nil. done.
    - intros Hfold.
      destruct (foldl_outcome_Ok step cs0) with (acc := step (Ok (cl0, dl0, d0)) c)
        (a := (cl, dl, d1)) as [[[cl1 dl1] d2] Hstep]; [|done|].
      { intros acc b a. unfold step.
        intros (a0 & -> & _)%outcome_bind_Ok. eauto. }
      rewrite Hstep in Hfold.
      unfold step in Hstep. simpl in Hstep.
      apply outcome_bind_Ok in Hstep as ([ci d2'] & Hvisit & [= <- <- <-]).
      apply IH in Hvisit as (V1 & V2 & V3 & V4 & V5).
      apply IHcs in Hfold as (F1 & F2 & F3 & F4 & F5 & F6 & F7).
      split_and!.
      + intros a [Ha|(c' & Hc' & Hr)]%F1.
        * rewrite fmap_app, elem_of_app in Ha. destruct Ha as [?|Ha]; [by left|].
          right. exists c. split; [apply list_elem_of_here|by apply V1].
        * right. exists c'. split; [by apply list_elem_of_further|done].
      + intros a Ha. apply F2. rewrite fmap_app, elem_of_app. by left.
      + intros c' a [->|Hc']%elem_of_cons Hr.
        * apply F2. rewrite fmap_app, elem_of_app. right. by apply V2.
        * by eapply F3.
      + intros a [Ha|?]%F4; [|by right].
        apply V3 in Ha as [?|Ha]; [by left|]. right.
        apply F2. rewrite fmap_app, elem_of_app. by right.
      + intros a Ha. by apply F5, V4.
      + intros Hp H0 a Ha. apply F6; [done| |done].
        intros a'. rewrite fmap_app, elem_of_app. intros [?|?]; [|by apply V5].
        by apply V4, H0.
      + intros H0. apply F7. intros a.
        rewrite depth_list_keys, fmap_app, elem_of_app, H0. done. }
  apply Hchildren in Hfold as (F1 & F2 & F3 & F4 & F5 & F6 & F7).
  pose proof (F7 (fun a => iff_refl _)) as F7'.
  split_and!.
  - intros a [Ha|(c & Hc & Hr)]%F1; [by apply elem_of_nil in Ha|].
    by eapply reaches_below.
  - intros a Hr. inversion Hr; simplify_eq; [congruence|]. by eapply F3.
  - intros a Ha. apply inner_credit_keys in Ha as [Ha|Ha].
    + apply F4 in Ha as [?|?]; auto.
    + right. by apply F7'.
  - intros a Ha. by apply inner_credit_keys, F5.
  - intros Hp a Ha. apply inner_credit_keys. apply F6; [done| |done].
    by intros a' ?%elem_of_nil.
Qed.


(** X17.  The aggregator only returns an answer that the tree holds:
    the answer retrieved from a resolved terminal node that is reached from
    the root through resolved nodes.  With one of the three weight policies
    it returns [None] only when there is no such node. *)
Theorem aggregation_answer_is_in_tree (fuel : nat) (self : aggregation) σ
    (tree_state : nat) (r : option Answer) :
  MCTSAggregation__call__ fuel self σ tree_state = Ok r →
  match r with
  | Some a => reaches_answer (retrieve_answer self) σ tree_state a
  | None =>
      weight_policy self ∈ ["edge"; "edge_inverse_depth"; "uniform"] →
      ∀ a, ¬ reaches_answer (retrieve_answer self) σ tree_state a
  end.
Proof.
  unfold MCTSAggregation__call__.
  intros ([l d] & Hvisit & H)%outcome_bind_Ok.
  apply visit_answers in Hvisit as (V1 & V2 & V3 & _ & V5).
  case_decide as Hlen.
  - injection H as <-. intros Hp a Hr.
    apply length_zero_iff_nil in Hlen. subst d.
    apply V2, V5 in Hr; [|done]. by apply elem_of_nil in Hr.
  - apply outcome_bind_Ok in H as (a & Ha%py_max_key_elem & [= <-]).
    apply V3 in Ha as [Ha|Ha]; [by apply elem_of_nil in Ha|]. by apply V1.
Qed.

Lemma outcome_bind_safe {A B} (o : outcome A) (f : A → outcome B) :
  (∀ e, o ≠ Raise e) →
  (∀ a, o = Ok a → ∀ e, f a ≠ Raise e) →
  ∀ e, o ≫= f ≠ Raise e.
Proof.
  intros Ho Hf e. destruct o as [a|e'|]; simpl; [by apply Hf| |done].
  by destruct (Ho e').
Qed.

Lemma visit_safe (self : aggregation) σ :
  heap_inv σ → resolved_expanded σ →
  (∃ rn, σ !! 0 = Some rn ∧ children rn ≠ None) →
  ∀ (fuel : nat) (cur : nat) (d : list (Answer * R)),
    cur = 0 ∨ (∃ p, is_child σ p cur) →
    ∀ e, visit fuel self σ cur d ≠ Raise e.
Proof.
  intros Hinv Hres (rn & Hrn & Hrch).
  destruct (inv_root _ _ Hinv) as (r0 & Hr0 & _ & _ & _ & Hr0t).
  rewrite Hrn in Hr0. injection Hr0 as <-.
  induction fuel as [|fuel IH]; intros cur d Hcur; [done|].
  cbn [visit].
  assert (∃ nd, σ !! cur = Some nd
                ∧ (is_terminal nd = true → depth nd ≠ 0)
                ∧ (is_Some (state nd) → is_terminal nd = false →
                   children nd ≠ None)) as (nd & Hnd & Hdep & Hch).
  { destruct Hcur as [->|(p & Hp)].
    - exists rn. split_and!; [done|congruence|done].
    - destruct (inv_links _ _ Hinv _ _ Hp) as (pn & cn & _ & Hcn & _ & Hd & Hlt).
      exists cn. split_and!; [done|lia|].
      intros Hs Ht. destruct (Hres _ _ Hcn) as [_ [?|?]]; [lia|done|congruence|done]. }
  apply outcome_bind_safe.
  { unfold deref_in. by rewrite Hnd. }
  intros nd' Hnd'%deref_in_Ok. rewrite Hnd in Hnd'. injection Hnd' as <-.
  destruct (state nd) as [s|] eqn:Hs; [|done].
  destruct (is_terminal nd) eqn:Hterm.
  { destruct (retrieve_answer self s); [|done].
    apply outcome_bind_safe; [|done].
    repeat case_decide; try done.
    apply outcome_bind_safe; [|done].
    unfold py_div_int. case_decide; [|done]. by destruct Hdep. }
  destruct (children nd) as [cs|] eqn:Hcs; [|by destruct Hch].
  apply outcome_bind_safe; [|by intros [[? ?] ?] _].
  assert (∀ c, c ∈ cs → ∀ d' e, visit fuel self σ c d' ≠ Raise e) as Hchild.
  { intros c Hc d' e. apply IH. right. exists cur. by exists nd, cs. }
  match goal with
  | |- ∀ e, foldl ?f ?a ?l ≠ _ =>
      cut (∀ acc, (∀ e, acc ≠ Raise e) → ∀ e, foldl f acc l ≠ Raise e);
        [intros Hfold; by apply Hfold|]
  end.
  clear Hcs Hch. induction cs as [|c cs IHcs]; intros acc Hacc; simpl; [done|].
  apply IHcs.
  - intros c' Hc'. by apply Hchild, list_elem_of_further.
  - apply outcome_bind_safe; [done|]. intros [[cl dl] d0] _.
    apply outcome_bind_safe; [apply Hchild, list_elem_of_here|].
    by intros [ci d1] _.
Qed.

Lemma dict_max_safe (d : list (Answer * R)) :
  d ≠ [] →
  ∃ a, py_max_key (fun answer =>
                     match dict_get answer d with
                     | Some v => Ok (Fin v)
                     | None => Raise DanglingRef
                     end) (d.*1) = Ok a.
Proof.
  intros Hne.
  destruct (py_max_key_spec
              (fun answer => match dict_get answer d with
                             | Some v => Ok (Fin v)
                             | None => Raise DanglingRef
                             end)
              (fun answer => Fin (default 0%R (dict_get answer d)))
              (d.*1)) as (a & Ha & _).
  - destruct d; [done|]. done.
  - intros a [v Hv]%dict_get_keys. by rewrite Hv.
  - by exists a.
Qed.

(** X18.  On the tree of a call that made at least one iteration with a
    depth limit of at least one, an aggregator of whatever weight policy
    returns: every resolved node it walks into is terminal or has a list of
    children, and every terminal node lies below the root, so that neither
    the iteration over [children] nor the division by [depth] fails. *)
Theorem aggregation_safe_on_searched_tree (ed : Details) (fuel : nat) self
    (wm : model) (sc : config) m (res : MCTSResult) self' m'
    (agg : aggregation) (fuel' : nat) :
  MCTS__call__ ed fuel self wm sc m = Ok (res, self', m') →
  (1 <= n_iters self)%Z →
  (1 <= depth_limit self)%Z →
  Z.to_nat (depth_limit self) + 2 ≤ fuel' →
  ∃ r, MCTSAggregation__call__ fuel' agg (heap m') 0 = Ok r.
Proof.
  intros (Hinv & Hdeep & Hres & _ & _ & _ & Hroot)%call_tree Hn Hdl Hfuel.
  destruct Hroot as (rn & Hrn & Hch); [lia..|].
  assert (depth_bounded (Z.to_nat (depth_limit self)) (heap m')) as Hb.
  { intros i nd Hi. by apply (Hdeep _ _ Hi). }
  pose proof (MCTSAggregation__call___halts _ _ agg _ Hinv Hb Hfuel) as Hhalts.
  unfold MCTSAggregation__call__ in *.
  destruct (visit fuel' agg (heap m') 0 []) as [[l d]|e|] eqn:Hvisit;
    [|by eapply visit_safe in Hvisit; eauto|done].
  simpl. case_decide as Hlen; [by eexists|].
  destruct (dict_max_safe d) as [a Ha].
  { intros ->. by apply Hlen. }
  rewrite Ha. simpl. by eexists.
Qed.


(** ** The strategy [max] *)

Lemma np_argmax_from_spec (l : list R) :
  ∀ (i besti : nat) (best : R),
    besti < i →
    let j := np_argmax_from i besti best l in
    (j = besti ∧ ∀ y, y ∈ l → (y <= best)%R)
    ∨ (∃ k v, j = i + k ∧ l !! k = Some v ∧ (best < v)%R
              ∧ (∀ y, y ∈ l → (y <= v)%R)
              ∧ ∀ k' y, k' < k → l !! k' = Some y → (y < v)%R).
Proof.
  induction l as [|x l IH]; intros i besti best Hlt; simpl.
  - left. split; [done|]. by intros y ?%elem_of_nil.
  - destruct (Rgt_dec x best) as [Hgt|Hle].
    + right. destruct (IH (S i) i x) as [[Hj Hall]|(k & v & Hj & Hk & Hv & Hall & Hfirst)];
        [lia| |].
      * exists 0, x. rewrite Hj. split_and!; [lia|done|lra| |].
        -- intros y [->|Hy]%elem_of_cons; [lra|by apply Hall].
        -- intros k' y Hk'. lia.
      * exists (S k), v. rewrite Hj. split_and!; [lia|done|lra| |].
        -- intros y [->|Hy]%elem_of_cons; [lra|by apply Hall].
        -- intros [|k'] y Hk' Hy; simpl in Hy.
           ++ injection Hy as <-. lra.
           ++ eapply Hfirst; [|done]. lia.
    + destruct (IH (S i) besti best) as [[Hj Hall]|(k & v & Hj & Hk & Hv & Hall & Hfirst)];
        [lia| |].
      * left. split; [done|].
        intros y [->|Hy]%elem_of_cons; [lra|by apply Hall].
      * right. exists (S k), v. rewrite Hj. split_and!; [lia|done|done| |].
        -- intros y [->|Hy]%elem_of_cons; [lra|by apply Hall].
        -- intros [|k'] y Hk' Hy; simpl in Hy.
           ++ injection Hy as <-. lra.
           ++ eapply Hfirst; [|done]. lia.
Qed.

(** X10.  With [simulate_strategy = "max"] the choice made in a
    simulation step is the index of the first of the largest fast rewards
    (numpy's [argmax]); it does not touch the world. *)
Theorem max_strategy_picks_first_maximum (np : nat → option (list R) → World →
                                          outcome (Z * World))
    otr (w : R) (dl ni : Z) cr (os : string) (fr : bool)
    (agg : option aggregation) self (x : list R) m :
  MCTS__init__ np otr w dl ni cr (PyStr "max") os fr agg = Ok self →
  x ≠ [] →
  ∃ (j : nat) (v : R),
    call_choice (simulate_choice self) x m = Ok (Z.of_nat j, m)
    ∧ x !! j = Some v
    ∧ (∀ y, y ∈ x → (y <= v)%R)
    ∧ ∀ j' y, j' < j → x !! j' = Some y → (y < v)%R.
Proof.
  unfold MCTS__init__. case_bool_decide; [|done]. intros [= <-] Hne. simpl.
  destruct x as [|x0 x]; [done|]. destruct m as [σ wd]. simpl.
  destruct (np_argmax_from_spec x 1 0 x0)
    as [[Hj Hall]|(k & v & Hj & Hk & Hv & Hall & Hfirst)]; [lia| |].
  - exists 0, x0. rewrite Hj. split_and!; [done..| |].
    + intros y [->|Hy]%elem_of_cons; [lra|by apply Hall].
    + intros j' y Hj'. lia.
  - exists (S k), v. rewrite Hj. split_and!; [done..| |].
    + intros y [->|Hy]%elem_of_cons; [lra|by apply Hall].
    + intros [|j'] y Hj' Hy; simpl in Hy.
      * injection Hy as <-. lra.
      * eapply Hfirst; [|done]. lia.
Qed.


(** ** Where an iteration ends, and the root *)

(** X7.  In a tree built by the engine every iteration runs from the
    root down to a leaf: its path ends at a node that is terminal, at the
    depth limit, or resolved with an empty list of children; every node of
    the path has been visited when the iteration returns, and the value the
    iteration records is the [Q] of the root. *)
Theorem iteration_ends_at_a_leaf (fuel : nat) (ed : Details) self m
    (path : list nat) (cum : R) self' m' :
  reachable ed fuel self m →
  iterate fuel self 0 m = Ok (path, cum, self', m') →
  ∃ ext (t : nat) tn rn,
    path = 0 :: ext ∧ descends (heap m') 0 ext
    ∧ last path = Some t ∧ heap m' !! t = Some tn
    ∧ (_is_terminal_with_depth_limit self tn = true
       ∨ (is_Some (state tn) ∧ children tn = Some []))
    ∧ heap m' !! 0 = Some rn ∧ cum = Q rn
    ∧ ∀ i nd, i ∈ path → heap m' !! i = Some nd → 1 ≤ N nd.
Proof.
  intros (Hinv & Hdeep & Hres)%reachable_tree_inv Hit.
  pose proof (iterate_spec _ _ _ _ _ _ _ Hinv Hit)
    as (_ & ext & rn & -> & Hdesc & Hrn & ->).
  apply iterate_effect in Hit
    as (ext' & σ2 & t & tn & Heq & _ & Hinv2 & Hdesc2 & _ & _ & _ & Hlast
        & Htn & Hin & _ & _ & Hend); [|done..].
  injection Heq as <-.
  exists ext, t, (back_propagated (reward tn) tn), rn.
  split_and!; try done.
  - apply Hin; [by apply last_elem_of|done].
  - intros i nd Hi Hnd.
    destruct (descends_valid _ _ _ Hinv2 Hdesc2 i Hi) as [nd2 Hnd2].
    rewrite (Hin _ _ Hi Hnd2) in Hnd. injection Hnd as <-. simpl. lia.
Qed.

(** X5.  The root of the tree a call returns holds the state that
    [init_state] gave, with reward 0 and without parent or action, and it
    is not marked terminal, whatever [is_terminal] of the world model says
    about that state. *)
Theorem root_is_the_initial_state (ed : Details) (fuel : nat) self
    (wm : model) (sc : config) m (res : MCTSResult) self' m' :
  MCTS__call__ ed fuel self wm sc m = Ok (res, self', m') →
  ∃ (s0 : State) (w0 : World) rn,
    init_state wm (world m) = Some (s0, w0)
    ∧ tree_state res = Some 0 ∧ heap m' !! 0 = Some rn
    ∧ state rn = Some s0 ∧ is_terminal rn = false ∧ reward rn = 0%R
    ∧ parent rn = None ∧ action rn = None ∧ depth rn = 0.
Proof.
  intros (_ & _ & _ & Hroot & (s0 & w0 & rn & Hinit & Hrn & Hk & _) & _)%call_tree.
  destruct Hk as (Hp & Ha & Hd & _ & Hs & _).
  destruct Hs as (Hs & Hr & Ht); [by eexists|].
  exists s0, w0, rn. split_and!; done.
Qed.


(** X19.  In the tree that a call leaves behind every node that has a
    list of children is resolved, not terminal and has been visited, and
    every child in the list points back to it: its [parent] is the node, its
    depth is one more, it was created later, and it has not been visited
    more often. *)
Theorem children_point_back_to_their_parent (ed : Details) (fuel : nat) self
    (wm : model) (sc : config) m (res : MCTSResult) self' m' (p : nat) pn
    (cs : list nat) :
  MCTS__call__ ed fuel self wm sc m = Ok (res, self', m') →
  heap m' !! p = Some pn →
  children pn = Some cs →
  is_Some (state pn) ∧ is_terminal pn = false ∧ 1 ≤ N pn
  ∧ ∀ c, c ∈ cs →
      ∃ cn, heap m' !! c = Some cn ∧ parent cn = Some p
            ∧ depth cn = depth pn + 1 ∧ p < c ∧ N cn ≤ N pn.
Proof.
  intros (Hinv & _)%call_tree Hp Hcs.
  destruct (inv_expanded _ _ Hinv p pn Hp) as ([HN|Hnil] & Hs & Ht);
    [by rewrite Hcs| |by apply elem_of_nil in Hnil].
  split_and!; [done|done|lia|]. intros c Hc.
  assert (is_child (heap m') p c) as Hchild by by exists pn, cs.
  destruct (inv_links _ _ Hinv _ _ Hchild) as (pn' & cn & Hp' & Hcn & ? & ? & ?).
  rewrite Hp in Hp'. injection Hp' as <-.
  exists cn. split_and!; [done..|]. by eapply (inv_counts _ _ Hinv).
Qed.


(** ** No exception of the engine's own

    With collaborators that return, the steps of an iteration raise
    nothing. *)

Lemma bind_safe {A B} (c : M A) (f : A → M B) m :
  (∀ e, c m ≠ Raise e) →
  (∀ a m1, c m = Ok (a, m1) → ∀ e, f a m1 ≠ Raise e) →
  ∀ e, (c ≫= f) m ≠ @Raise (B * mach) e.
Proof.
  unfold mbind, M_bind. intros Hc Hf.
  destruct (c m) as [[a m1]|e'|]; [auto| |done].
  by destruct (Hc e').
Qed.

Lemma deref_safe (i : nat) m :
  is_Some (heap m !! i) → ∀ e, deref i m ≠ Raise e.
Proof. unfold deref. by intros [nd ->]. Qed.

Lemma modify_safe (i : nat) (f : node → node) m :
  is_Some (heap m !! i) → ∀ e, modify i f m ≠ Raise e.
Proof. unfold modify. by intros [nd ->]. Qed.

Lemma await_safe {A} (f : World → option (A * World)) m :
  is_Some (f (world m)) →
  ∀ e, await (State:=State) (Action:=Action) (Details:=Details) f m ≠ Raise e.
Proof. unfold await. by intros [[a w] ->]. Qed.

Lemma first_unvisited_safe σ (cs : list nat) :
  (∀ c, c ∈ cs → is_Some (σ !! c)) →
  ∃ u, first_unvisited σ cs = Ok u.
Proof.
  induction cs as [|c cs IH]; intros Hval; simpl; [by eexists|].
  destruct (Hval c) as [cn Hcn]; [apply list_elem_of_here|].
  unfold deref_in. rewrite Hcn. simpl. case_decide; [by eexists|].
  apply IH. intros c' Hc'. by apply Hval, list_elem_of_further.
Qed.

Lemma _uct_select_safe self σ (p : nat) pn (cs : list nat) :
  heap_inv σ →
  σ !! p = Some pn → children pn = Some cs → cs ≠ [] →
  ∃ c, _uct_select self σ p = Ok c.
Proof.
  intros Hinv Hp Hcs Hne.
  assert (∀ c, c ∈ cs → ∃ cn, σ !! c = Some cn ∧ parent cn = Some p) as Hval.
  { intros c Hc.
    destruct (inv_links _ _ Hinv p c) as (pn' & cn & _ & Hcn & Hpar & _);
      [by exists pn, cs|]. eauto. }
  destruct (first_unvisited_safe σ cs) as [[c|] Hu].
  { intros c Hc. destruct (Hval c Hc) as (cn & -> & _). done. }
  - exists c. unfold _uct_select, deref_in. rewrite Hp. simpl.
    rewrite Hcs, Hu. done.
  - destruct (inv_expanded _ _ Hinv p pn Hp) as ([HN|Hnil] & _);
      [by rewrite Hcs| |by apply elem_of_nil in Hnil].
    destruct (_uct_select_ucb1 self σ p pn cs) as (c & cn & Hsel & _);
      [done..|by eapply first_unvisited_None|done|].
    by exists c.
Qed.

Lemma _select_loop_safe (fuel : nat) self (wm : model) :
  world_model self = Some wm →
  (∀ s a w, is_Some (step wm s a w)) →
  ∀ (path0 : list nat) (a : nat) m,
    heap_inv (heap m) → is_Some (heap m !! a) →
    ∀ e, _select_loop fuel self path0 a m ≠ Raise e.
Proof.
  intros Hwm Hstep.
  induction fuel as [|fuel IH]; intros path0 a m Hinv Ha; [done|].
  simpl. apply bind_safe; [by apply deref_safe|].
  intros nd m1 [Hnd ->]%deref_Ok.
  destruct (_ || _) eqn:Hstop; [done|].
  assert (∃ cs, children nd = Some cs ∧ cs ≠ []) as (cs & Hcs & Hne).
  { destruct (children nd) as [[|c cs]|]; simpl in Hstop; try done.
    by exists (c :: cs). }
  apply bind_safe; [done|]. intros σ m1 [-> ->]%get_heap_Ok.
  destruct (_uct_select_safe self (heap m) a nd cs) as [c Hc]; [done..|].
  rewrite Hc. simpl. apply bind_safe; [done|].
  intros c' m1 [[= <-] ->]%lift_Ok.
  apply _uct_select_child in Hc.
  destruct (inv_links _ _ Hinv _ _ Hc) as (pn & cn & Hpn & Hcn & Hpar & _).
  rewrite Hwm. apply bind_safe; [done|].
  intros wm' m1 [[= <-] ->]%py_attr_Ok.
  apply bind_safe; [apply deref_safe; by rewrite Hcn|].
  intros cn' m1 [Hcn' ->]%deref_Ok. rewrite Hcn in Hcn'. injection Hcn' as <-.
  rewrite Hpar. apply bind_safe; [done|].
  intros p m1 [[= <-] ->]%py_attr_Ok.
  apply bind_safe; [apply deref_safe; by rewrite Hpn|].
  intros pn' m1 [_ ->]%deref_Ok.
  apply bind_safe; [by apply await_safe|].
  intros x m1 [Hheap _]%await_Ok.
  apply IH; rewrite Hheap; [done|by rewrite Hcn].
Qed.

Lemma new_children_safe (sc : config) (i : nat) (s : State)
    (actions : list Action) :
  (∀ s a w, is_Some (sc_fast_reward sc s a w)) →
  ∀ m, is_Some (heap m !! i) →
       ∀ e, new_children sc i s actions m ≠ Raise e.
Proof.
  intros Hfr. induction actions as [|a actions IH]; intros m Hi; simpl; [done|].
  apply bind_safe; [by apply await_safe|].
  intros [fr frd] m1 [Hheap _]%await_Ok.
  apply bind_safe.
  { unfold MCTSNode__init__. apply bind_safe; [|done].
    apply bind_safe; [apply deref_safe; by rewrite Hheap|done]. }
  intros c m2 Hc. apply bind_safe; [|done]. apply IH.
  unfold MCTSNode__init__ in Hc.
  apply bind_Ok in Hc as (d & m3 & Hd & Hc).
  apply bind_Ok in Hd as (pn & m4 & [_ ->]%deref_Ok & [_ ->]%mret_Ok).
  unfold alloc in Hc. injection Hc as _ <-. simpl. rewrite Hheap.
  destruct Hi as [x Hx]. exists x. by apply lookup_app_l_Some.
Qed.

Lemma _expand_safe self (wm : model) (sc : config) (i : nat) m nd :
  world_model self = Some wm → search_config self = Some sc →
  never_fails wm sc →
  heap m !! i = Some nd →
  (state nd = None → ∃ p, parent nd = Some p ∧ is_Some (heap m !! p)) →
  ∀ e, _expand self i m ≠ Raise e.
Proof.
  intros Hwm Hsc (_ & Hstep & Hterm & Hact & Hfr & Hrew) Hnd Hpar.
  assert (i < length (heap m)) as Hlt by by eapply lookup_lt_Some.
  unfold _expand. apply bind_safe; [apply deref_safe; by rewrite Hnd|].
  intros nd' m1 [Hnd' ->]%deref_Ok. rewrite Hnd in Hnd'. injection Hnd' as <-.
  apply bind_safe.
  { destruct (state nd); [done|].
    destruct Hpar as (p & Hp & Hpv); [done|].
    rewrite Hwm. apply bind_safe; [done|].
    intros wm' m1 [[= <-] ->]%py_attr_Ok.
    rewrite Hp. apply bind_safe; [done|].
    intros p' m1 [[= <-] ->]%py_attr_Ok.
    apply bind_safe; [by apply deref_safe|].
    intros pn m1 [_ ->]%deref_Ok.
    apply bind_safe; [by apply await_safe|].
    intros [s aux] m1 [Hh1 _]%await_Ok.
    apply bind_safe; [apply modify_safe; rewrite Hh1, Hnd; done|].
    intros [] m2 (n2 & _ & ->)%modify_Ok.
    rewrite Hsc. apply bind_safe; [done|].
    intros sc' m3 [[= <-] ->]%py_attr_Ok.
    apply bind_safe; [by apply await_safe|].
    intros [r rd] m3 [Hh3 _]%await_Ok.
    apply bind_safe.
    { apply modify_safe. rewrite Hh3. simpl. rewrite Hh1.
      apply lookup_lt_is_Some_2. by rewrite length_insert. }
    intros [] m4 (n4 & _ & ->)%modify_Ok.
    apply bind_safe; [by apply await_safe|].
    intros t m5 [Hh5 _]%await_Ok.
    apply bind_safe; [|done].
    apply modify_safe. rewrite Hh5. simpl. rewrite Hh3. simpl. rewrite Hh1.
    apply lookup_lt_is_Some_2. by rewrite !length_insert. }
  intros s m1 Hres.
  assert (length (heap m1) = length (heap m)) as Hlen.
  { destruct (state nd).
    - by apply mret_Ok in Hres as [_ <-].
    - apply bind_Ok in Hres as (? & ? & [_ ->]%py_attr_Ok & Hres).
      apply bind_Ok in Hres as (? & ? & [_ ->]%py_attr_Ok & Hres).
      apply bind_Ok in Hres as (? & ? & [_ ->]%deref_Ok & Hres).
      apply bind_Ok in Hres as ([? ?] & ? & [Hh1 _]%await_Ok & Hres).
      apply bind_Ok in Hres as ([] & ? & (? & _ & ->)%modify_Ok & Hres).
      apply bind_Ok in Hres as (? & ? & [_ ->]%py_attr_Ok & Hres).
      apply bind_Ok in Hres as ([? ?] & ? & [Hh3 _]%await_Ok & Hres).
      apply bind_Ok in Hres as ([] & ? & (? & _ & ->)%modify_Ok & Hres).
      apply bind_Ok in Hres as (? & ? & [Hh5 _]%await_Ok & Hres).
      apply bind_Ok in Hres as ([] & ? & (? & _ & ->)%modify_Ok & Hres).
      apply mret_Ok in Hres as [_ <-]. simpl.
      rewrite length_insert, Hh5. simpl.
      rewrite length_insert, Hh3. simpl.
      by rewrite length_insert, Hh1. }
  assert (is_Some (heap m1 !! i)) as Hi1
    by (apply lookup_lt_is_Some_2; by rewrite Hlen).
  apply bind_safe; [by apply deref_safe|].
  intros nd2 m2 [_ ->]%deref_Ok.
  destruct (is_terminal nd2); [done|].
  rewrite Hsc. apply bind_safe; [done|].
  intros sc' m2 [[= <-] ->]%py_attr_Ok.
  apply bind_safe; [by apply await_safe|].
  intros actions m2 [Hh2 _]%await_Ok.
  apply bind_safe; [apply new_children_safe; [done|by rewrite Hh2]|].
  intros cs m3 Hcs.
  destruct Hi1 as [x Hx].
  apply (new_children_spec sc i s x) in Hcs as (news & Hh3 & _);
    [|by rewrite Hh2].
  apply modify_safe. rewrite Hh3, Hh2.
  exists x. by apply lookup_app_l_Some.
Qed.


Lemma map_m_deref_run {B} (f : node → B) (cs : list nat) m :
  (∀ c, c ∈ cs → is_Some (heap m !! c)) →
  ∃ l, map_m (fun c => cn ← deref c; mret (f cn)) cs m = Ok (l, m)
       ∧ length l = length cs.
Proof.
  induction cs as [|c cs IH]; intros Hval; simpl; [by exists []|].
  destruct (Hval c) as [cn Hcn]; [apply list_elem_of_here|].
  destruct IH as (l & Hl & Hlen).
  { intros c' Hc'. by apply Hval, list_elem_of_further. }
  exists (f cn :: l). split; [|simpl; by rewrite Hlen].
  erewrite bind_run; [|by erewrite bind_run; [|by apply deref_run]].
  by erewrite bind_run.
Qed.

Lemma call_choice_in_range (c : @py_choice World) (x : list R) m :
  choice_in_range c → x ≠ [] →
  ∃ i m', call_choice c x m = Ok (i, m') ∧ heap m' = heap m
          ∧ (- Z.of_nat (length x) <= i < Z.of_nat (length x))%Z.
Proof.
  destruct c as [f|s]; [|done]. intros Hc Hx.
  destruct (Hc x (world m) Hx) as (i & w' & Hf & Hr).
  exists i, (mkMachine (heap m) w'). unfold call_choice. by rewrite Hf.
Qed.

Lemma py_index_in_range {A} (l : list A) (i : Z) :
  (- Z.of_nat (length l) <= i < Z.of_nat (length l))%Z →
  ∃ x, py_index l i = Ok x.
Proof.
  intros Hr. unfold py_index.
  set (j := if (i <? 0)%Z then (i + Z.of_nat (length l))%Z else i).
  assert (0 <= j < Z.of_nat (length l))%Z as Hj.
  { unfold j. destruct (Z.ltb_spec i 0); lia. }
  destruct (Z.ltb_spec j 0); [lia|].
  destruct (lookup_lt_is_Some_2 l (Z.to_nat j)) as [x ->]; [lia|].
  by exists x.
Qed.

Lemma _simulate_loop_safe (fuel : nat) self (wm : model) (sc : config) :
  world_model self = Some wm → search_config self = Some sc →
  never_fails wm sc → choice_in_range (simulate_choice self) →
  ∀ (path : list nat) (t : nat) m nd,
    heap_inv_upto path (heap m) → t ∈ path →
    resolved_expanded (heap m) →
    heap m !! t = Some nd →
    (state nd = None → ∃ p, parent nd = Some p ∧ is_Some (heap m !! p)) →
    (is_Some (state nd) → is_terminal nd = true ∨ children nd ≠ None) →
    ∀ e, _simulate_loop fuel self path t m ≠ Raise e.
Proof.
  intros Hwm Hsc Hnf Hchoice.
  induction fuel as [|fuel IH];
    intros path t m nd Hinv Ht Hres Hnd Hpar Hexp; [done|].
  simpl. apply bind_safe; [apply deref_safe; by rewrite Hnd|].
  intros nd' m1 [Hnd' ->]%deref_Ok. rewrite Hnd in Hnd'. injection Hnd' as <-.
  apply bind_safe.
  { case_bool_decide; [|done]. by eapply _expand_safe. }
  intros [] m1 Hx.
  assert (heap_inv_upto path (heap m1) ∧ resolved_expanded (heap m1)
          ∧ ∃ nd1, heap m1 !! t = Some nd1
                   ∧ (is_terminal nd1 = true ∨ children nd1 ≠ None))
    as (Hinv1 & Hres1 & nd1 & Hnd1 & Hch1).
  { case_bool_decide as Hst.
    - split_and!.
      + eapply expand_post_inv; [done..|by eapply _expand_spec].
      + by eapply _expand_resolved.
      + destruct (_expand_expanded _ _ _ _ Hx) as (nd1 & ? & _ & ?). eauto.
    - apply mret_Ok in Hx as [_ <-]. split_and!; [done..|].
      exists nd. split; [done|]. apply Hexp. by destruct (state nd). }
  clear Hx.
  apply bind_safe; [apply deref_safe; by rewrite Hnd1|].
  intros nd1' m2 [Hnd1' ->]%deref_Ok.
  rewrite Hnd1 in Hnd1'. injection Hnd1' as <-.
  destruct (_is_terminal_with_depth_limit self nd1) eqn:Hterm; [done|].
  apply not_terminal_depth in Hterm as (Hnt & _).
  destruct Hch1 as [?|Hch1]; [congruence|].
  destruct (children nd1) as [cs|] eqn:Hcs; [|done].
  case_bool_decide as Hlen; [done|].
  assert (∀ c, c ∈ cs →
               ∃ cn, heap m1 !! c = Some cn ∧ parent cn = Some t ∧ t < c)
    as Hval.
  { intros c Hc.
    destruct (inv_links _ _ Hinv1 t c) as (pn & cn & _ & ? & ? & _ & ?);
      [by exists nd1, cs|]. eauto. }
  destruct (map_m_deref_run fast_reward cs m1) as (frs & Hfrs & Hl).
  { intros c Hc. destruct (Hval c Hc) as (cn & -> & _). done. }
  rewrite (bind_run _ _ _ _ _ Hfrs).
  destruct (call_choice_in_range (simulate_choice self) frs m1)
    as (i & m2 & Hcc & Hh2 & Hr); [done| |].
  { intros ->. simpl in Hl. lia. }
  rewrite (bind_run _ _ _ _ _ Hcc).
  destruct (py_index_in_range cs i) as [c Hc]; [by rewrite <- Hl|].
  rewrite Hc. apply bind_safe; [done|]. intros c' m3 [[= <-] ->]%lift_Ok.
  apply py_index_Ok in Hc. destruct (Hval c Hc) as (cn & Hcn & Hp & Hlt).
  eapply (IH _ _ _ cn).
  - rewrite Hh2. eapply heap_inv_upto_mono; [|done].
    intros j Hj. apply elem_of_app. by left.
  - apply elem_of_app. right. apply list_elem_of_here.
  - by rewrite Hh2.
  - by rewrite Hh2.
  - intros _. exists t. rewrite Hh2, Hnd1. done.
  - intros Hs. destruct (Hres1 c cn Hcn) as [_ Hr']. apply Hr'; [lia|done].
Qed.

Lemma iterate_safe (fuel : nat) self (wm : model) (sc : config) m :
  world_model self = Some wm → search_config self = Some sc →
  never_fails wm sc → choice_in_range (simulate_choice self) →
  heap_inv (heap m) → resolved_expanded (heap m) →
  ∀ e, iterate fuel self 0 m ≠ Raise e.
Proof.
  intros Hwm Hsc Hnf Hchoice Hinv Hres. unfold iterate, _select.
  destruct (inv_root _ _ Hinv) as (r0 & Hr0 & _ & _ & Hr0s & _).
  apply bind_safe.
  { eapply _select_loop_safe; [done| |done|by rewrite Hr0]. apply Hnf. }
  intros path0 m1 Hsel.
  pose proof (_select_loop_spec _ _ _ _ _ _ _ _ Hinv Hsel)
    as [Hh1 (ext0 & -> & Hdesc0)].
  apply (_select_loop_stop _ _ []) in Hsel
    as (ext0' & t0 & tn0 & Heq & Hlast0 & Htn0 & Hstop & _); [|done].
  simpl in Heq. injection Heq as <-. simpl app.
  rewrite (proj2 (py_last_Ok _ _) Hlast0).
  apply bind_safe; [done|]. intros t0' m2 [[= <-] ->]%lift_Ok.
  apply bind_safe; [apply deref_safe; by rewrite Hh1, Htn0|].
  intros tn0' m2 [Htn0' ->]%deref_Ok.
  rewrite Hh1, Htn0 in Htn0'. injection Htn0' as <-.
  pose proof (last_elem_of _ _ Hlast0) as Hin.
  pose proof (heap_inv_upto_mono [] (0 :: ext0) _
                ltac:(by intros ? ?%elem_of_nil) Hinv) as Hinv'.
  apply bind_safe.
  { destruct (_is_terminal_with_depth_limit self tn0) eqn:Hterm; simpl;
      [done|].
    apply bind_safe.
    { eapply _expand_safe; [done..|by rewrite Hh1|].
      intros Hst.
      apply elem_of_cons in Hin as [->|Hin].
      - rewrite Hr0 in Htn0. injection Htn0 as <-.
        rewrite Hst in Hr0s. by destruct Hr0s.
      - destruct (descends_parent_in _ _ _ _ Hdesc0 Hin) as (q & _ & Hq).
        destruct (inv_links _ _ Hinv _ _ Hq) as (pn & cn & Hpn & Hcn & Hp & _).
        exists q. rewrite Hh1, Hpn. rewrite Htn0 in Hcn.
        injection Hcn as <-. done. }
    intros [] m3 Hexp. unfold _simulate.
    rewrite (proj2 (py_last_Ok _ _) Hlast0).
    apply bind_safe; [done|]. intros t0' m4 [[= <-] ->]%lift_Ok.
    destruct (_expand_expanded _ _ _ _ Hexp) as (nd3 & Hnd3 & Hst3 & Hch3).
    eapply (_simulate_loop_safe _ _ _ _ Hwm Hsc Hnf Hchoice _ _ _ nd3).
    - eapply expand_post_inv; [|done|by eapply _expand_spec]. by rewrite Hh1.
    - done.
    - eapply _expand_resolved; [done|]. by rewrite Hh1.
    - done.
    - intros Hn. rewrite Hn in Hst3. by destruct Hst3.
    - done. }
  intros path1 m2 Hmid.
  assert (∃ ext, path1 = 0 :: ext ∧ heap_inv_upto (0 :: ext) (heap m2)
                 ∧ descends (heap m2) 0 ext) as (ext & -> & Hinv2 & Hdesc2).
  { destruct (_is_terminal_with_depth_limit self tn0); simpl in Hmid.
    - apply mret_Ok in Hmid as [<- <-]. exists ext0. by rewrite Hh1.
    - apply bind_Ok in Hmid as ([] & m3 & Hexp & Hsim).
      unfold _simulate in Hsim.
      apply bind_Ok in Hsim as (t1 & m4 & [Ht1%py_last_Ok ->]%lift_Ok & Hsim).
      pose proof (_expand_spec _ _ _ _ Hexp) as Hpost. rewrite Hh1 in Hpost.
      eapply _simulate_loop_spec in Hsim; [done| | |done].
      + by eapply expand_post_inv.
      + by eapply descends_expand. }
  pose proof (descends_valid _ _ _ Hinv2 Hdesc2) as Hvalid.
  assert (∃ t, last (0 :: ext) = Some t) as [t Ht].
  { destruct (last (0 :: ext)) eqn:E; [eauto|]. by apply last_None in E. }
  destruct (Hvalid t) as [tn Htn]; [by apply last_elem_of|].
  destruct (back_propagate_run (0 :: ext) m2 t tn)
    as (m3 & first & fnd & Hrun & _ & _ & _ & Hin3 & _);
    [by eapply descends_NoDup|done..|].
  rewrite (bind_run _ _ _ _ _ Hrun).
  rewrite (proj2 (py_last_Ok _ _) Ht).
  apply bind_safe; [done|]. intros t' m4 [[= <-] ->]%lift_Ok.
  apply bind_safe; [|done].
  apply deref_safe. rewrite (Hin3 t tn); [done|by apply last_elem_of|done].
Qed.


Lemma map_o_run {A B} (f : A → outcome B) (l : list A) :
  (∀ x, x ∈ l → ∃ y, f x = Ok y) → ∃ ys, map_o f l = Ok ys.
Proof.
  induction l as [|x l IH]; intros Hf; simpl; [by eexists|].
  destruct (Hf x) as [y ->]; [apply list_elem_of_here|].
  destruct IH as [ys ->]; [|by eexists].
  intros x' Hx'. by apply Hf, list_elem_of_further.
Qed.

Lemma recorded_engine self (p : list nat) (c : R) (t : bool) :
  world_model (recorded self p c t) = world_model self
  ∧ search_config (recorded self p c t) = search_config self
  ∧ (_output_iter (recorded self p c t) = _output_iter self
     ∨ _output_iter (recorded self p c t) = Some p).
Proof.
  split_and!.
  - destruct (same_config_recorded self self p c t (same_config_refl self))
      as (c' & it & ->). done.
  - destruct (same_config_recorded self self p c t (same_config_refl self))
      as (c' & it & ->). done.
  - destruct (decide (output_strategy self = "last_iter")) as [Hos|Hos].
    + right. by apply recorded_last_iter.
    + destruct (recorded_streaming self p c t Hos) as [[? _]|[? _]]; auto.
Qed.

Lemma iterations_safe (fuel : nat) (wm : model) (sc : config) (n : nat) :
  never_fails wm sc →
  ∀ self m,
    world_model self = Some wm → search_config self = Some sc →
    choice_in_range (simulate_choice self) →
    heap_inv (heap m) →
    deep_placeholders (Z.to_nat (depth_limit self)) (heap m) →
    resolved_expanded (heap m) →
    ∀ e, iterations fuel n self 0 m ≠ Raise e.
Proof.
  intros Hnf. induction n as [|n IH];
    intros self m Hwm Hsc Hchoice Hinv Hdeep Hres; simpl; [done|].
  apply bind_safe; [by eapply iterate_safe|].
  intros [[path cum] self1] m1 Hit.
  destruct (iterate_step _ _ _ _ _ _ _ Hinv Hdeep Hres Hit)
    as (Hinv1 & Hdeep1 & Hres1 & _).
  destruct (iterate_tail _ _ _ _ _ _ _ _ Hit) as (t & tn & _ & _ & ->).
  destruct (recorded_engine self path cum (is_terminal tn)) as (Hw & Hs & _).
  destruct (recorded_fields self path cum (is_terminal tn)) as (Hd & Hc).
  apply IH; rewrite ?Hw, ?Hs, ?Hd, ?Hc; done.
Qed.

(** The output candidate names nodes of the heap. *)
Lemma iterations_candidate (fuel : nat) (n : nat) :
  ∀ self m self' m',
    heap_inv (heap m) →
    deep_placeholders (Z.to_nat (depth_limit self)) (heap m) →
    resolved_expanded (heap m) →
    (∀ it, _output_iter self = Some it →
           it ≠ [] ∧ ∀ i, i ∈ it → is_Some (heap m !! i)) →
    iterations fuel n self 0 m = Ok (self', m') →
    ∀ it, _output_iter self' = Some it →
          it ≠ [] ∧ ∀ i, i ∈ it → is_Some (heap m' !! i).
Proof.
  induction n as [|n IH]; intros self m self' m' Hinv Hdeep Hres Hcand; simpl.
  { by intros [<- <-]%mret_Ok. }
  intros ([[path cum] self1] & m1 & Hit & Hits)%bind_Ok.
  destruct (iterate_step _ _ _ _ _ _ _ Hinv Hdeep Hres Hit)
    as (Hinv1 & Hdeep1 & Hres1 & [Hgrow _] & _).
  destruct (iterate_spec _ _ _ _ _ _ _ Hinv Hit)
    as (_ & ext & rn & -> & Hdesc & _).
  destruct (iterate_tail _ _ _ _ _ _ _ _ Hit) as (t & tn & _ & _ & ->).
  destruct (recorded_fields self (0 :: ext) cum (is_terminal tn)) as (Hd & _).
  eapply IH; [done| |done| |done]; [by rewrite Hd|].
  intros it Hit'.
  destruct (recorded_engine self (0 :: ext) cum (is_terminal tn))
    as (_ & _ & [Ho|Ho]); rewrite Ho in Hit'.
  - destruct (Hcand it Hit') as [Hne Hval]. split; [done|].
    intros i Hi. destruct (Hval i Hi) as [nd Hnd].
    destruct (Hgrow i nd Hnd) as (nd' & -> & _). done.
  - injection Hit' as <-. split; [done|].
    by eapply descends_valid.
Qed.

(** ** The strategies that read the tree after the loop *)

Lemma visited_children_run σ (p : nat) pn (cs : list nat) :
  heap_inv σ → σ !! p = Some pn → children pn = Some cs →
  ∃ nodes, map_o (fun x => xn ← deref_in σ x; Ok (x, xn)) cs = Ok nodes.
Proof.
  intros Hinv Hp Hcs. apply map_o_run. intros c Hc.
  destruct (inv_links _ _ Hinv p c) as (_ & cn & _ & Hcn & _);
    [by exists pn, cs|].
  exists (c, cn). unfold deref_in. by rewrite Hcn.
Qed.

Lemma follow_max_loop_safe σ :
  heap_inv σ → resolved_expanded σ →
  (∃ rn, σ !! 0 = Some rn ∧ children rn ≠ None) →
  ∀ (fuel : nat) (out : list nat) (cur : nat),
    cur = 0
    ∨ (∃ p cn, is_child σ p cur ∧ σ !! cur = Some cn ∧ state cn ≠ None) →
    ∀ e, follow_max_loop fuel σ out cur ≠ Raise e.
Proof.
  intros Hinv Hres (rn & Hrn & Hrch).
  induction fuel as [|fuel IH]; intros out cur Hcur; [done|].
  simpl.
  assert (∃ nd, σ !! cur = Some nd
                ∧ (is_terminal nd = false → children nd ≠ None))
    as (nd & Hnd & Hch).
  { destruct Hcur as [->|(p & cn & Hp & Hcn & Hst)].
    - by exists rn.
    - exists cn. split; [done|]. intros Ht.
      destruct (inv_links _ _ Hinv _ _ Hp) as (_ & _ & _ & _ & _ & _ & Hlt).
      destruct (Hres _ _ Hcn) as [_ [?|?]];
        [lia|by destruct (state cn)|congruence|done]. }
  apply outcome_bind_safe.
  { unfold deref_in. by rewrite Hnd. }
  intros nd' Hnd'%deref_in_Ok. rewrite Hnd in Hnd'. injection Hnd' as <-.
  destruct (is_terminal nd) eqn:Hterm; [done|].
  destruct (children nd) as [cs|] eqn:Hcs; [|by destruct Hch].
  destruct (visited_children_run σ cur nd cs) as [nodes Hnodes]; [done..|].
  rewrite Hnodes. simpl.
  destruct (bool_decide _) eqn:Hlen; [done|].
  apply bool_decide_eq_false in Hlen.
  apply outcome_bind_safe.
  - destruct (py_max_key_spec
                (fun x => (fun xn : node => Fin (reward xn)) <$> deref_in σ x)
                (fun x => match σ !! x with
                          | Some xn => Fin (reward xn)
                          | None => NegInf
                          end)
                ((filter (fun x => state x.2 ≠ None) nodes).*1))
      as (c & Hc & _).
    + intros Hnil. rewrite Hnil in Hlen. by apply Hlen.
    + intros x [_ (xn & Hxn & _)]%(visited_children_spec _ _ _ _ Hnodes).
      unfold deref_in. rewrite Hxn. done.
    + intros e. by rewrite Hc.
  - intros c Hc%py_max_key_elem.
    apply (visited_children_spec _ _ _ _ Hnodes) in Hc as [Hc (cn & Hcn & Hs)].
    apply IH. right. exists cur, cn. split_and!; [|done..].
    by exists nd, cs.
Qed.

Lemma follows_max_valid σ (ext : list nat) :
  ∀ a, follows_max σ a ext → ∀ i, i ∈ a :: ext → is_Some (σ !! i).
Proof.
  induction ext as [|b ext IH]; intros a; simpl.
  - intros (an & Han & _) i ->%list_elem_of_singleton. by rewrite Han.
  - intros (an & bn & Han & _ & _ & _ & _ & _ & Hf) i [->|Hi]%elem_of_cons.
    + by rewrite Han.
    + by eapply IH.
Qed.

Lemma terminal_path_valid σ (ext : list nat) :
  ∀ a, terminal_path σ a ext → ∀ i, i ∈ a :: ext → is_Some (σ !! i).
Proof.
  induction ext as [|b ext IH]; intros a; simpl.
  - intros (an & Han & _) i ->%list_elem_of_singleton. by rewrite Han.
  - intros ((an & cs & Han & _) & _ & Ht) i [->|Hi]%elem_of_cons.
    + by rewrite Han.
    + by eapply IH.
Qed.

Lemma map_o_deref_run {B} (f : node → B) σ (l : list nat) :
  (∀ i, i ∈ l → is_Some (σ !! i)) →
  ∃ ys, map_o (fun i => f <$> deref_in σ i) l = Ok ys.
Proof.
  intros Hval. apply map_o_run. intros i Hi.
  destruct (Hval i Hi) as [nd Hnd]. exists (f nd).
  unfold deref_in. by rewrite Hnd.
Qed.

Lemma _dfs_max_reward_safe self σ :
  heap_inv σ →
  ∀ (fuel : nat) (path : list nat) (cur : nat),
    last path = Some cur →
    (∀ i, i ∈ path → is_Some (σ !! i)) →
    ∀ e, _dfs_max_reward fuel self σ path ≠ Raise e.
Proof.
  intros Hinv. induction fuel as [|fuel IH]; intros path cur Hlast Hval;
    [done|].
  simpl.
  apply outcome_bind_safe; [by rewrite (proj2 (py_last_Ok _ _) Hlast)|].
  intros cur' Hcur'%py_last_Ok. rewrite Hlast in Hcur'. injection Hcur' as <-.
  destruct (Hval cur) as [cn Hcn]; [by apply last_elem_of|].
  apply outcome_bind_safe; [unfold deref_in; by rewrite Hcn|].
  intros cn' Hcn'%deref_in_Ok. rewrite Hcn in Hcn'. injection Hcn' as <-.
  destruct (is_terminal cn).
  { apply outcome_bind_safe; [|done].
    destruct (map_o_deref_run reward σ (py_tail path)) as [rs Hrs].
    - intros i Hi. apply Hval. unfold py_tail in Hi.
      rewrite <- (take_drop 1 path). apply elem_of_app. by right.
    - intros e. by rewrite Hrs. }
  destruct (children cn) as [cs|] eqn:Hcs; [|done].
  destruct (visited_children_run σ cur cn cs) as [nodes Hnodes]; [done..|].
  rewrite Hnodes. simpl.
  destruct (bool_decide _) eqn:Hlen; [done|].
  apply bool_decide_eq_false in Hlen.
  apply outcome_bind_safe.
  - set (vs := (filter (fun x => state x.2 ≠ None) nodes).*1) in *.
    assert (∀ b, b ∈ vs → b ∈ cs ∧ is_Some (σ !! b)) as Hvs.
    { intros b [? (bn & -> & _)]%(visited_children_spec _ _ _ _ Hnodes).
      done. }
    clearbody vs. clear Hlen.
    induction vs as [|b vs IHvs]; simpl; [done|].
    apply outcome_bind_safe.
    + eapply IH; [apply last_snoc|].
      intros i [Hi|Hi]%elem_of_app; [by apply Hval|].
      apply list_elem_of_singleton in Hi as ->.
      apply Hvs, list_elem_of_here.
    + intros y _. apply outcome_bind_safe; [|done].
      apply IHvs. intros b' Hb'. by apply Hvs, list_elem_of_further.
  - intros results Hresults.
    destruct (py_max_key_spec (fun x : float * list nat => Ok x.1)
                (fun x => x.1) results) as (c & Hc & _).
    + intros ->. destruct (filter _ nodes).*1 eqn:E; [by apply Hlen|].
      simpl in Hresults.
      apply outcome_bind_Ok in Hresults as (? & _ & Hr).
      apply outcome_bind_Ok in Hr as (? & _ & [=]).
    + done.
    + intros e. by rewrite Hc.
Qed.


Lemma lift_safe {A} (o : outcome A) m :
  (∀ e, o ≠ Raise e) →
  ∀ e, lift (State:=State) (Action:=Action) (Details:=Details) o m ≠ Raise e.
Proof. unfold lift. intros Ho e. destruct o; [done| |done]. by destruct (Ho e0). Qed.

Lemma search_entry_engine self :
  world_model (search_entry self) = world_model self
  ∧ search_config (search_entry self) = search_config self
  ∧ simulate_choice (search_entry self) = simulate_choice self
  ∧ depth_limit (search_entry self) = depth_limit self
  ∧ n_iters (search_entry self) = n_iters self
  ∧ aggregator (search_entry self) = aggregator self.
Proof.
  unfold search_entry. simpl.
  by destruct (output_trace_in_each_iter self).
Qed.

Lemma search_safe (ed : Details) (fuel : nat) self (wm : model) (sc : config)
    m :
  world_model self = Some wm → search_config self = Some sc →
  never_fails wm sc → choice_in_range (simulate_choice self) →
  heap m = [] →
  (output_strategy self = "follow_max" →
   1 ≤ Z.to_nat (n_iters self) ∧ (0 < depth_limit self)%Z) →
  ∀ e, search ed fuel self m ≠ Raise e.
Proof.
  intros Hwm Hsc Hnf Hchoice Hheap Hfm. unfold search. cbv zeta.
  apply bind_safe; [simpl; by rewrite Hwm|].
  intros wm' m1 [Hwm' ->]%py_attr_Ok.
  simpl in Hwm'. rewrite Hwm in Hwm'. injection Hwm' as <-.
  apply bind_safe; [apply await_safe, Hnf|].
  intros s0 m1 [Hh1 Hinit]%await_Ok.
  apply bind_safe; [by unfold MCTSNode__init__, alloc|].
  intros r m2 Hroot.
  unfold MCTSNode__init__ in Hroot.
  apply bind_Ok in Hroot as (d & m3 & [<- <-]%mret_Ok & Hroot).
  unfold alloc in Hroot. rewrite Hh1, Hheap in Hroot. simpl in Hroot.
  injection Hroot as <- <-.
  set (entry := if output_trace_in_each_iter _ then _ else _).
  assert (entry = search_entry self) as -> by reflexivity.
  destruct (search_entry_engine self) as (Ew & Es & Ec & Ed & En & _).
  destruct (search_entry_fields self) as (Eo & _).
  apply bind_safe.
  { eapply iterations_safe;
      [done|by rewrite Ew|by rewrite Es|by rewrite Ec|apply heap_inv_fresh
      |apply deep_placeholders_fresh|apply resolved_expanded_fresh]. }
  intros self1 m2 Hits.
  pose proof Hits as Hits'.
  apply iterations_effect in Hits'
    as (Hinv & Hdeep & Hres & _ & _ & _ & Hroot);
    [|apply heap_inv_fresh|apply deep_placeholders_fresh
     |apply resolved_expanded_fresh].
  apply iterations_inv in Hits as [_ (c & it & ->)]; [|apply heap_inv_fresh].
  assert (output_strategy (set_output c it (search_entry self))
          = output_strategy self) as Hos by done.
  rewrite Hos.
  apply bind_safe.
  { destruct (decide (output_strategy self = "follow_max")) as [Hf|Hf].
    - rewrite bool_decide_eq_true_2 by done.
      destruct (Hfm Hf) as [Hn Hd].
      destruct Hroot as (rn & Hrn & Hrch); [by rewrite En|by rewrite Ed|].
      apply bind_safe; [done|]. intros σ m3 [-> ->]%get_heap_Ok.
      apply bind_safe.
      { apply lift_safe. eapply follow_max_loop_safe; eauto. }
      intros out m3 [Hout ->]%lift_Ok.
      apply bind_safe; [|done].
      apply lift_safe.
      apply follow_max_loop_spec in Hout as (ext & -> & Hf').
      change ([] ++ 0 :: ext) with (0 :: ext).
      destruct (map_o_deref_run reward (heap m2)
                  (py_slice_1_rev (0 :: ext))) as [rs Hrs];
        [|intros e; by rewrite Hrs].
      intros i Hi. eapply follows_max_valid; [done|].
      unfold py_slice_1_rev in Hi. rewrite elem_of_reverse in Hi.
      rewrite <- (take_drop 2 (0 :: ext)). apply elem_of_app. by left.
    - rewrite bool_decide_eq_false_2 by done. done. }
  intros self2 m3 Hfmrun.
  assert (output_strategy self2 = output_strategy self ∧ m3 = m2)
    as [Hos2 ->].
  { destruct (bool_decide (output_strategy self = "follow_max")).
    - apply bind_Ok in Hfmrun as (σ & m4 & [-> ->]%get_heap_Ok & Hfmrun).
      apply bind_Ok in Hfmrun as (out & m4 & [_ ->]%lift_Ok & Hfmrun).
      apply bind_Ok in Hfmrun as (rs & m4 & [_ ->]%lift_Ok & Hfmrun).
      apply mret_Ok in Hfmrun as [<- <-]. done.
    - apply mret_Ok in Hfmrun as [<- <-]. done. }
  rewrite Hos2.
  destruct (bool_decide (output_strategy self = "max_reward")); [|done].
  apply bind_safe; [done|]. intros σ m4 [-> ->]%get_heap_Ok.
  apply bind_safe; [|by intros [c' p] ? _].
  apply lift_safe. eapply _dfs_max_reward_safe; [done|done|].
  intros i ->%list_elem_of_singleton.
  destruct (inv_root _ _ Hinv) as (r & -> & _). done.
Qed.

Lemma search_engine (ed : Details) (fuel : nat) self m self' m' :
  heap m = [] →
  search ed fuel self m = Ok (self', m') →
  aggregator self' = aggregator self
  ∧ root self' = Some 0
  ∧ (if output_trace_in_each_iter self'
     then trace_in_each_iter self' = Some [] else True)
  ∧ heap_inv (heap m')
  ∧ deep_placeholders (Z.to_nat (depth_limit self)) (heap m')
  ∧ resolved_expanded (heap m')
  ∧ (1 ≤ Z.to_nat (n_iters self) → (0 < depth_limit self)%Z →
     ∃ rn, heap m' !! 0 = Some rn ∧ children rn ≠ None)
  ∧ (∀ it, _output_iter self' = Some it →
           it ≠ [] ∧ ∀ i, i ∈ it → is_Some (heap m' !! i)).
Proof.
  intros Hheap Hsearch.
  apply search_Ok in Hsearch
    as (wm & s0 & w0 & self1 & _ & _ & Hits & Hcfg & Hinv & Hpost); [|done].
  destruct (search_entry_engine self) as (_ & _ & _ & Ed & En & Ea).
  destruct (search_entry_fields self) as (_ & Eoi & _ & _ & Efl & Er & Etr).
  pose proof Hits as Hits'.
  apply iterations_effect in Hits'
    as (_ & Hdeep & Hres & _ & _ & _ & Hroot);
    [|apply heap_inv_fresh|apply deep_placeholders_fresh
     |apply resolved_expanded_fresh].
  rewrite Ed in Hdeep, Hroot.
  assert (∀ it, _output_iter self1 = Some it →
                it ≠ [] ∧ ∀ i, i ∈ it → is_Some (heap m' !! i)) as Hcand.
  { eapply iterations_candidate; [| | | |exact Hits];
      [apply heap_inv_fresh|apply deep_placeholders_fresh
      |apply resolved_expanded_fresh|by rewrite Eoi]. }
  assert (aggregator self1 = aggregator self ∧ root self1 = Some 0
          ∧ output_trace_in_each_iter self1 = output_trace_in_each_iter self
          ∧ trace_in_each_iter self1
            = if output_trace_in_each_iter self then Some []
              else trace_in_each_iter self) as (Ha1 & Hr1 & Hf1 & Ht1).
  { destruct Hcfg as (c & it & ->). simpl. by rewrite Ea, Er, Efl, Etr. }
  assert (∃ c it,
            self' = set_output c it self1
            ∧ ∀ p, it = Some p → _output_iter self1 ≠ Some p →
                   p ≠ [] ∧ ∀ i, i ∈ p → is_Some (heap m' !! i))
    as (c & it & -> & Hnew).
  { repeat case_decide.
    - destruct Hpost as (out & rs & Hout & _ & ->).
      exists (cum_reward self rs), (Some out). split; [done|].
      intros p [= <-] _.
      apply follow_max_loop_spec in Hout as (ext & -> & Hf).
      split; [done|]. by eapply follows_max_valid.
    - destruct Hpost as (c & p & Hdfs & ->).
      exists c, (if is_neg_inf c then None else Some p). split; [done|].
      intros p' Hp' _.
      eapply (_dfs_max_reward_spec _ _ Hinv _ [0] 0) in Hdfs as [[-> _]|Hq];
        [done| |done].
      destruct Hq as (q & Hq & -> & _).
      destruct (is_neg_inf c); [done|]. injection Hp' as <-.
      split; [done|]. by eapply terminal_path_valid.
    - subst self'. exists (_output_cum_reward self1), (_output_iter self1).
      split; [by destruct self1|]. by intros p ->. }
  simpl. rewrite Hf1, Ht1. split_and!; try done.
  - by destruct (output_trace_in_each_iter self).
  - intros p Hp.
    destruct (decide (_output_iter self1 = Some p)) as [Hold|Hold]; auto.
Qed.

Lemma MCTS__call___safe (ed : Details) (fuel : nat) self (wm : model)
    (sc : config) m :
  never_fails wm sc →
  choice_in_range (simulate_choice self) →
  (output_strategy self = "follow_max" ∨ aggregator self ≠ None →
   (1 <= n_iters self)%Z ∧ (1 <= depth_limit self)%Z) →
  ∀ e, MCTS__call__ ed fuel self wm sc m ≠ Raise e.
Proof.
  intros Hnf Hchoice Hneed. unfold MCTS__call__. cbv zeta.
  apply bind_safe; [done|]. intros [] m1 Hreset.
  unfold reset_id in Hreset. injection Hreset as <-.
  apply bind_safe.
  { eapply (search_safe ed fuel _ wm sc); [done..|].
    simpl. intros Hf. destruct Hneed; [by left|lia]. }
  intros self1 m2 Hsearch.
  apply search_engine in Hsearch
    as (Hagg & Hroot & Htr & Hinv & Hdeep & Hres & Hrch & Hcand); [|done].
  simpl in Hagg, Hrch.
  apply bind_safe; [done|]. intros σ m3 [-> ->]%get_heap_Ok.
  apply bind_safe.
  { destruct (_output_iter self1) as [it|] eqn:Hit; [|done].
    destruct (Hcand it eq_refl) as [Hne Hval].
    destruct (last it) as [t|] eqn:Ht; [|by apply last_None in Ht].
    rewrite (proj2 (py_last_Ok _ _) Ht).
    apply bind_safe; [done|]. intros t' m4 [[= <-] ->]%lift_Ok.
    apply bind_safe; [apply deref_safe, Hval; by apply last_elem_of|].
    intros tn m4 [_ ->]%deref_Ok.
    apply bind_safe.
    { apply lift_safe.
      destruct (map_o_deref_run state (heap m2) it Hval) as [ys Hys].
      intros e. by rewrite Hys. }
    intros sts m4 [_ ->]%lift_Ok.
    apply bind_safe; [|done]. apply lift_safe.
    destruct (map_o_deref_run action (heap m2) (py_tail it)) as [ys Hys].
    - intros i Hi. apply Hval. unfold py_tail in Hi.
      rewrite <- (take_drop 1 it). apply elem_of_app. by right.
    - intros e. by rewrite Hys. }
  intros [ts tr] m3 _.
  apply bind_safe.
  { destruct (output_trace_in_each_iter self1); [|done].
    rewrite Htr. apply bind_safe; [done|]. by intros. }
  intros [tiei tsaei] m4 _.
  apply bind_safe; [|by intros].
  destruct (aggregator self1) as [a|] eqn:Ha; [|done].
  rewrite Hroot. apply bind_safe; [done|].
  intros r m5 [[= <-] ->]%py_attr_Ok.
  apply lift_safe. unfold MCTSAggregation__call__.
  destruct Hneed as [Hn Hd]; [right; by rewrite <- Hagg|].
  apply outcome_bind_safe.
  { eapply visit_safe; [done..| |by left]. apply Hrch; lia. }
  intros [l d] _. case_decide; [done|].
  destruct (dict_max_safe d) as [x Hx].
  { intros ->. done. }
  apply outcome_bind_safe; [intros e; by rewrite Hx|done].
Qed.

(** X2.  With collaborators that always return and a simulate choice
    that yields an index of the list it is given, a call returns a result:
    the engine raises no exception of its own, whatever the strategy, and it
    stops (the fuel stands for the bound on the depth of the recursion).
    Two uses need more: [follow_max] and an aggregator read the children of
    the root, which exist only after one iteration with a depth limit of at
    least one. *)
Theorem call_returns (ed : Details) (fuel : nat) self (wm : model)
    (sc : config) m :
  never_fails wm sc →
  choice_in_range (simulate_choice self) →
  choice_halts (simulate_choice self) →
  Z.to_nat (depth_limit self) + 2 ≤ fuel →
  (output_strategy self = "follow_max" ∨ aggregator self ≠ None →
   (1 <= n_iters self)%Z ∧ (1 <= depth_limit self)%Z) →
  ∃ res self' m', MCTS__call__ ed fuel self wm sc m = Ok (res, self', m').
Proof.
  intros Hnf Hrange Hhalts Hfuel Hneed.
  destruct (MCTS__call__ ed fuel self wm sc m) as [[[res self'] m']|e|] eqn:H.
  - eauto.
  - by eapply MCTS__call___safe in H.
  - by eapply MCTS__call___halts in H.
Qed.

End Facts.

(** * Concrete runs *)

Example py_slice_1_rev_long : py_slice_1_rev [10; 20; 30; 40] = [20; 10].
Proof. reflexivity. Qed.

Example py_slice_1_rev_short : py_slice_1_rev [10] = [10].
Proof. reflexivity. Qed.

Example py_index_from_the_end : py_index [10; 20; 30] (-1) = Ok 30.
Proof. reflexivity. Qed.

Example py_index_out_of_range : py_index [10; 20; 30] 3 = Raise IndexError.
Proof. reflexivity. Qed.

Example np_argmax_first_maximum : np_argmax [0; 1; 0; 1]%R = Ok 1%Z.
Proof.
  unfold np_argmax. simpl.
  repeat (destruct (Rgt_dec _ _); try lra; simpl). reflexivity.
Qed.

(** One iteration on a world whose single action reaches a terminal state
    with reward 1: [max_reward] outputs the two-node trajectory and its
    reward. *)
Example single_step_terminal :
  ∃ res self' m',
    Demo.run "max_reward" false 1 1 = Ok (res, self', m')
    ∧ trace_of_nodes res = Some [0; 1]
    ∧ terminal_state res = Some 1
    ∧ trace res = Some ([Some 0; Some 1], [Some 0])
    ∧ res_cum_reward res = Fin (0 + 1).
Proof.
  eexists _, _, _. split; [vm_compute; reflexivity|].
  split_and!; reflexivity.
Qed.

(** With no iteration the root has no children list, and the [follow_max]
    descent fails on iterating over [None]. *)
Example follow_max_without_iterations :
  Demo.run "follow_max" false 0 1 = Raise TypeError.
Proof. vm_compute. reflexivity. Qed.

(** C7.  The constructor does not reject an unknown strategy name: with
    [simulate_strategy = "greedy"] it returns an engine whose
    [simulate_choice] is the string itself, and the failure surfaces only
    in the search, where the first call of [simulate_choice] in [_simulate]
    raises a type error. *)
Lemma unknown_strategy_name_is_accepted :
  ("greedy" ∉ ["max"; "sample"; "random"])
  ∧ ∃ self : MCTS (State:=nat) (Action:=nat) (Details:=unit) (Aux:=unit)
               (Answer:=nat) (World:=unit),
      MCTS__init__ Demo.np false 1 5 10 py_sum (PyStr "greedy") "max_reward"
        true None = Ok self
      ∧ simulate_choice self = PyStr "greedy"
      ∧ MCTS__call__ tt 10 self (Demo.wm 2) Demo.sc (mkMachine [] tt)
        = Raise TypeError.
Proof.
  split.
  - rewrite !elem_of_cons, elem_of_nil. intros [|[|[|]]]; done.
  - eexists. split; [reflexivity|]. split; [reflexivity|].
    vm_compute. reflexivity.
Qed.


Lemma aggregation_terminal_root_witness :
  MCTSAggregation__call__ 1 Demo.by_inverse_depth [Demo.terminal_root] 0
  = Raise ZeroDivisionError.
Proof.
  apply (aggregation_terminal_root_divides_by_zero 0 Demo.by_inverse_depth
           [Demo.terminal_root] 0 Demo.terminal_root 0 0); reflexivity.
Defined.

Lemma uct_select_spec_witness :
  _uct_select (Demo.engine "max_reward" false 1) Demo.young_family 0 = Ok 2
  ∧ ∃ c cn,
      _uct_select (Demo.engine "max_reward" false 1) Demo.family 0 = Ok c
      ∧ c ∈ [1; 2] ∧ Demo.family !! c = Some cn
      ∧ ∀ c' cn', c' ∈ [1; 2] → Demo.family !! c' = Some cn' →
          (uct_value (Demo.engine "max_reward" false 1) Demo.visited_parent cn'
           <= uct_value (Demo.engine "max_reward" false 1)
                Demo.visited_parent cn)%R.
Proof.
  assert (∀ σ : list (MCTSNode (State:=nat) (Action:=nat) (Details:=unit)),
            (∃ n1, σ !! 1 = Some n1 ∧ parent n1 = Some 0) →
            (∃ n2, σ !! 2 = Some n2 ∧ parent n2 = Some 0) →
            ∀ c, c ∈ [1; 2] → ∃ cn, σ !! c = Some cn ∧ parent cn = Some 0)
    as Hwf.
  { intros σ H1 H2 c [->|[->|[]%elem_of_nil]%elem_of_cons]%elem_of_cons; done. }
  split.
  - destruct (uct_select_spec (Demo.engine "max_reward" false 1)
                Demo.young_family 0 _ [1; 2] eq_refl eq_refl)
      as (Hfirst & _ & _); [done| |].
    { apply Hwf; eexists; split; reflexivity. }
    apply (Hfirst 1 2 _ eq_refl eq_refl eq_refl).
    intros [|j] c' cn' Hj Hc Hcn; [|lia].
    injection Hc as <-. injection Hcn as <-. simpl. lia.
  - destruct (uct_select_spec (Demo.engine "max_reward" false 1)
                Demo.family 0 _ [1; 2] eq_refl eq_refl)
      as (_ & Hmax & _); [done| |].
    { apply Hwf; eexists; split; reflexivity. }
    apply Hmax; [|simpl; lia].
    intros c cn [->|[->|[]%elem_of_nil]%elem_of_cons]%elem_of_cons Hc;
      injection Hc as <-; simpl; lia.
Defined.

Lemma back_propagate_spec_witness :
  ∃ m' fnd,
    _back_propagate [0; 1] (mkMachine Demo.family tt) = Ok (Q fnd, m')
    ∧ heap m' !! 0 = Some fnd
    ∧ N fnd = 4.
Proof.
  destruct (back_propagate_spec (World:=unit) [0; 1] (mkMachine Demo.family tt)
              1 Demo.first_child)
    as (m' & first & fnd & Hrun & _ & Hhead & Hfirst & Hin & _).
  - apply NoDup_cons. split; [|apply NoDup_singleton].
    intros H%list_elem_of_singleton. discriminate.
  - intros i [->|[->|[]%elem_of_nil]%elem_of_cons]%elem_of_cons; simpl; eauto.
  - reflexivity.
  - reflexivity.
  - simpl in Hhead. injection Hhead as <-.
    exists m', fnd. split_and!; [done..|].
    destruct (Hin 0 _ (list_elem_of_here _ _) eq_refl) as (Hfnd & HN & _).
    rewrite Hfirst in Hfnd. injection Hfnd as ->. exact HN.
Defined.

Lemma ucb1_parent_visited_witness :
  ∃ (m : machine (State:=nat) (Action:=nat) (Details:=unit) (World:=unit)) pn,
    heap m !! 0 = Some pn
    ∧ children pn = Some [1]
    ∧ first_unvisited (heap m) [1] = Ok None
    ∧ 1 ≤ N pn
    ∧ ∀ c, c ∈ [1] →
        ∃ cn, heap m !! c = Some cn ∧ N cn ≤ N pn
              ∧ _uct (Demo.bound "max_visit" 1 1) (heap m) c
                = Ok (uct_value (Demo.bound "max_visit" 1 1) pn cn).
Proof.
  assert (∃ path cum m',
            iterate 10 (Demo.bound "max_visit" 1 1) 0
              (mkMachine [fresh_root tt 0] tt)
            = Ok (path, cum, Demo.bound "max_visit" 1 1, m')
            ∧ ∃ pn, heap m' !! 0 = Some pn ∧ children pn = Some [1]
                    ∧ first_unvisited (heap m') [1] = Ok None)
    as (path & cum & m' & Hit & pn & Hpn & Hcs & Hfirst).
  { eexists _, _, _. split; [vm_compute; reflexivity|].
    eexists. split_and!; reflexivity. }
  exists m', pn. split_and!; [done..| |];
    eapply (ucb1_parent_visited 10 tt _ m' 0 pn [1]); try done;
    (eapply reachable_iterate; [apply (reachable_fresh _ _ _ 0 tt)|exact Hit]).
Defined.

(** Two iterations in the forking world: the first ends in the terminal
    node 1, the second walks from node 2 down to the depth limit.  With
    [max_iter] the first is selected.  Two iterations in the world where
    both children of the root are terminal: with [last_terminal_iter] the
    second is selected. *)
Lemma output_strategy_consistency_witness :
  (∃ res self' m' log c1 c2,
     MCTS__call__ tt 10 (Demo.engine "max_iter" false 2) Sample.fork
       Sample.sc2 (mkMachine [] tt) = Ok (res, self', m')
     ∧ iterations_trace 10
         (set_collaborators Sample.fork Sample.sc2
            (Demo.engine "max_iter" false 2))
         (mkMachine [fresh_root tt 0] tt) log m'
     ∧ log = [([0; 1], c1, true); ([0; 2; 3; 5; 7; 9], c2, false)]
     ∧ trace_of_nodes res = Some [0; 1]
     ∧ res_cum_reward res = Fin c1)
  ∧ (∃ res self' m' log c1 c2,
       MCTS__call__ tt 10 (Demo.engine "last_terminal_iter" false 2)
         (Demo.wm 1) Sample.sc2 (mkMachine [] tt) = Ok (res, self', m')
       ∧ iterations_trace 10
           (set_collaborators (Demo.wm 1) Sample.sc2
              (Demo.engine "last_terminal_iter" false 2))
           (mkMachine [fresh_root tt 0] tt) log m'
       ∧ log = [([0; 1], c1, true); ([0; 2], c2, true)]
       ∧ trace_of_nodes res = Some [0; 2]
       ∧ res_cum_reward res = Fin c2).
Proof.
  split.
  - assert (∃ res self' m',
              MCTS__call__ tt 10 (Demo.engine "max_iter" false 2) Sample.fork
                Sample.sc2 (mkMachine [] tt) = Ok (res, self', m')
              ∧ trace_of_nodes res = Some [0; 1])
      as (res & self' & m' & Hrun & Hsel).
    { eexists _, _, _. split; [vm_compute; reflexivity|reflexivity]. }
    destruct (output_strategy_consistency tt 10
                (Demo.engine "max_iter" false 2) Sample.fork Sample.sc2
                (mkMachine [] tt) res self' m' Hrun)
      as (s0 & w0 & log & self1 & Hinit & Hlog & Htrace & _ & Hmax & _).
    injection Hinit as <- <-.
    specialize (Hmax eq_refl). rewrite Hsel in Hmax.
    destruct Hmax as (c & Hin & Hcum & _).
    vm_compute in Hlog. injection Hlog as <- _ _.
    eexists res, self', m', _, _, _.
    split_and!; [exact Hrun|exact Htrace|reflexivity|exact Hsel|].
    rewrite Hcum. f_equal.
    apply elem_of_cons in Hin as [[= ->]|Hin]; [reflexivity|].
    apply list_elem_of_singleton in Hin. discriminate Hin.
  - assert (∃ res self' m',
              MCTS__call__ tt 10 (Demo.engine "last_terminal_iter" false 2)
                (Demo.wm 1) Sample.sc2 (mkMachine [] tt) = Ok (res, self', m')
              ∧ trace_of_nodes res = Some [0; 2])
      as (res & self' & m' & Hrun & Hsel).
    { eexists _, _, _. split; [vm_compute; reflexivity|reflexivity]. }
    destruct (output_strategy_consistency tt 10
                (Demo.engine "last_terminal_iter" false 2) (Demo.wm 1)
                Sample.sc2 (mkMachine [] tt) res self' m' Hrun)
      as (s0 & w0 & log & self1 & Hinit & Hlog & Htrace & _ & _ & Hlast).
    injection Hinit as <- <-.
    specialize (Hlast eq_refl). rewrite Hsel in Hlast.
    destruct Hlast as (c & l1 & l2 & Heq & Hcum & _).
    assert (([0; 2], c, true) ∈ log) as Hin.
    { rewrite Heq. apply elem_of_app. right. apply list_elem_of_here. }
    clear Heq.
    vm_compute in Hlog. injection Hlog as <- _ _.
    eexists res, self', m', _, _, _.
    split_and!; [exact Hrun|exact Htrace|reflexivity|exact Hsel|].
    rewrite Hcum. f_equal.
    apply elem_of_cons in Hin as [Hin|Hin]; [discriminate Hin|].
    apply list_elem_of_singleton in Hin. by injection Hin as ->.
Defined.

Lemma max_reward_output_witness :
  ∃ res self' m',
    Demo.run "max_reward" false 1 1 = Ok (res, self', m')
    ∧ terminal_path (heap m') 0 [1]
    ∧ ∀ q, terminal_path (heap m') 0 q →
           float_le (py_sum (rewards_of (heap m') q)) (res_cum_reward res).
Proof.
  assert (∃ res self' m',
            Demo.run "max_reward" false 1 1 = Ok (res, self', m')
            ∧ terminal_path (heap m') 0 [1])
    as (res & self' & m' & Hrun & Hpath).
  { eexists _, _, _. split; [vm_compute; reflexivity|].
    simpl. split_and!.
    - eexists _, _. split_and!; [reflexivity..|apply list_elem_of_here].
    - eexists. split; [reflexivity|done].
    - eexists. split; reflexivity. }
  exists res, self', m'. split_and!; [done..|].
  apply (max_reward_output tt 10 (Demo.engine "max_reward" false 1)
           (Demo.wm 1) Demo.sc (mkMachine [] tt) res self' m' Hrun eq_refl).
  by exists [1].
Defined.

(** C3 on a concrete run: one iteration reaches and visits the terminal
    node 1, yet with [max_visit] the result carries no trajectory. *)
Lemma max_visit_run_has_no_output :
  ∃ res self' m' tn,
    Demo.run "max_visit" false 1 1 = Ok (res, self', m')
    ∧ heap m' !! 1 = Some tn ∧ is_terminal tn = true ∧ N tn = 1
    ∧ trace_of_nodes res = None ∧ terminal_state res = None
    ∧ res_cum_reward res = NegInf.
Proof.
  eexists _, _, _, _. split; [vm_compute; reflexivity|].
  split_and!; reflexivity.
Qed.

(** C8 on a concrete run: one iteration with [output_trace_in_each_iter]
    set leaves [trace_in_each_iter] empty. *)
Lemma trace_in_each_iter_run_is_empty :
  ∃ res self' m',
    Demo.run "max_reward" true 1 1 = Ok (res, self', m')
    ∧ n_iters self' = 1%Z
    ∧ res_trace_in_each_iter res = Some []
    ∧ tree_state_after_each_iter res = Some [].
Proof.
  eexists _, _, _. split; [vm_compute; reflexivity|].
  split_and!; reflexivity.
Qed.

(** C6 on a concrete run: the followed path is root, node 1, node 2 with
    rewards 0, 1 and 2; the stored [cum_reward] is the sum over node 1 and
    the root, not over nodes 1 and 2. *)
Lemma follow_max_run_cum_reward :
  ∃ res self' m',
    Demo.run "follow_max" false 1 2 = Ok (res, self', m')
    ∧ trace_of_nodes res = Some [0; 1; 2]
    ∧ rewards_of (heap m') [0; 1; 2] = [0; 1; 1 + 1]%R
    ∧ res_cum_reward res = py_sum [1; 0]%R
    ∧ res_cum_reward res ≠ py_sum (rewards_of (heap m') [1; 2]).
Proof.
  eexists _, _, _. split; [vm_compute; reflexivity|].
  split_and!; try reflexivity.
  vm_compute. intros [= H]. lra.
Qed.

(** * More concrete runs *)

(** One iteration in a world without a terminal state within reach walks
    down to the depth limit 5; the node it leaves at depth 6 is a
    placeholder. *)
Lemma depth_limit_respected_witness :
  ∃ res self' m' nd,
    MCTS__call__ tt 10 (Demo.engine "max_reward" false 1)
      (Demo.wm 10) Demo.sc (mkMachine [] tt) = Ok (res, self', m')
    ∧ heap m' !! 6 = Some nd
    ∧ depth nd = 6
    ∧ depth nd ≤ 5 + 1
    ∧ (5 < depth nd → state nd = None ∧ N nd = 0 ∧ children nd = None).
Proof.
  assert (∃ res self' m' nd,
            MCTS__call__ tt 10 (Demo.engine "max_reward" false 1)
              (Demo.wm 10) Demo.sc (mkMachine [] tt) = Ok (res, self', m')
            ∧ heap m' !! 6 = Some nd ∧ depth nd = 6)
    as (res & self' & m' & nd & Hrun & Hnd & Hd).
  { eexists _, _, _, _. split; [vm_compute; reflexivity|].
    split; reflexivity. }
  exists res, self', m', nd. split_and!; [done..| |];
    apply (depth_limit_respected tt 10 (Demo.engine "max_reward" false 1)
             (Demo.wm 10) Demo.sc (mkMachine [] tt) res self' m' 6 nd Hrun Hnd).
Defined.

Lemma root_visited_once_per_iteration_witness :
  ∃ res self' m' rn,
    MCTS__call__ tt 10 (Demo.engine "max_reward" false 1)
      (Demo.wm 1) Demo.sc (mkMachine [] tt) = Ok (res, self', m')
    ∧ tree_state res = Some 0
    ∧ heap m' !! 0 = Some rn ∧ N rn = 1
    ∧ ∀ i nd, heap m' !! i = Some nd → N nd ≤ 1.
Proof.
  assert (∃ res self' m', MCTS__call__ tt 10 (Demo.engine "max_reward" false 1)
                            (Demo.wm 1) Demo.sc (mkMachine [] tt)
                            = Ok (res, self', m'))
    as (res & self' & m' & Hrun).
  { eexists _, _, _. vm_compute. reflexivity. }
  destruct (root_visited_once_per_iteration tt 10
              (Demo.engine "max_reward" false 1) (Demo.wm 1) Demo.sc
              (mkMachine [] tt) res self' m' Hrun)
    as (Hroot & (rn & Hrn & HN) & Hall).
  exists res, self', m', rn. split_and!; done.
Defined.

Lemma iterate_only_grows_witness :
  ∃ path cum self' (m' : machine (State:=nat) (Action:=nat) (Details:=unit)
                           (World:=unit)) nd',
    iterate 10 (Demo.bound "max_visit" 1 1) 0 (mkMachine [fresh_root tt 0] tt)
    = Ok (path, cum, self', m')
    ∧ heap m' !! 0 = Some nd'
    ∧ state nd' = Some 0 ∧ reward nd' = 0%R ∧ is_terminal nd' = false
    ∧ 0 ≤ N nd' ≤ 0 + 1.
Proof.
  assert (∃ path cum self' m',
            iterate 10 (Demo.bound "max_visit" 1 1) 0
              (mkMachine [fresh_root tt 0] tt)
            = Ok (path, cum, self', m'))
    as (path & cum & self' & m' & Hit).
  { eexists _, _, _, _. vm_compute. reflexivity. }
  destruct (iterate_only_grows 10 tt _ _ path cum self' m' 0 (fresh_root tt 0)
              (reachable_fresh tt 10 _ 0 tt) Hit eq_refl)
    as (nd' & Hnd' & _ & _ & _ & _ & Hres & _ & HN).
  destruct Hres as (Hs & Hr & Ht); [by eexists|].
  exists path, cum, self', m', nd'. split_and!; try done; apply HN.
Defined.

Lemma call_without_iterations_witness :
  MCTS__call__ tt 1 (Demo.engine "max_reward" false 0) (Demo.wm 1) Demo.sc
    (mkMachine [] tt)
  = Ok (mkResult None NegInf None None (Some 0) None None None,
        search_entry
          (set_collaborators (Demo.wm 1) Demo.sc
             (Demo.engine "max_reward" false 0)),
        mkMachine [fresh_root tt 0] tt)
  ∧ MCTS__call__ tt 1 (Demo.engine "follow_max" false 0) (Demo.wm 1) Demo.sc
      (mkMachine [] tt)
    = Raise TypeError.
Proof.
  split.
  - apply (call_without_iterations tt 0 (Demo.engine "max_reward" false 0)
             (Demo.wm 1) Demo.sc (mkMachine [] tt) 0 tt); [simpl; lia|].
    reflexivity.
  - apply (call_without_iterations tt 0 (Demo.engine "follow_max" false 0)
             (Demo.wm 1) Demo.sc (mkMachine [] tt) 0 tt); [simpl; lia|].
    reflexivity.
Defined.

Lemma call_with_depth_limit_zero_witness :
  MCTS__call__ tt 1 (Sample.flat "max_iter" 3) (Demo.wm 1) Demo.sc
    (mkMachine [] tt)
  = Ok (mkResult None NegInf None None (Some 0) None None None,
        search_entry
          (set_collaborators (Demo.wm 1) Demo.sc (Sample.flat "max_iter" 3)),
        mkMachine [visited_root tt 0 3] tt).
Proof.
  apply (call_with_depth_limit_zero tt 0 (Sample.flat "max_iter" 3)
           (Demo.wm 1) Demo.sc (mkMachine [] tt) 0 tt).
  - simpl. lia.
  - discriminate.
  - reflexivity.
Defined.

Lemma call_terminates_witness :
  (∃ res self' m', MCTS__call__ tt 10 (Demo.engine "max_reward" false 1)
                     (Demo.wm 1) Demo.sc (mkMachine [] tt)
                     = Ok (res, self', m'))
  ∨ (∃ e, MCTS__call__ tt 10 (Demo.engine "max_reward" false 1)
            (Demo.wm 1) Demo.sc (mkMachine [] tt) = Raise e).
Proof.
  apply (call_terminates tt 10 (Demo.engine "max_reward" false 1) (Demo.wm 1)
           Demo.sc (mkMachine [] tt)).
  - intros x w. discriminate.
  - simpl. lia.
Defined.

(** One iteration with [last_iter]: the log has the single entry of that
    iteration, whose path [0; 1] is the trajectory of the result. *)
Lemma last_iter_output_witness :
  ∃ res self' m' (t : bool) ext rn,
    MCTS__call__ tt 10 (Demo.engine "last_iter" false 1) (Demo.wm 1) Demo.sc
      (mkMachine [] tt) = Ok (res, self', m')
    ∧ iterations_trace 10
        (set_collaborators (Demo.wm 1) Demo.sc
           (Demo.engine "last_iter" false 1))
        (mkMachine [fresh_root tt 0] tt) [(0 :: ext, Q rn, t)] m'
    ∧ trace_of_nodes res = Some (0 :: ext)
    ∧ 0 :: ext = [0; 1]
    ∧ heap m' !! 0 = Some rn
    ∧ res_cum_reward res = Fin (Q rn).
Proof.
  assert (∃ res self' m',
            MCTS__call__ tt 10 (Demo.engine "last_iter" false 1) (Demo.wm 1)
              Demo.sc (mkMachine [] tt) = Ok (res, self', m')
            ∧ trace_of_nodes res = Some [0; 1])
    as (res & self' & m' & Hrun & Hsel).
  { eexists _, _, _. split; [vm_compute; reflexivity|reflexivity]. }
  destruct (last_iter_output tt 10 (Demo.engine "last_iter" false 1)
              (Demo.wm 1) Demo.sc (mkMachine [] tt) res self' m' Hrun eq_refl)
    as (s0 & w0 & log & t & ext & rn & leaf & ln & Hinit & Htrace & Hlen & Htr
        & _ & Hrn & Hcum & _); [simpl; lia|].
  injection Hinit as <- <-.
  destruct log as [|e log]; [|simpl in Hlen; lia].
  exists res, self', m', t, ext, rn.
  refine (conj Hrun (conj Htrace (conj Htr (conj _ (conj Hrn Hcum))))).
  rewrite Hsel in Htr. injection Htr as <-. reflexivity.
Defined.

Lemma streaming_output_ends_in_terminal_witness :
  ∃ res self' m',
    MCTS__call__ tt 10 (Demo.engine "max_iter" false 1)
      (Demo.wm 1) Demo.sc (mkMachine [] tt) = Ok (res, self', m')
    ∧ match trace_of_nodes res with
      | Some p =>
          ∃ ext (t : nat) tn (s : nat),
            p = 0 :: ext ∧ ext ≠ [] ∧ descends (heap m') 0 ext
            ∧ last p = Some t ∧ heap m' !! t = Some tn
            ∧ is_terminal tn = true ∧ state tn = Some s
            ∧ terminal_state res = Some s
      | None =>
          terminal_state res = None ∧ trace res = None
          ∧ res_cum_reward res = NegInf
      end.
Proof.
  assert (∃ res self' m', MCTS__call__ tt 10 (Demo.engine "max_iter" false 1)
                            (Demo.wm 1) Demo.sc (mkMachine [] tt)
                            = Ok (res, self', m'))
    as (res & self' & m' & Hrun).
  { eexists _, _, _. vm_compute. reflexivity. }
  exists res, self', m'. split; [done|].
  apply (streaming_output_ends_in_terminal tt 10
           (Demo.engine "max_iter" false 1) (Demo.wm 1) Demo.sc
           (mkMachine [] tt) res self' m' Hrun).
  apply list_elem_of_here.
Defined.

Lemma max_reward_trajectory_witness :
  ∃ res self' m',
    MCTS__call__ tt 10 (Demo.engine "max_reward" false 1)
      (Demo.wm 1) Demo.sc (mkMachine [] tt) = Ok (res, self', m')
    ∧ match trace_of_nodes res with
      | Some p =>
          ∃ q (t : nat) tn (s : nat),
            p = 0 :: q ∧ q ≠ [] ∧ terminal_path (heap m') 0 q
            ∧ res_cum_reward res = py_sum (rewards_of (heap m') q)
            ∧ res_cum_reward res ≠ NegInf
            ∧ last p = Some t ∧ heap m' !! t = Some tn
            ∧ is_terminal tn = true ∧ state tn = Some s
            ∧ terminal_state res = Some s
      | None =>
          res_cum_reward res = NegInf
          ∧ terminal_state res = None ∧ trace res = None
      end.
Proof.
  assert (∃ res self' m', MCTS__call__ tt 10 (Demo.engine "max_reward" false 1)
                            (Demo.wm 1) Demo.sc (mkMachine [] tt)
                            = Ok (res, self', m'))
    as (res & self' & m' & Hrun).
  { eexists _, _, _. vm_compute. reflexivity. }
  exists res, self', m'. split; [done|].
  apply (max_reward_trajectory tt 10 (Demo.engine "max_reward" false 1)
           (Demo.wm 1) Demo.sc (mkMachine [] tt) res self' m' Hrun eq_refl).
Defined.

Lemma follow_max_trajectory_witness :
  ∃ res self' m' ext,
    MCTS__call__ tt 10 (Demo.engine "follow_max" false 1)
      (Demo.wm 2) Demo.sc (mkMachine [] tt) = Ok (res, self', m')
    ∧ trace_of_nodes res = Some (0 :: ext)
    ∧ follows_max (heap m') 0 ext.
Proof.
  assert (∃ res self' m', MCTS__call__ tt 10 (Demo.engine "follow_max" false 1)
                            (Demo.wm 2) Demo.sc (mkMachine [] tt)
                            = Ok (res, self', m'))
    as (res & self' & m' & Hrun).
  { eexists _, _, _. vm_compute. reflexivity. }
  destruct (follow_max_trajectory tt 10 (Demo.engine "follow_max" false 1)
              (Demo.wm 2) Demo.sc (mkMachine [] tt) res self' m' Hrun eq_refl)
    as (ext & Htr & Hext).
  exists res, self', m', ext. exact (conj Hrun (conj Htr Hext)).
Defined.

(** After one iteration with two actions per state the root has a visited
    and an unvisited child; selection moves to the unvisited one. *)
Lemma select_walks_to_a_leaf_witness :
  ∃ (m m' : machine (State:=nat) (Action:=nat) (Details:=unit) (World:=unit))
    tn,
    _select 10 (Sample.wide "max_visit" 1 1) 0 m = Ok ([0; 2], m')
    ∧ heap m' = heap m
    ∧ descends (heap m) 0 [2]
    ∧ heap m !! 2 = Some tn ∧ stops (Sample.wide "max_visit" 1 1) tn
    ∧ _uct_select (Sample.wide "max_visit" 1 1) (heap m) 0 = Ok 2.
Proof.
  assert (∃ path cum m m',
            iterate 10 (Sample.wide "max_visit" 1 1) 0
              (mkMachine [fresh_root tt 0] tt)
            = Ok (path, cum, Sample.wide "max_visit" 1 1, m)
            ∧ _select 10 (Sample.wide "max_visit" 1 1) 0 m = Ok ([0; 2], m'))
    as (path & cum & m & m' & Hit & Hsel).
  { eexists _, _, _, _. split; vm_compute; reflexivity. }
  destruct (select_walks_to_a_leaf 10 10 tt (Sample.wide "max_visit" 1 1) m
              [0; 2] m')
    as (Hheap & ext & t & tn & Hpath & Hdesc & Hlast & Htn & Hstop & _ & Huct
        & _); [|done|].
  { eapply reachable_iterate; [apply (reachable_fresh _ _ _ 0 tt)|exact Hit]. }
  injection Hpath as <-. simpl in Hlast. injection Hlast as <-.
  exists m, m', tn. split_and!; [done..|].
  by apply (Huct 0 0 2).
Defined.

Lemma expand_creates_children_witness :
  ∃ (m' : machine (State:=nat) (Action:=nat) (Details:=unit) (World:=unit)),
    _expand (Demo.bound "max_reward" 1 1) 0 (mkMachine [fresh_root tt 0] tt)
    = Ok (tt, m')
    ∧ heap m' !! 0 = Some (set_children (Some [1]) (fresh_root tt 0))
    ∧ length (heap m') = 2
    ∧ ∃ cn, heap m' !! 1 = Some cn ∧ action cn = Some 0
            ∧ parent cn = Some 0 ∧ state cn = None.
Proof.
  assert (∃ m', _expand (Demo.bound "max_reward" 1 1) 0
                  (mkMachine [fresh_root tt 0] tt) = Ok (tt, m'))
    as (m' & Hexp).
  { eexists. vm_compute. reflexivity. }
  destruct (expand_creates_children (Demo.bound "max_reward" 1 1) 0
              (mkMachine [fresh_root tt 0] tt) m' (fresh_root tt 0) 0 Demo.sc
              [0] tt Hexp eq_refl eq_refl eq_refl eq_refl eq_refl)
    as (Hnode & Hlen & _ & Hnew).
  destruct (Hnew 0 0 eq_refl) as (cn & Hcn & Ha & Hp & _ & Hs & _).
  exists m'. split_and!; [done..|]. by exists cn.
Defined.

Lemma aggregation_answer_is_in_tree_witness :
  MCTSAggregation__call__ 2 Sample.by_count Demo.family 0 = Ok (Some 1)
  ∧ reaches_answer (retrieve_answer Sample.by_count) Demo.family 0 1.
Proof.
  assert (MCTSAggregation__call__ 2 Sample.by_count Demo.family 0
          = Ok (Some 1)) as Hcall by (vm_compute; reflexivity).
  split; [done|].
  exact (aggregation_answer_is_in_tree 2 Sample.by_count Demo.family 0
           (Some 1) Hcall).
Defined.

Lemma aggregation_safe_on_searched_tree_witness :
  ∃ res self' m' r,
    MCTS__call__ tt 10 (Demo.engine "max_reward" false 1)
      (Demo.wm 1) Demo.sc (mkMachine [] tt) = Ok (res, self', m')
    ∧ MCTSAggregation__call__ 7 Demo.by_inverse_depth (heap m') 0 = Ok r.
Proof.
  assert (∃ res self' m', MCTS__call__ tt 10 (Demo.engine "max_reward" false 1)
                            (Demo.wm 1) Demo.sc (mkMachine [] tt)
                            = Ok (res, self', m'))
    as (res & self' & m' & Hrun).
  { eexists _, _, _. vm_compute. reflexivity. }
  destruct (aggregation_safe_on_searched_tree tt 10
              (Demo.engine "max_reward" false 1) (Demo.wm 1) Demo.sc
              (mkMachine [] tt) res self' m' Demo.by_inverse_depth 7 Hrun)
    as [r Hr]; [simpl; lia..|].
  exists res, self', m', r. exact (conj Hrun Hr).
Defined.

Lemma max_strategy_picks_first_maximum_witness :
  ∃ self (j : nat) (v : R),
    MCTS__init__ (State:=nat) (Action:=nat) (Details:=unit) (Aux:=unit)
      (Answer:=nat) Demo.np false 1 5 1 py_sum (PyStr "max") "max_reward"
      true None = Ok self
    ∧ call_choice (State:=nat) (Action:=nat) (Details:=unit)
        (simulate_choice self) [1; 2; 2]%R (mkMachine [] tt)
      = Ok (Z.of_nat j, mkMachine [] tt)
    ∧ [1; 2; 2]%R !! j = Some v
    ∧ (∀ y, y ∈ [1; 2; 2]%R → (y <= v)%R)
    ∧ ∀ j' y, j' < j → [1; 2; 2]%R !! j' = Some y → (y < v)%R.
Proof.
  assert (∃ self,
            MCTS__init__ (State:=nat) (Action:=nat) (Details:=unit)
              (Aux:=unit) (Answer:=nat) Demo.np false 1 5 1 py_sum
              (PyStr "max") "max_reward" true None = Ok self)
    as [self Hself] by (eexists; reflexivity).
  destruct (max_strategy_picks_first_maximum Demo.np false 1 5 1 py_sum
              "max_reward" true None self [1; 2; 2]%R (mkMachine [] tt)
              Hself)
    as (j & v & H); [discriminate|].
  exists self, j, v. exact (conj Hself H).
Defined.

Lemma iteration_ends_at_a_leaf_witness :
  ∃ path cum self' (m' : machine (State:=nat) (Action:=nat) (Details:=unit)
                           (World:=unit)) ext (t : nat) tn,
    iterate 10 (Demo.bound "max_visit" 1 1) 0 (mkMachine [fresh_root tt 0] tt)
    = Ok (path, cum, self', m')
    ∧ path = 0 :: ext ∧ last path = Some t ∧ heap m' !! t = Some tn
    ∧ (_is_terminal_with_depth_limit (Demo.bound "max_visit" 1 1) tn = true
       ∨ (is_Some (state tn) ∧ children tn = Some []))
    ∧ ∀ i nd, i ∈ path → heap m' !! i = Some nd → 1 ≤ N nd.
Proof.
  assert (∃ path cum self' m',
            iterate 10 (Demo.bound "max_visit" 1 1) 0
              (mkMachine [fresh_root tt 0] tt)
            = Ok (path, cum, self', m'))
    as (path & cum & self' & m' & Hit).
  { eexists _, _, _, _. vm_compute. reflexivity. }
  destruct (iteration_ends_at_a_leaf 10 tt _ _ path cum self' m'
              (reachable_fresh tt 10 _ 0 tt) Hit)
    as (ext & t & tn & rn & Hpath & _ & Hlast & Htn & Hend & _ & _ & HN).
  exists path, cum, self', m', ext, t, tn. split_and!; done.
Defined.

Lemma root_is_the_initial_state_witness :
  ∃ res self' m' rn,
    MCTS__call__ tt 10 (Demo.engine "max_reward" false 1)
      (Demo.wm 1) Demo.sc (mkMachine [] tt) = Ok (res, self', m')
    ∧ heap m' !! 0 = Some rn
    ∧ state rn = Some 0 ∧ is_terminal rn = false ∧ reward rn = 0%R.
Proof.
  assert (∃ res self' m', MCTS__call__ tt 10 (Demo.engine "max_reward" false 1)
                            (Demo.wm 1) Demo.sc (mkMachine [] tt)
                            = Ok (res, self', m'))
    as (res & self' & m' & Hrun).
  { eexists _, _, _. vm_compute. reflexivity. }
  destruct (root_is_the_initial_state tt 10 (Demo.engine "max_reward" false 1)
              (Demo.wm 1) Demo.sc (mkMachine [] tt) res self' m' Hrun)
    as (s0 & w0 & rn & Hinit & _ & Hrn & Hs & Ht & Hr & _).
  injection Hinit as <- _.
  exists res, self', m', rn. split_and!; done.
Defined.

Lemma children_point_back_to_their_parent_witness :
  ∃ res self' m' pn cn,
    MCTS__call__ tt 10 (Demo.engine "max_reward" false 1)
      (Demo.wm 1) Demo.sc (mkMachine [] tt) = Ok (res, self', m')
    ∧ heap m' !! 0 = Some pn ∧ children pn = Some [1]
    ∧ heap m' !! 1 = Some cn ∧ parent cn = Some 0
    ∧ depth cn = depth pn + 1 ∧ N cn ≤ N pn.
Proof.
  assert (∃ res self' m' pn,
            MCTS__call__ tt 10 (Demo.engine "max_reward" false 1)
              (Demo.wm 1) Demo.sc (mkMachine [] tt) = Ok (res, self', m')
            ∧ heap m' !! 0 = Some pn ∧ children pn = Some [1])
    as (res & self' & m' & pn & Hrun & Hpn & Hcs).
  { eexists _, _, _, _. split; [vm_compute; reflexivity|].
    split; reflexivity. }
  destruct (children_point_back_to_their_parent tt 10
              (Demo.engine "max_reward" false 1) (Demo.wm 1) Demo.sc
              (mkMachine [] tt) res self' m' 0 pn [1] Hrun Hpn Hcs)
    as (_ & _ & _ & Hall).
  destruct (Hall 1 (list_elem_of_here _ _)) as (cn & Hcn & Hp & Hd & _ & HN).
  exists res, self', m', pn, cn.
  exact (conj Hrun (conj Hpn (conj Hcs (conj Hcn (conj Hp (conj Hd HN)))))).
Defined.

Lemma call_returns_witness :
  ∃ res self' m',
    MCTS__call__ tt 10 (Demo.engine "follow_max" false 2) (Demo.wm 2) Demo.sc
      (mkMachine [] tt) = Ok (res, self', m').
Proof.
  apply (call_returns tt 10 (Demo.engine "follow_max" false 2) (Demo.wm 2)
           Demo.sc (mkMachine [] tt)).
  - repeat split; intros; by eexists.
  - intros x w Hx. exists 0%Z, w. split; [reflexivity|].
    destruct x; [done|]. simpl length. lia.
  - intros x w. discriminate.
  - simpl. lia.
  - intros _. simpl. lia.
Defined.
